(** * TimeSync: the availability and best-time engine of [app.js]

    A shallow embedding of the scheduling core of [src/app.js]: the time
    utilities ([parseTime], [isInRange]), the slot grid builder with its
    cache ([calculateSlotAvailability]), the ranker ([calculateBestTimes])
    and the compatibility analyser ([calculateTimezoneCompatibility],
    [findWorstTimezonePairs], [calculatePairOverlap]); then the undo
    history with the functions that add, remove and edit participants
    ([history], [addParticipant], [removeParticipant], [saveEdit],
    [performUndo], [performRedo], [generateColor]) and the formatting
    helpers ([pad], [formatTime], [escapeHtml]).

    Conventions.
    - The application state [state] is passed explicitly; a function that
      writes [state.cache] returns the new state next to its result.
    - A [TypeError] raised by reading a property of [undefined] is the
      [None] of an option result.
    - The platform services the code calls ([Intl.DateTimeFormat],
      [Date.prototype.toLocaleString], [new Date()]) are parameters.
    - The doubles of the compatibility score are binary64 by its
      definition, every operation being the exact result rounded to the
      nearest double; the primitive floats of Rocq run the same code and
      are compared with it.
    - A string is the UTF-8 form of the string of the program; [length]
      counts its UTF-16 units. *)

From stdpp Require Import gmap strings list sorting pretty.
From Stdlib Require Import ZArith QArith Qcanon Qround Lia.
From Stdlib Require Import Lqa Qpower Qabs.
From Stdlib Require Import Ascii.
From Stdlib Require PrimFloat Uint63 FloatOps SpecFloat.

Local Open Scope Z_scope.

(** ** JavaScript numbers of the time utilities

    Minute counts are integers far below [2^53], where binary64 arithmetic
    is exact, so the numbers that flow through [parseTime] and [isInRange]
    are modelled as an integer or [NaN]. *)

Inductive jsnum : Type :=
  | JNum (z : Z)
  | JNaN.

Definition js_mul (a b : jsnum) : jsnum :=
  match a, b with
  | JNum x, JNum y => JNum (x * y)
  | _, _ => JNaN
  end.

Definition js_add (a b : jsnum) : jsnum :=
  match a, b with
  | JNum x, JNum y => JNum (x + y)
  | _, _ => JNaN
  end.

(** Comparisons with [NaN] are false. *)
Definition js_le (a b : jsnum) : bool :=
  match a, b with
  | JNum x, JNum y => x <=? y
  | _, _ => false
  end.

Definition js_lt (a b : jsnum) : bool :=
  match a, b with
  | JNum x, JNum y => x <? y
  | _, _ => false
  end.

Definition js_ge (a b : jsnum) : bool := js_le b a.

(** ** Strings *)

Definition is_digit (c : ascii) : bool :=
  (48 <=? nat_of_ascii c)%nat && (nat_of_ascii c <=? 57)%nat.

Definition digit_value (c : ascii) : Z := Z.of_nat (nat_of_ascii c) - 48.

Fixpoint is_digits (s : string) : bool :=
  match s with
  | EmptyString => true
  | String c rest => is_digit c && is_digits rest
  end.

Fixpoint digits_value (acc : Z) (s : string) : Z :=
  match s with
  | EmptyString => acc
  | String c rest => digits_value (10 * acc + digit_value c) rest
  end.

(** [Number(s)] on the strings a time field is made of: a run of decimal
    digits is its value (leading zeros allowed, the empty string is [0]).
    Every other string is answered [NaN]; that is what the platform does
    for a string holding a character that no numeric literal contains
    (a colon, most letters). Signed, fractional, exponent and
    radix-prefixed literals, surrounding white space and runs of more than
    15 digits are outside this model. The results on the grid, the
    ranker and the analyser hold whatever [Number] answers: their proofs
    never look into [parseTime]. *)
Definition Number_ (s : string) : jsnum :=
  if is_digits s then JNum (digits_value 0 s) else JNaN.

(** [s.split(sep)] for a one-character separator. *)
Fixpoint str_split (sep : ascii) (s : string) : list string :=
  match s with
  | EmptyString => [EmptyString]
  | String c rest =>
      if Ascii.eqb c sep then EmptyString :: str_split sep rest
      else match str_split sep rest with
           | [] => [String c EmptyString]
           | hd :: tl => String c hd :: tl
           end
  end.

(** ** Time utilities *)

(** [const [h, m] = timeStr.split(':').map(Number); return h * 60 + m;]
    A missing array element is [undefined], which arithmetic turns into
    [NaN]. *)
Definition parseTime (timeStr : string) : jsnum :=
  let parts := map Number_ (str_split ":" timeStr) in
  let h := default JNaN (parts !! 0%nat) in
  let m := default JNaN (parts !! 1%nat) in
  js_add (js_mul h (JNum 60)) m.

Definition isInRange (minutes start end_ : jsnum) : bool :=
  if js_le start end_ then js_ge minutes start && js_lt minutes end_
  else js_ge minutes start || js_lt minutes end_.

(** The parser as the specification words it (section 4.1): it fails with
    [InvalidFormat] unless the string is two colon-separated integers in
    range [0,23]:[0,59]. Used only to compare [parseTime] against. *)
Inductive parse_result : Type :=
  | Parsed (v : jsnum)
  | InvalidFormat.

Definition nonempty (s : string) : bool :=
  match s with EmptyString => false | String _ _ => true end.

Definition parseLocalTime_spec (s : string) : parse_result :=
  match str_split ":" s with
  | [h; m] =>
      if nonempty h && is_digits h && nonempty m && is_digits m
         && (digits_value 0 h <=? 23) && (digits_value 0 m <=? 59)
      then Parsed (JNum (digits_value 0 h * 60 + digits_value 0 m))
      else InvalidFormat
  | _ => InvalidFormat
  end.

(** ** Data model *)

Record Participant : Type := mkParticipant {
  p_id : string;
  p_name : string;
  p_timezone : string;
  p_start : string;
  p_end : string;
  p_priority : option string;   (* [None]: the field is absent *)
  p_color : string
}.

(** An entry of [slot.participants]. *)
Record SlotEntry : Type := mkSlotEntry {
  e_name : string;
  e_color : string;
  e_isConflict : bool
}.

Record Slot : Type := mkSlot {
  slot_count : Z;
  slot_participants : list SlotEntry;
  slot_hasConflict : bool
}.

(** What the code reads of a [Date] used as a base date. *)
Record JSDate : Type := mkJSDate {
  toDateString : string;
  getUTCFullYear : Z;
  getUTCMonth : Z;
  getUTCDate : Z
}.

(** [new Date(Date.UTC(year, month, date, 0, minutes))], kept as the
    arguments of [Date.UTC]. *)
Record UTCInstant : Type := mkUTCInstant {
  i_year : Z;
  i_month : Z;
  i_date : Z;
  i_minutes : Z
}.

Record LocalTime : Type := mkLocalTime {
  lt_name : string;
  lt_time : string;
  lt_available : bool;
  lt_color : string;
  lt_priority : string
}.

Record Suggestion : Type := mkSuggestion {
  sug_start : UTCInstant;
  sug_score : Z;
  sug_available : list string;
  sug_localTimes : list LocalTime;
  sug_day : nat
}.

(** The fields of the global [state] that the core reads or writes. *)
Record State : Type := mkState {
  st_participants : list Participant;
  st_duration : Z;
  st_days : Z;
  st_maxSuggestions : Z;
  st_excludeLunch : bool;
  st_cache : gmap string (list Slot);
  st_timeFormat : string
}.

Definition set_cache (c : gmap string (list Slot)) (st : State) : State :=
  {| st_participants := st_participants st;
     st_duration := st_duration st;
     st_days := st_days st;
     st_maxSuggestions := st_maxSuggestions st;
     st_excludeLunch := st_excludeLunch st;
     st_cache := c;
     st_timeFormat := st_timeFormat st |}.

Definition set_participants (ps : list Participant) (st : State) : State :=
  {| st_participants := ps;
     st_duration := st_duration st;
     st_days := st_days st;
     st_maxSuggestions := st_maxSuggestions st;
     st_excludeLunch := st_excludeLunch st;
     st_cache := st_cache st;
     st_timeFormat := st_timeFormat st |}.

Definition set_excludeLunch (b : bool) (st : State) : State :=
  {| st_participants := st_participants st;
     st_duration := st_duration st;
     st_days := st_days st;
     st_maxSuggestions := st_maxSuggestions st;
     st_excludeLunch := b;
     st_cache := st_cache st;
     st_timeFormat := st_timeFormat st |}.

(** ** The platform

    - [localClock tz t]: the hour and minute that
      [new Intl.DateTimeFormat('en-GB', {hour, minute, hour12: false,
      timeZone: tz}).formatToParts(t)] yields, after [parseInt]; [None]
      when the call throws (a time zone the platform does not know).
    - [toLocaleString t tz hour12]: [t.toLocaleString('en-US', ...)];
      [None] when it throws.
    - [baseDate day]: [new Date()] moved [day] calendar days ahead with
      [setDate(getDate() + day)]. *)
Class Platform : Type := {
  localClock : string -> UTCInstant -> option (Z * Z);
  toLocaleString : UTCInstant -> string -> bool -> option string;
  baseDate : nat -> JSDate
}.

(** ** [JSON.stringify] of an array of strings *)

Definition dquote : ascii := "034"%char.
Definition backslash : ascii := "092"%char.

Definition hex_char (n : nat) : ascii :=
  if (n <? 10)%nat then ascii_of_nat (48 + n) else ascii_of_nat (87 + n).

Definition json_escape (c : ascii) : string :=
  let n := nat_of_ascii c in
  if (n =? 34)%nat then String backslash (String dquote EmptyString)
  else if (n =? 92)%nat then String backslash (String backslash EmptyString)
  else if (n =? 8)%nat then String backslash "b"
  else if (n =? 9)%nat then String backslash "t"
  else if (n =? 10)%nat then String backslash "n"
  else if (n =? 12)%nat then String backslash "f"
  else if (n =? 13)%nat then String backslash "r"
  else if (n <? 32)%nat then
    String backslash
      (String "u" (String "0" (String "0"
        (String (hex_char (n / 16)) (String (hex_char (n mod 16)) EmptyString)))))
  else String c EmptyString.

Fixpoint json_escape_string (s : string) : string :=
  match s with
  | EmptyString => EmptyString
  | String c rest => (json_escape c ++ json_escape_string rest)%string
  end.

Definition json_quote (s : string) : string :=
  String dquote (json_escape_string s ++ String dquote EmptyString)%string.

Fixpoint join (sep : string) (l : list string) : string :=
  match l with
  | [] => EmptyString
  | [x] => x
  | x :: rest => (x ++ sep ++ join sep rest)%string
  end.

Definition JSON_stringify (l : list string) : string :=
  ("[" ++ join "," (map json_quote l) ++ "]")%string.

(** ** Slot grid builder and cache *)

Definition emptySlot : Slot :=
  {| slot_count := 0; slot_participants := []; slot_hasConflict := false |}.

(** [slots[i].count++; slots[i].participants.push({...});
     if (isConflict) slots[i].hasConflict = true;] *)
Definition markAvailable (p : Participant) (isConflict : bool) (s : Slot) : Slot :=
  {| slot_count := slot_count s + 1;
     slot_participants :=
       slot_participants s ++ [mkSlotEntry (p_name p) (p_color p) isConflict];
     slot_hasConflict := if isConflict then true else slot_hasConflict s |}.

Definition utcInstant (d : JSDate) (minutes : Z) : UTCInstant :=
  mkUTCInstant (getUTCFullYear d) (getUTCMonth d) (getUTCDate d) minutes.

Definition cacheKey (d : JSDate) (ps : list Participant) : string :=
  ("slots-" ++ toDateString d ++ "-" ++ JSON_stringify (map p_id ps))%string.

Section Grid.
Context {P : Platform}.

(** The body of the loop over [i] for one participant: the [try] block,
    with [continue] and the [catch] both leaving the grid untouched. *)
Definition visitSlot (excludeLunch : bool) (d : JSDate) (p : Participant)
    (slots : list Slot) (i : nat) : list Slot :=
  match localClock (p_timezone p) (utcInstant d (Z.of_nat i * 30)) with
  | None => slots
  | Some (localHour, localMin) =>
      let localMinutes := localHour * 60 + localMin in
      let startMin := parseTime (p_start p) in
      let endMin := parseTime (p_end p) in
      if excludeLunch && (12 * 60 <=? localMinutes) && (localMinutes <? 13 * 60)
      then slots
      else
        let isConflict := (localHour <? 7) || (22 <=? localHour) in
        if isInRange (JNum localMinutes) startMin endMin
        then alter (markAvailable p isConflict) i slots
        else slots
  end.

Definition visitParticipant (excludeLunch : bool) (d : JSDate)
    (slots : list Slot) (p : Participant) : list Slot :=
  foldl (visitSlot excludeLunch d p) slots (seq 0 48).

(** The grid computed on a cache miss. *)
Definition buildSlots (st : State) (d : JSDate) : list Slot :=
  foldl (visitParticipant (st_excludeLunch st) d)
        (replicate 48 emptySlot) (st_participants st).

(** Returns the grid and the state with its cache updated. A cached
    grid is an array, hence truthy. *)
Definition calculateSlotAvailability (st : State) (d : JSDate)
    : list Slot * State :=
  let key := cacheKey d (st_participants st) in
  match st_cache st !! key with
  | Some slots => (slots, st)
  | None =>
      let slots := buildSlots st d in
      (slots, set_cache (<[key := slots]> (st_cache st)) st)
  end.
End Grid.

(** ** Arrays and sets of the ranker *)

(** [Set.prototype.add] and [has] on a set of names, kept in insertion
    order (the order [Array.from] lists it in). *)
Definition set_has (x : string) (s : list string) : bool := bool_decide (x ∈ s).

Definition set_add (x : string) (s : list string) : list string :=
  if set_has x s then s else s ++ [x].

(** [Array.prototype.sort] with a comparator, which is stable: [neg a b]
    tells that the comparator is negative on [(a, b)], so that [a] is
    placed before [b]. *)
Section Sort.
Context {A : Type} (neg : A -> A -> bool).

Fixpoint sort_insert (x : A) (l : list A) : list A :=
  match l with
  | [] => [x]
  | y :: l' => if neg y x then y :: sort_insert x l' else x :: l
  end.

Definition Array_sort (l : list A) : list A := foldr sort_insert [] l.
End Sort.

(** [l.slice(0, n)]: a negative [n] counts from the end. *)
Definition slice0 {A : Type} (n : Z) (l : list A) : list A :=
  if n <? 0 then take (Z.to_nat (Z.of_nat (length l) + n)) l
  else take (Z.to_nat n) l.

(** ** Best-time ranker *)

(** [Math.ceil(state.duration / 30)]; the quotient of an integer duration
    by 30 is off an integer by at least 1/30 or is exactly one, so the
    rounding of the division does not move its ceiling. *)
Definition slotsNeeded (st : State) : Z := - ((- st_duration st) / 30).

Definition addSlotToWindow (acc : Z * list string) (s : Slot) : Z * list string :=
  (acc.1 + slot_count s,
   foldl (fun set e => set_add (e_name e) set) acc.2 (slot_participants s)).

(** One turn of the loop over [j]; [slots[i + j]] out of range is
    [undefined], whose [count] cannot be read. *)
Definition windowStep (slots : list Slot) (i : nat)
    (acc : option (Z * list string)) (j : nat) : option (Z * list string) :=
  match acc with
  | None => None
  | Some a =>
      match slots !! (i + j)%nat with
      | None => None
      | Some s => Some (addSlotToWindow a s)
      end
  end.

Definition scanWindow (slots : list Slot) (i : nat) (sn : Z)
    : option (Z * list string) :=
  foldl (windowStep slots i) (Some (0, [])) (seq 0 (Z.to_nat sn)).

(** [p.priority === 'required'] *)
Definition isRequired (p : Participant) : bool :=
  bool_decide (p_priority p = Some "required"%string).

Definition requiredScore (ps : list Participant) (availableSet : list string) : Z :=
  foldl (fun r p =>
           if isRequired p && set_has (p_name p) availableSet then r + 2 else r)
        0 ps.

(** [p.priority || 'required']: an absent or empty priority is falsy. *)
Definition priorityOrRequired (o : option string) : string :=
  match o with
  | Some s => if nonempty s then s else "required"%string
  | None => "required"%string
  end.

Section Ranker.
Context {P : Platform}.

Definition localTimeOf (st : State) (startDate : UTCInstant)
    (availableSet : list string) (p : Participant) : LocalTime :=
  match toLocaleString startDate (p_timezone p)
          (bool_decide (st_timeFormat st = "12h"%string)) with
  | Some localStr =>
      mkLocalTime (p_name p) localStr (set_has (p_name p) availableSet)
                  (p_color p) (priorityOrRequired (p_priority p))
  | None =>
      mkLocalTime (p_name p) "Error" false
                  (p_color p) (priorityOrRequired (p_priority p))
  end.

(** The suggestion pushed for start index [i] with the given score and
    set of names. *)
Definition suggestionAt (st : State) (d : JSDate) (day i : nat)
    (score : Z) (availableSet : list string) : Suggestion :=
  let startDate := utcInstant d (Z.of_nat i * 30) in
  {| sug_start := startDate;
     sug_score := score;
     sug_available := availableSet;
     sug_localTimes := map (localTimeOf st startDate availableSet) (st_participants st);
     sug_day := day |}.

(** The body of the loop over [i]. *)
Definition visitStart (st : State) (d : JSDate) (day : nat) (slots : list Slot)
    (results : option (list Suggestion)) (i : nat) : option (list Suggestion) :=
  match results with
  | None => None
  | Some results =>
      match scanWindow slots i (slotsNeeded st) with
      | None => None
      | Some (score0, availableSet) =>
          let score := score0 + requiredScore (st_participants st) availableSet in
          if 0 <? score
          then Some (results ++ [suggestionAt st d day i score availableSet])
          else Some results
      end
  end.

(** [for (let i = 0; i <= 48 - slotsNeeded; i++)] *)
Definition scanDay (st : State) (d : JSDate) (day : nat) (slots : list Slot)
    (results : list Suggestion) : option (list Suggestion) :=
  foldl (visitStart st d day slots) (Some results)
        (seq 0 (Z.to_nat (48 - slotsNeeded st + 1))).

(** The loop over [day], threading the cache. *)
Fixpoint scanDays (st : State) (days : list nat) (results : list Suggestion)
    : option (list Suggestion * State) :=
  match days with
  | [] => Some (results, st)
  | day :: rest =>
      let d := baseDate day in
      let '(slots, st1) := calculateSlotAvailability st d in
      match scanDay st d day slots results with
      | None => None
      | Some results' => scanDays st1 rest results'
      end
  end.

(** [results.sort((a, b) => b.score - a.score)] *)
Definition byScoreDesc (a b : Suggestion) : bool := sug_score b - sug_score a <? 0.

Definition calculateBestTimes (st : State) : option (list Suggestion * State) :=
  match scanDays st (seq 0 (Z.to_nat (st_days st))) [] with
  | None => None
  | Some (results, st') =>
      Some (slice0 (st_maxSuggestions st) (Array_sort byScoreDesc results), st')
  end.

(** The state in which the grid of day [day] is requested, and that
    grid. *)
Definition stateAtDay (st : State) (day : nat) : State :=
  foldl (fun s d => (calculateSlotAvailability s (baseDate d)).2) st (seq 0 day).

Definition gridOfDay (st : State) (day : nat) : list Slot :=
  (calculateSlotAvailability (stateAtDay st day) (baseDate day)).1.
End Ranker.

(** ** Editing a participant *)

Definition TIMEZONES : list string :=
  ["UTC"; "Africa/Cairo"; "Africa/Johannesburg"; "Africa/Lagos"; "Africa/Nairobi";
   "America/Anchorage"; "America/Chicago"; "America/Denver"; "America/Los_Angeles";
   "America/Mexico_City"; "America/New_York"; "America/Phoenix"; "America/Sao_Paulo";
   "America/Toronto"; "Asia/Colombo"; "Asia/Dubai"; "Asia/Hong_Kong"; "Asia/Jakarta";
   "Asia/Karachi"; "Asia/Kolkata"; "Asia/Seoul"; "Asia/Shanghai"; "Asia/Singapore";
   "Asia/Tokyo"; "Australia/Sydney"; "Europe/Amsterdam"; "Europe/Berlin"; "Europe/London";
   "Europe/Madrid"; "Europe/Moscow"; "Europe/Paris"; "Europe/Rome"; "Europe/Istanbul";
   "Pacific/Auckland"; "Pacific/Fiji"]%string.

(** [a === b] on numbers: [NaN] equals nothing. *)
Definition js_strict_eq (a b : jsnum) : bool :=
  match a, b with
  | JNum x, JNum y => x =? y
  | _, _ => false
  end.

(** [s.length]: the number of UTF-16 code units of a string. A string
    of the model is the UTF-8 form of the string of the program: a
    character of one to three bytes is one unit, a character of four
    bytes is two (a surrogate pair); the bytes [10xxxxxx] that continue
    a character count for nothing. *)
Definition utf16_units (c : ascii) : nat :=
  let n := nat_of_ascii c in
  if (n <? 128)%nat then 1%nat
  else if (n <? 192)%nat then 0%nat
  else if (n <? 240)%nat then 1%nat
  else 2%nat.

Fixpoint js_length (s : string) : nat :=
  match s with
  | EmptyString => 0%nat
  | String c rest => (utf16_units c + js_length rest)%nat
  end.

(** The white space that [trim] removes, by the bytes of its UTF-8
    form: TAB to CR and the space; U+00A0; U+1680, U+2000 to U+200A,
    U+2028, U+2029, U+202F, U+205F, U+3000 and U+FEFF. *)
Definition whitespace1 (a : nat) : bool :=
  ((9 <=? a)%nat && (a <=? 13)%nat) || (a =? 32)%nat.

Definition whitespace2 (a b : nat) : bool :=
  (a =? 194)%nat && (b =? 160)%nat.

Definition whitespace3 (a b c : nat) : bool :=
  ((a =? 225)%nat && (b =? 154)%nat && (c =? 128)%nat)
  || ((a =? 226)%nat && (b =? 128)%nat
      && (((128 <=? c)%nat && (c <=? 138)%nat)
          || (c =? 168)%nat || (c =? 169)%nat || (c =? 175)%nat))
  || ((a =? 226)%nat && (b =? 129)%nat && (c =? 159)%nat)
  || ((a =? 227)%nat && (b =? 128)%nat && (c =? 128)%nat)
  || ((a =? 239)%nat && (b =? 187)%nat && (c =? 191)%nat).

(** [s.trim().length === 0]: the string is made of white space only. *)
Fixpoint blank (s : string) : bool :=
  match s with
  | EmptyString => true
  | String a rest =>
      if whitespace1 (nat_of_ascii a) then blank rest
      else
        match rest with
        | EmptyString => false
        | String b rest2 =>
            if whitespace2 (nat_of_ascii a) (nat_of_ascii b) then blank rest2
            else
              match rest2 with
              | EmptyString => false
              | String c rest3 =>
                  if whitespace3 (nat_of_ascii a) (nat_of_ascii b) (nat_of_ascii c)
                  then blank rest3
                  else false
              end
        end
  end.

(** [validateParticipant]; the result tells whether the list of errors
    is empty. *)
Definition validateParticipant (name timezone start end_ : string) : bool :=
  nonempty name && negb (blank name)
  && (js_length name <=? 50)%nat
  && nonempty timezone && bool_decide (timezone ∈ TIMEZONES)
  && nonempty start && nonempty end_
  && negb (js_strict_eq (parseTime start) (parseTime end_)).

(** The assignments of [saveEdit] to the participant found. *)
Definition editFields (name timezone start end_ priority : string)
    (p : Participant) : Participant :=
  {| p_id := p_id p;
     p_name := name;
     p_timezone := timezone;
     p_start := start;
     p_end := end_;
     p_priority := Some priority;
     p_color := p_color p |}.

(** [state.participants.find(p => p.id === id)], then the update in
    place of that object. *)
Fixpoint updateFirst (id : string) (f : Participant -> Participant)
    (ps : list Participant) : list Participant :=
  match ps with
  | [] => []
  | p :: rest =>
      if bool_decide (p_id p = id) then f p :: rest
      else p :: updateFirst id f rest
  end.

(** [saveEdit] with the edit form's values; an empty [currentEditId] is
    falsy; [state.cache] is left as it is. *)
Definition saveEdit (currentEditId name timezone start end_ priority : string)
    (st : State) : State :=
  if nonempty currentEditId && validateParticipant name timezone start end_
  then set_participants
         (updateFirst currentEditId (editFields name timezone start end_ priority)
                      (st_participants st)) st
  else st.

(** ** Compatibility analyser *)

(** The score divides by 48 and by the number of participants, which
    rounds in binary64, so its arithmetic is an interface: [F] stands for
    the doubles, [ofZ] for an integer taken as a double, [f0_8] for the
    literal [0.8], [fleb a b] for [a <= b]. *)
Class JSArith : Type := {
  F : Type;
  ofZ : Z -> F;
  f0_8 : F;
  fadd : F -> F -> F;
  fmul : F -> F -> F;
  fdiv : F -> F -> F;
  Math_round : F -> F;
  Math_ceil : F -> F;
  fleb : F -> F -> bool
}.

Definition fle `{JSArith} (a b : F) : Prop := fleb a b = true.

(** Equal as numbers: the two zeros of the doubles are, and they are
    two values. *)
Definition feq `{JSArith} (a b : F) : Prop := fle a b /\ fle b a.

(** What the proofs use of an arithmetic rounded to nearest, on values
    from 0 up: on integers of magnitude at most [2^53] the result of an
    operation that is itself such an integer is exact, the operations
    are monotone, and [Math.round] of a value between two integers is,
    as a number, an integer between them. *)
Definition small (z : Z) : Prop := - 2 ^ 53 <= z <= 2 ^ 53.

Class JSArithLaws (A : JSArith) : Prop := {
  fle_trans : forall x y z : F, fle x y -> fle y z -> fle x z;
  ofZ_mono : forall a b, small a -> small b -> a <= b -> fle (ofZ a) (ofZ b);
  fdiv_exact : forall a c,
    0 <= a -> 0 < c -> small c -> small (a * c) ->
    fdiv (ofZ (a * c)) (ofZ c) = ofZ a;
  fdiv_mono : forall x y c b,
    0 < c -> small c -> 0 <= b -> small b ->
    fle (ofZ 0) x -> fle x y -> fle y (ofZ b) ->
    fle (fdiv x (ofZ c)) (fdiv y (ofZ c));
  fmul_exact : forall a b,
    0 <= a -> 0 <= b -> small a -> small b -> small (a * b) ->
    fmul (ofZ a) (ofZ b) = ofZ (a * b);
  fmul_mono : forall x y c b,
    0 < c -> small c -> 0 <= b -> small (b * c) ->
    fle (ofZ 0) x -> fle x y -> fle y (ofZ b) ->
    fle (fmul x (ofZ c)) (fmul y (ofZ c));
  fadd_exact : forall a b,
    0 <= a -> 0 <= b -> small (a + b) ->
    fadd (ofZ a) (ofZ b) = ofZ (a + b);
  fadd_mono : forall x y x' y' b b',
    0 <= b -> 0 <= b' -> small (b + b') ->
    fle (ofZ 0) x -> fle x y -> fle y (ofZ b) ->
    fle (ofZ 0) x' -> fle x' y' -> fle y' (ofZ b') ->
    fle (fadd x x') (fadd y y');
  Math_round_between : forall x a b,
    0 <= a -> small a -> small b -> fle (ofZ a) x -> fle x (ofZ b) ->
    exists k, feq (Math_round x) (ofZ k) /\ a <= k <= b
}.

(** [slots.reduce((sum, slot) => sum + slot.count, 0)]: a sum of integer
    counts, exact in binary64. *)
Definition sumCounts (slots : list Slot) : Z :=
  foldl (fun sum slot => sum + slot_count slot) 0 slots.

Section Compatibility.
Context {P : Platform} {A : JSArith}.

Definition goldenThreshold (st : State) : F :=
  Math_ceil (fmul (ofZ (Z.of_nat (length (st_participants st)))) f0_8).

(** [slots.filter(s => s.count >= goldenThreshold).length] *)
Definition goldenSlots (st : State) (slots : list Slot) : Z :=
  Z.of_nat (length (List.filter
    (fun s => fleb (goldenThreshold st) (ofZ (slot_count s))) slots)).

(** The arithmetic of the score, on the number of participants [n], the
    length [len] of the grid, the sum [S] of its counts and the number
    [G] of its golden slots. *)
Definition compatibilityScore (n len S G : Z) : F :=
  let avgAvailability := fdiv (ofZ S) (ofZ len) in
  let maxPossible := ofZ n in
  let avgScore := fmul (fdiv avgAvailability maxPossible) (ofZ 60) in
  let goldenScore := fmul (fdiv (ofZ G) (ofZ 48)) (ofZ 40) in
  Math_round (fadd avgScore goldenScore).

(** The value returned once the grid is at hand. *)
Definition compatibilityOf (st : State) (slots : list Slot) : F :=
  compatibilityScore (Z.of_nat (length (st_participants st)))
                     (Z.of_nat (length slots))
                     (sumCounts slots) (goldenSlots st slots).

Definition calculateTimezoneCompatibility (st : State) : F * State :=
  if (length (st_participants st) <? 2)%nat then (ofZ 0, st)
  else
    let '(slots, st') := calculateSlotAvailability st (baseDate 0) in
    (compatibilityOf st slots, st').
End Compatibility.

(** ** Worst pairs

    In [calculatePairOverlap] every intermediate value is a multiple of
    one half below 240, which binary64 holds and computes exactly, so the
    overlap is an exact rational. *)

Record Pair : Type := mkPair {
  pair_p1 : string;
  pair_p2 : string;
  pair_overlap : Qc
}.

(** [Math.round]: the nearest integer, a tie going up. *)
Definition Qc_round (x : Qc) : Qc := Qc_of_Z (Qfloor (x + Q2Qc (1 # 2))%Qc).

Definition Qc_half : Qc := Q2Qc (1 # 2).

Section Pairs.
Context {P : Platform}.

(** Whether the participant is inside their window at slot [i] of the
    day [d]. Not a function of the source: it names the test that the
    loops apply. *)
Definition inWindowAt (d : JSDate) (p : Participant) (i : nat) : bool :=
  match localClock (p_timezone p) (utcInstant d (Z.of_nat i * 30)) with
  | None => false
  | Some (h, m) =>
      isInRange (JNum (h * 60 + m)) (parseTime (p_start p)) (parseTime (p_end p))
  end.

(** The body of the loop of [calculatePairOverlap]: both projections
    are inside one [try]. *)
Definition overlapStep (d : JSDate) (p1 p2 : Participant)
    (overlapSlots : Z) (i : nat) : Z :=
  let t := utcInstant d (Z.of_nat i * 30) in
  match localClock (p_timezone p1) t with
  | None => overlapSlots
  | Some (h1, m1) =>
      match localClock (p_timezone p2) t with
      | None => overlapSlots
      | Some (h2, m2) =>
          let local1 := h1 * 60 + m1 in
          let local2 := h2 * 60 + m2 in
          if isInRange (JNum local1) (parseTime (p_start p1)) (parseTime (p_end p1))
             && isInRange (JNum local2) (parseTime (p_start p2)) (parseTime (p_end p2))
          then overlapSlots + 1
          else overlapSlots
      end
  end.

Definition overlapSlotsOf (p1 p2 : Participant) : Z :=
  foldl (overlapStep (baseDate 0) p1 p2) 0 (seq 0 48).

Definition calculatePairOverlap (p1 p2 : Participant) : Qc :=
  (Qc_round ((Qc_of_Z (overlapSlotsOf p1 p2) * Qc_half) * Qc_of_Z 10)
   / Qc_of_Z 10)%Qc.

(** The loop over [j] for a fixed [p1 = participants[i]]. *)
Definition pairsWith (p1 : Participant) (rest : list Participant)
    (pairs : list Pair) : list Pair :=
  foldl (fun pairs p2 =>
           let overlap := calculatePairOverlap p1 p2 in
           if bool_decide (overlap < Qc_of_Z 3)%Qc
           then pairs ++ [mkPair (p_name p1) (p_name p2) overlap]
           else pairs)
        pairs rest.

(** The loop over [i]. *)
Fixpoint collectPairs (ps : list Participant) (pairs : list Pair) : list Pair :=
  match ps with
  | [] => pairs
  | p1 :: rest => collectPairs rest (pairsWith p1 rest pairs)
  end.

(** [pairs.sort((a, b) => a.overlap - b.overlap)] *)
Definition byOverlapAsc (a b : Pair) : bool :=
  bool_decide (pair_overlap a - pair_overlap b < 0)%Qc.

Definition findWorstTimezonePairs (st : State) : list Pair :=
  if (length (st_participants st) <? 2)%nat then []
  else slice0 3 (Array_sort byOverlapAsc (collectPairs (st_participants st) [])).
End Pairs.

(** ** Properties stated about the grid and the ranker *)

(** The slots [i, i + sn) of a grid. *)
Definition windowOf (slots : list Slot) (i : nat) (sn : Z) : list Slot :=
  take (Z.to_nat sn) (drop i slots).

Definition namedIn (name : string) (s : Slot) : bool :=
  existsb (fun e => String.eqb (e_name e) name) (slot_participants s).

(** The name is listed in at least one slot of the window. *)
Definition presentInSome (name : string) (w : list Slot) : bool :=
  existsb (namedIn name) w.

(** The name is listed in every slot of the window. *)
Definition presentInEvery (name : string) (w : list Slot) : bool :=
  forallb (namedIn name) w.

(** The score of a window with the bonus going to the required
    participants that [present] accepts. *)
Definition windowScore (present : string -> list Slot -> bool)
    (ps : list Participant) (w : list Slot) : Z :=
  sumCounts w
  + 2 * Z.of_nat (length (List.filter
                    (fun p => isRequired p && present (p_name p) w) ps)).

Definition slot_ok (s : Slot) : Prop :=
  slot_count s = Z.of_nat (length (slot_participants s))
  /\ slot_hasConflict s = existsb e_isConflict (slot_participants s).

Definition grid_ok (g : list Slot) : Prop :=
  length g = 48%nat /\ Forall slot_ok g.

(** Every cached grid has 48 slots. *)
Definition cache_wf (c : gmap string (list Slot)) : Prop :=
  forall k g, c !! k = Some g -> length g = 48%nat.

(** Every cached grid has 48 slots that satisfy [slot_ok]. *)
Definition cache_ok (c : gmap string (list Slot)) : Prop :=
  forall k g, c !! k = Some g -> grid_ok g.

(** The counts of a grid lie between 0 and [n]. *)
Definition grid_bounded (n : nat) (g : list Slot) : Prop :=
  Forall (fun s => 0 <= slot_count s <= Z.of_nat n) g.

(** ** Instances used to run the definitions *)

(** Exact rational arithmetic. *)
Definition exactArith : JSArith :=
  {| F := Qc;
     ofZ := Qc_of_Z;
     f0_8 := Q2Qc (4 # 5);
     fadd := Qcplus;
     fmul := Qcmult;
     fdiv := Qcdiv;
     Math_round := Qc_round;
     Math_ceil := fun x => Qc_of_Z (Qceiling x);
     fleb := fun a b => bool_decide (a <= b)%Qc |}.

Definition two_digits (n : Z) : string :=
  String (ascii_of_nat (48 + Z.to_nat (n / 10)))
    (String (ascii_of_nat (48 + Z.to_nat (n mod 10))) EmptyString).

(** A platform that knows two zones without daylight saving, [UTC] and
    [Asia/Tokyo] (nine hours ahead), prints local times as [HH:MM], and
    whose clock reads Monday 2 November 2026 (months count from 0; the
    days that follow stay in November). *)
Definition zoneOffset (tz : string) : option Z :=
  if bool_decide (tz = "UTC"%string) then Some 0
  else if bool_decide (tz = "Asia/Tokyo"%string) then Some 540
  else None.

Definition weekday (day : nat) : string :=
  nth (day mod 7) ["Mon"; "Tue"; "Wed"; "Thu"; "Fri"; "Sat"; "Sun"]%string
      "Mon"%string.

Definition ex_platform : Platform :=
  {| localClock := fun tz t =>
       match zoneOffset tz with
       | Some off =>
           let m := (i_minutes t + off) mod 1440 in Some (m / 60, m mod 60)
       | None => None
       end;
     toLocaleString := fun t tz _ =>
       match zoneOffset tz with
       | Some off =>
           let m := (i_minutes t + off) mod 1440 in
           Some (two_digits (m / 60) ++ ":" ++ two_digits (m mod 60))%string
       | None => None
       end;
     baseDate := fun day =>
       mkJSDate (weekday day ++ " Nov " ++ two_digits (2 + Z.of_nat day) ++ " 2026")
                2026 10 (2 + Z.of_nat day) |}.

(** One required participant in UTC, free from 09:00 to 09:30 only, and
    a meeting of 60 minutes. *)
Definition ex_halfHour : State :=
  {| st_participants :=
       [mkParticipant "a1" "Ann" "UTC" "09:00" "09:30" (Some "required"%string) "#14b8a6"];
     st_duration := 60;
     st_days := 1;
     st_maxSuggestions := 5;
     st_excludeLunch := false;
     st_cache := ∅;
     st_timeFormat := "24h" |}.

(** One participant without a [priority] field, as a share link may
    carry, free from 09:00 to 17:00, and a meeting of 30 minutes. *)
Definition ex_noPriority : State :=
  {| st_participants :=
       [mkParticipant "a1" "Ann" "UTC" "09:00" "17:00" None "#14b8a6"];
     st_duration := 30;
     st_days := 1;
     st_maxSuggestions := 1;
     st_excludeLunch := false;
     st_cache := ∅;
     st_timeFormat := "24h" |}.

(** Two participants, the defaults of the application otherwise. *)
Definition ex_team : State :=
  {| st_participants :=
       [mkParticipant "a1" "Ann" "UTC" "09:00" "17:00" (Some "required"%string) "#14b8a6";
        mkParticipant "b2" "Bo" "Asia/Tokyo" "09:00" "18:00" (Some "optional"%string) "#06b6d4"];
     st_duration := 60;
     st_days := 1;
     st_maxSuggestions := 5;
     st_excludeLunch := false;
     st_cache := ∅;
     st_timeFormat := "12h" |}.

(** One required participant in UTC, free from 09:00 to 17:00. *)
Definition ex_solo : State :=
  {| st_participants :=
       [mkParticipant "a1" "Ann" "UTC" "09:00" "17:00" (Some "required"%string) "#14b8a6"];
     st_duration := 60;
     st_days := 1;
     st_maxSuggestions := 5;
     st_excludeLunch := false;
     st_cache := ∅;
     st_timeFormat := "24h" |}.

(** The same with a meeting of 1450 minutes, which needs 49 slots. *)
Definition ex_longMeeting : State :=
  {| st_participants := st_participants ex_solo;
     st_duration := 1450;
     st_days := 2;
     st_maxSuggestions := 5;
     st_excludeLunch := false;
     st_cache := ∅;
     st_timeFormat := "24h" |}.

(** ** The grid, slot by slot

    These definitions are not in the source; they name what the nested
    loops of [calculateSlotAvailability] do to one slot. *)
Section SlotView.
Context {P : Platform}.

(** Whether participant [p] is added to slot [i], and then with which
    [isConflict]. *)
Definition availability (excludeLunch : bool) (d : JSDate) (p : Participant)
    (i : nat) : option bool :=
  match localClock (p_timezone p) (utcInstant d (Z.of_nat i * 30)) with
  | None => None
  | Some (localHour, localMin) =>
      let localMinutes := localHour * 60 + localMin in
      if excludeLunch && (12 * 60 <=? localMinutes) && (localMinutes <? 13 * 60)
      then None
      else if isInRange (JNum localMinutes) (parseTime (p_start p)) (parseTime (p_end p))
      then Some ((localHour <? 7) || (22 <=? localHour))
      else None
  end.

Definition applyAvail (excludeLunch : bool) (d : JSDate) (i : nat)
    (s : Slot) (p : Participant) : Slot :=
  match availability excludeLunch d p i with
  | Some isConflict => markAvailable p isConflict s
  | None => s
  end.

(** Slot [i] after the participants [ps] have been visited in order. *)
Definition slotAt (excludeLunch : bool) (d : JSDate) (ps : list Participant)
    (i : nat) : Slot :=
  foldl (applyAvail excludeLunch d i) emptySlot ps.
End SlotView.

(** The suggestions that the loop over [i] of [calculateBestTimes] pushes
    for one day, given the grid of that day. *)
Definition candidateOf `{Platform} (st : State) (d : JSDate) (day : nat)
    (slots : list Slot) (sug : Suggestion) : Prop :=
  exists (i : nat) (score0 : Z) (availableSet : list string),
    0 < slotsNeeded st
    /\ Z.of_nat i + slotsNeeded st <= 48
    /\ scanWindow slots i (slotsNeeded st) = Some (score0, availableSet)
    /\ 0 < score0 + requiredScore (st_participants st) availableSet
    /\ sug = suggestionAt st d day i
               (score0 + requiredScore (st_participants st) availableSet)
               availableSet.

(** ** The doubles of the kernel

    The interface run on the kernel's binary64 numbers. [Math.round] and
    [Math.ceil] are computed on the integer mantissa and exponent of
    their argument, hence exactly; the literal [0.8] is the double
    nearest to four fifths, which the division of 4 by 5 returns. *)

(** An integer of magnitude below [2^63] as a double. *)
Definition float_of_Z (z : Z) : PrimFloat.float :=
  if z <? 0 then PrimFloat.opp (PrimFloat.of_uint63 (Uint63.of_Z (- z)))
  else PrimFloat.of_uint63 (Uint63.of_Z z).

(** The integer [f m e] for a mantissa [m] and an exponent [e], as a
    double. A double with [e >= 0] is an integer already; it is returned
    as it is, as are a zero, an infinity and a [NaN]. A result that is
    zero has the sign of the argument. *)
Definition float_to_integer (f : Z -> Z -> Z) (x : PrimFloat.float) : PrimFloat.float :=
  match FloatOps.Prim2SF x with
  | SpecFloat.S754_finite s m e =>
      if 0 <=? e then x
      else
        let z := f (if s then Z.neg m else Z.pos m) e in
        if z =? 0 then (if s then PrimFloat.neg_zero else PrimFloat.zero)
        else float_of_Z z
  | _ => x
  end.

(** The nearest integer to [m * 2^e], a tie going up. *)
Definition round_half_up (m e : Z) : Z :=
  if 0 <=? e then m * 2 ^ e else (2 * m + 2 ^ (- e)) / 2 ^ (1 - e).

Definition ceiling (m e : Z) : Z :=
  if 0 <=? e then m * 2 ^ e else - ((- m) / 2 ^ (- e)).

Definition binary64 : JSArith :=
  {| F := PrimFloat.float;
     ofZ := float_of_Z;
     f0_8 := PrimFloat.div (float_of_Z 4) (float_of_Z 5);
     fadd := PrimFloat.add;
     fmul := PrimFloat.mul;
     fdiv := PrimFloat.div;
     Math_round := float_to_integer round_half_up;
     Math_ceil := float_to_integer ceiling;
     fleb := PrimFloat.leb |}.

(** Ann and Bo are free all day and Cy from 09:00 to 10:00, all in UTC:
    two slots count 3 and the other 46 count 2. *)
Definition ex_tie : State :=
  {| st_participants :=
       [mkParticipant "a1" "Ann" "UTC" "00:00" "23:59" (Some "required"%string) "#14b8a6";
        mkParticipant "b2" "Bo" "UTC" "00:00" "23:59" (Some "required"%string) "#06b6d4";
        mkParticipant "c3" "Cy" "UTC" "09:00" "10:00" (Some "optional"%string) "#8b5cf6"];
     st_duration := 60;
     st_days := 1;
     st_maxSuggestions := 5;
     st_excludeLunch := false;
     st_cache := ∅;
     st_timeFormat := "24h" |}.

(** ** Binary64 by its definition

    The arithmetic of the code. IEEE 754 defines the sum, the product
    and the quotient of two doubles as the exact result rounded to the
    nearest double, a tie going to the double with an even mantissa;
    JavaScript numbers are these doubles. The exact results are
    rationals; a double is [m * 2^e] with [|m| < 2^53] and
    [-1074 <= e], of magnitude below [2^1024]. *)

Definition pow2 (k : Z) : Q := (2 ^ k)%Q.

(** [floor (log2 q)] for [0 < q]: the difference of the bit lengths of
    numerator and denominator, or one less. *)
Definition ilog2 (q : Q) : Z :=
  let k := Z.log2 (Qnum q) - Z.log2 (Z.pos (Qden q)) in
  if Qle_bool (pow2 k) q then k else k - 1.

(** The nearest integer, a tie going to the even one. *)
Definition round_half_even (q : Q) : Z :=
  let f := Qfloor q in
  match (q - inject_Z f ?= 1 # 2)%Q with
  | Lt => f
  | Gt => f + 1
  | Eq => if Z.even f then f else f + 1
  end.

(** The nearest to [q >= 0] among the [m * 2^e] with [m < 2^53] and
    [-1074 <= e]: in the binade of [q] the doubles are the multiples of
    [2^e] for [e = floor (log2 q) - 52], or of [2^-1074] below the
    normal range. *)
Definition nearest (q : Q) : Q :=
  let e := Z.max (-1074) (ilog2 q - 52) in
  (inject_Z (round_half_even (q / pow2 e)) * pow2 e)%Q.

(** The finite doubles are kept by their value, a rational; the zero of
    [DFin] is [+0]. *)
Inductive double : Type :=
| DFin (v : Qc)
| DNegZero
| DInf (neg : bool)
| DNaN.

Definition dval (x : double) : Q :=
  match x with
  | DFin v => v
  | _ => 0
  end.

(** A finite double. *)
Definition dfin (x : double) : Prop :=
  match x with
  | DFin _ | DNegZero => True
  | _ => False
  end.

Definition dsign (x : double) : bool :=
  match x with
  | DFin v => negb (Qle_bool 0 v)
  | DNegZero => true
  | DInf neg => neg
  | DNaN => false
  end.

(** The sign bit is clear. *)
Definition dnn (x : double) : Prop := dsign x = false.

Definition dzero (neg : bool) : double := if neg then DNegZero else DFin (Q2Qc 0).

Definition is_zero (x : double) : bool :=
  match x with
  | DFin v => Qeq_bool v 0
  | DNegZero => true
  | _ => false
  end.

(** The double of sign [neg] nearest to the magnitude [q >= 0]; from
    [2^1024] on the rounded magnitude overflows to an infinity. *)
Definition rounded (neg : bool) (q : Q) : double :=
  let v := nearest q in
  if Qle_bool (pow2 1024) v then DInf neg
  else if Qeq_bool v 0 then dzero neg
  else DFin (Q2Qc (if neg then - v else v)).

(** The sign of a product or a quotient is the exclusive or of the
    signs; [0 * inf], [inf / inf] and [0 / 0] are [NaN]. *)
Definition dmul (x y : double) : double :=
  match x, y with
  | DNaN, _ => DNaN
  | _, DNaN => DNaN
  | DInf s, DInf s' => DInf (xorb s s')
  | DInf s, _ => if is_zero y then DNaN else DInf (xorb s (dsign y))
  | _, DInf s => if is_zero x then DNaN else DInf (xorb (dsign x) s)
  | _, _ => rounded (xorb (dsign x) (dsign y)) (Qabs (dval x) * Qabs (dval y))
  end.

Definition ddiv (x y : double) : double :=
  match x, y with
  | DNaN, _ => DNaN
  | _, DNaN => DNaN
  | DInf _, DInf _ => DNaN
  | DInf s, _ => DInf (xorb s (dsign y))
  | _, DInf s => dzero (xorb (dsign x) s)
  | _, _ =>
      if is_zero y then
        if is_zero x then DNaN else DInf (xorb (dsign x) (dsign y))
      else rounded (xorb (dsign x) (dsign y)) (Qabs (dval x) / Qabs (dval y))
  end.

(** A sum that is exactly zero is [+0], unless both terms are [-0]. *)
Definition dadd (x y : double) : double :=
  match x, y with
  | DNaN, _ => DNaN
  | _, DNaN => DNaN
  | DInf s, DInf s' => if Bool.eqb s s' then DInf s else DNaN
  | DInf s, _ => DInf s
  | _, DInf s => DInf s
  | _, _ =>
      let v := (dval x + dval y)%Q in
      if Qeq_bool v 0 then dzero (dsign x && dsign y)
      else if Qle_bool 0 v then rounded false v else rounded true (- v)
  end.

(** [x <= y]: false when either is [NaN]; the two zeros are equal. *)
Definition dleb (x y : double) : bool :=
  match x, y with
  | DNaN, _ => false
  | _, DNaN => false
  | DInf true, _ => true
  | _, DInf false => true
  | DInf false, _ => false
  | _, DInf true => false
  | _, _ => Qle_bool (dval x) (dval y)
  end.

(** An integer as a double. *)
Definition dofZ (z : Z) : double := rounded (z <? 0) (inject_Z (Z.abs z)).

(** [Math.round] and [Math.ceil]: the integers are exact in the
    rationals; a result that is zero keeps the sign of the argument. *)
Definition dinteger (f : Q -> Z) (x : double) : double :=
  match x with
  | DFin v => let z := f v in
              if z =? 0 then dzero (dsign x) else DFin (Q2Qc (inject_Z z))
  | _ => x
  end.

Definition dround : double -> double := dinteger (fun v => Qfloor (v + (1 # 2))).

Definition dceil : double -> double := dinteger Qceiling.

(** The literal [0.8] is the double nearest to four fifths. *)
Definition ieee754 : JSArith :=
  {| F := double;
     ofZ := dofZ;
     f0_8 := rounded false (4 # 5);
     fadd := dadd;
     fmul := dmul;
     fdiv := ddiv;
     Math_round := dround;
     Math_ceil := dceil;
     fleb := dleb |}.

(** The value of a double of the kernel. *)
Definition double_of_float (x : PrimFloat.float) : double :=
  match FloatOps.Prim2SF x with
  | SpecFloat.S754_zero s => dzero s
  | SpecFloat.S754_infinity s => DInf s
  | SpecFloat.S754_nan => DNaN
  | SpecFloat.S754_finite s m e =>
      DFin (Q2Qc (inject_Z (if s then Z.neg m else Z.pos m) * pow2 e))
  end.

Definition double_eqb (x y : double) : bool :=
  match x, y with
  | DFin v, DFin w => Qeq_bool v w
  | DNegZero, DNegZero => true
  | DInf s, DInf s' => Bool.eqb s s'
  | DNaN, DNaN => true
  | _, _ => false
  end.

(** Doubles of the kernel on which the two arithmetics are compared:
    zeros, infinities, [NaN], [2^53] and its neighbours, and the
    quotients of the integers from -2 to 3 by 1, 2 and 3. *)
Definition kernel_sample : list PrimFloat.float :=
  [PrimFloat.zero; PrimFloat.neg_zero; PrimFloat.infinity; PrimFloat.neg_infinity;
   PrimFloat.nan; float_of_Z (2 ^ 53); float_of_Z (2 ^ 53 - 1); float_of_Z (2 ^ 53 + 2)]
  ++ flat_map (fun a => map (fun b => PrimFloat.div (float_of_Z a) (float_of_Z b)) (seqZ 1 3))
       (seqZ (-2) 6).

(** Pairs at the two ends of the range: [3 * 2^1020], near the largest
    double, and 5 over it, among the subnormals. *)
Definition kernel_extremes : list (PrimFloat.float * PrimFloat.float) :=
  let big := Nat.iter 17 (fun x => PrimFloat.mul x (float_of_Z (2 ^ 60))) (float_of_Z 3) in
  let tiny := PrimFloat.div (float_of_Z 5) big in
  let third := PrimFloat.div (float_of_Z 1) (float_of_Z 3) in
  [(big, big); (big, tiny); (tiny, big); (tiny, tiny); (big, third); (third, big);
   (tiny, third); (third, tiny); (PrimFloat.opp big, big); (tiny, PrimFloat.opp tiny)].

Definition kernel_pairs : list (PrimFloat.float * PrimFloat.float) :=
  list_prod kernel_sample kernel_sample ++ kernel_extremes.

Definition agree2 (op : PrimFloat.float -> PrimFloat.float -> PrimFloat.float)
    (dop : double -> double -> double) : bool :=
  forallb (fun ab =>
    double_eqb (double_of_float (op ab.1 ab.2))
               (dop (double_of_float ab.1) (double_of_float ab.2)))
    kernel_pairs.

Definition agree_leb : bool :=
  forallb (fun ab =>
    Bool.eqb (PrimFloat.leb ab.1 ab.2)
             (dleb (double_of_float ab.1) (double_of_float ab.2)))
    kernel_pairs.

Definition agree1 (op : PrimFloat.float -> PrimFloat.float)
    (dop : double -> double) : bool :=
  forallb (fun a => double_eqb (double_of_float (op a)) (dop (double_of_float a)))
    (kernel_sample ++ map fst kernel_extremes).

(** The score of the grids of [n] participants whose counts sum to [S],
    for every [S], and whose number of golden slots is in [Gs]. *)
Definition scores_agree (n : Z) (Gs : list Z) : bool :=
  forallb (fun S =>
    forallb (fun G =>
      double_eqb (double_of_float (@compatibilityScore binary64 n 48 S G))
                 (@compatibilityScore ieee754 n 48 S G))
      Gs)
    (seqZ 0 (48 * n + 1)).

(** ** Reading a key back

    Not in the source: the first character of a string escaped by
    [json_escape], read back. It serves to show that different lists of
    ids are cached under different keys. *)

Definition hex_value (c : ascii) : option nat :=
  let n := nat_of_ascii c in
  if (48 <=? n)%nat && (n <=? 57)%nat then Some (n - 48)%nat
  else if (97 <=? n)%nat && (n <=? 102)%nat then Some (n - 87)%nat
  else None.

Definition unescape_front (s : string) : option (ascii * string) :=
  match s with
  | EmptyString => None
  | String c rest =>
      if Ascii.eqb c dquote then None
      else if Ascii.eqb c backslash then
        match rest with
        | EmptyString => None
        | String e rest' =>
            if Ascii.eqb e dquote then Some (dquote, rest')
            else if Ascii.eqb e backslash then Some (backslash, rest')
            else if Ascii.eqb e "b" then Some (ascii_of_nat 8, rest')
            else if Ascii.eqb e "t" then Some (ascii_of_nat 9, rest')
            else if Ascii.eqb e "n" then Some (ascii_of_nat 10, rest')
            else if Ascii.eqb e "f" then Some (ascii_of_nat 12, rest')
            else if Ascii.eqb e "r" then Some (ascii_of_nat 13, rest')
            else if Ascii.eqb e "u" then
              match rest' with
              | String _ (String _ (String h (String l rest''))) =>
                  match hex_value h, hex_value l with
                  | Some a, Some b => Some (ascii_of_nat (16 * a + b), rest'')
                  | _, _ => None
                  end
              | _ => None
              end
            else None
        end
      else Some (c, rest)
  end.

(** What follows the opening bracket of [JSON_stringify], and what
    follows an element. *)
Fixpoint json_after_element (l : list string) : string :=
  match l with
  | [] => "]"
  | x :: rest => String "," (json_quote x ++ json_after_element rest)%string
  end.

Definition json_after_bracket (l : list string) : string :=
  match l with
  | [] => "]"
  | x :: rest => (json_quote x ++ json_after_element rest)%string
  end.

(** The day strings of the platform have one length, as those of
    [toDateString] have ("Mon Nov 02 2026"). *)
Definition dates_uniform `{Platform} : Prop :=
  forall day day',
    String.length (toDateString (baseDate day))
    = String.length (toDateString (baseDate day')).

(** Every grid cached for a day of the platform and a list of
    participants has 48 slots with counts from 0 to the length of that
    list. *)
Definition cache_sound `{Platform} (c : gmap string (list Slot)) : Prop :=
  forall day ps g,
    c !! cacheKey (baseDate day) ps = Some g ->
    length g = 48%nat /\ grid_bounded (length ps) g.

(** ** Names for the tests of the grid builder

    Not in the source: the entry that the builder pushes for a
    participant, and its lunch test. *)
Section GridTests.
Context {P : Platform}.

(** The entry pushed for [p] in slot [i], if any. *)
Definition entryAt (excludeLunch : bool) (d : JSDate) (i : nat)
    (p : Participant) : option SlotEntry :=
  mkSlotEntry (p_name p) (p_color p) <$> availability excludeLunch d p i.

(** [localMinutes >= lunchStart && localMinutes < lunchEnd] at slot [i]. *)
Definition atLunch (d : JSDate) (i : nat) (p : Participant) : bool :=
  match localClock (p_timezone p) (utcInstant d (Z.of_nat i * 30)) with
  | None => false
  | Some (localHour, localMin) =>
      (12 * 60 <=? localHour * 60 + localMin) && (localHour * 60 + localMin <? 13 * 60)
  end.
End GridTests.

(** [maxScore], as the suggestion cards and the conflict check compute
    it: [slotsNeeded * participants.length + 2 * totalRequired]. *)
Definition maxScore (st : State) : Z :=
  slotsNeeded st * Z.of_nat (length (st_participants st))
  + 2 * Z.of_nat (length (List.filter isRequired (st_participants st))).

(** ** Undo and redo

    The [history] object: two stacks of actions, the newest last, and
    the bound [maxSize]. Its methods do not look into an action. *)
Section HistoryObject.
Context {A : Type}.

Record History : Type := mkHistory {
  past : list A;
  future : list A
}.

Definition maxSize : nat := 50.

(** [Array.prototype.pop]: the last element and the rest. *)
Definition Array_pop (l : list A) : option (A * list A) :=
  match last l with
  | None => None
  | Some x => Some (x, take (length l - 1) l)
  end.

(** [push(action)]: [shift] drops the oldest action. *)
Definition history_push (action : A) (h : History) : History :=
  let past1 := past h ++ [action] in
  {| past := if (maxSize <? length past1)%nat then drop 1 past1 else past1;
     future := [] |}.

(** [undo()]; [None] is the [null] returned on an empty [past]. *)
Definition history_undo (h : History) : option A * History :=
  match Array_pop (past h) with
  | None => (None, h)
  | Some (action, past1) =>
      (Some action, {| past := past1; future := future h ++ [action] |})
  end.

Definition history_redo (h : History) : option A * History :=
  match Array_pop (future h) with
  | None => (None, h)
  | Some (action, future1) =>
      (Some action, {| past := past h ++ [action]; future := future1 |})
  end.

(** A call of one of the three methods. *)
Inductive HistoryCall : Type :=
| CallPush (action : A)
| CallUndo
| CallRedo.

Definition history_call (h : History) (c : HistoryCall) : History :=
  match c with
  | CallPush action => history_push action h
  | CallUndo => (history_undo h).2
  | CallRedo => (history_redo h).2
  end.
End HistoryObject.
Arguments History : clear implicits.
Arguments HistoryCall : clear implicits.

(** ** Participants and their actions

    The functions below are modelled up to their call of [render], which
    displays the state and fills the cache. An action holds the content
    of its participant: [addParticipant], [removeParticipant] and
    [saveEdit] push copies. The redo of an addition and the undo of a
    removal put the object of the action itself into the list; it has
    the content of the copy as long as no edit in place has touched it,
    which is the case when an action is undone or redone right after it
    was recorded. *)
Inductive Action : Type :=
| ActionAdd (participant : Participant)
| ActionRemove (participant : Participant) (index : nat)
| ActionEdit (id : string) (oldParticipant newParticipant : Participant).

Record App : Type := mkApp {
  app_state : State;
  app_history : History Action
}.

Definition colors : list string :=
  ["#14b8a6"; "#06b6d4"; "#8b5cf6"; "#ec4899"; "#f59e0b";
   "#10b981"; "#3b82f6"; "#6366f1"; "#ef4444"; "#84cc16"]%string.

(** [colors[index % colors.length]] on an index that is a length. *)
Definition generateColor (index : nat) : string :=
  nth (index mod length colors) colors "#14b8a6"%string.

(** [value || fallback] on strings: the empty string is falsy. *)
Definition orDefault (value fallback : string) : string :=
  if nonempty value then value else fallback.

(** Names with characters outside ASCII: [n] times the letter e with an
    acute accent (U+00E9, two bytes, one UTF-16 unit), and [n] times
    the globe (U+1F30D, four bytes, two units). *)
Definition acutes (n : nat) : string :=
  Nat.iter n (String (ascii_of_nat 195) ∘ String (ascii_of_nat 169)) EmptyString.

Definition globes (n : nat) : string :=
  Nat.iter n (String (ascii_of_nat 240) ∘ String (ascii_of_nat 159)
              ∘ String (ascii_of_nat 140) ∘ String (ascii_of_nat 141)) EmptyString.

(** [addParticipant]: [name] is the trimmed value of the name field,
    [id] the string that [uid()] returns. *)
Definition addParticipant (id name tz startInput endInput priority : string)
    (app : App) : App :=
  let st := app_state app in
  let start := orDefault startInput "09:00" in
  let end_ := orDefault endInput "17:00" in
  if negb (validateParticipant name tz start end_) then app
  else if (20 <=? length (st_participants st))%nat then app
  else
    let participant :=
      {| p_id := id; p_name := name; p_timezone := tz;
         p_start := start; p_end := end_;
         p_priority := Some priority;
         p_color := generateColor (length (st_participants st)) |} in
    {| app_state := set_participants (st_participants st ++ [participant]) st;
       app_history := history_push (ActionAdd participant) (app_history app) |}.

(** [p => p.id !== id] *)
Definition otherThan (id : string) (p : Participant) : bool :=
  negb (bool_decide (p_id p = id)).

(** [removeParticipant]: [find] and [findIndex] stop at the first
    participant with the id, [filter] removes all of them. *)
Definition removeParticipant (id : string) (app : App) : App :=
  let st := app_state app in
  match list_find (fun p => p_id p = id) (st_participants st) with
  | None => app
  | Some (index, participant) =>
      {| app_state :=
           set_participants (List.filter (otherThan id) (st_participants st)) st;
         app_history :=
           history_push (ActionRemove participant index) (app_history app) |}
  end.

(** [saveEdit] with the history: the action holds the participant found,
    before and after the assignments. *)
Definition saveEdit_recorded (currentEditId name timezone start end_ priority : string)
    (app : App) : App :=
  let st := app_state app in
  if negb (nonempty currentEditId) then app
  else
    match list_find (fun p => p_id p = currentEditId) (st_participants st) with
    | None => app
    | Some (_, participant) =>
        if negb (validateParticipant name timezone start end_) then app
        else
          let oldParticipant := participant in
          let newParticipant := editFields name timezone start end_ priority participant in
          {| app_state :=
               set_participants
                 (updateFirst currentEditId
                    (editFields name timezone start end_ priority)
                    (st_participants st)) st;
             app_history :=
               history_push (ActionEdit currentEditId oldParticipant newParticipant)
                            (app_history app) |}
    end.

(** [Object.assign(p, source)]: the fields of [source] overwrite those
    of [p]; a field that [source] lacks keeps the value it has in [p]. *)
Definition Object_assign (p source : Participant) : Participant :=
  {| p_id := p_id source;
     p_name := p_name source;
     p_timezone := p_timezone source;
     p_start := p_start source;
     p_end := p_end source;
     p_priority :=
       match p_priority source with
       | Some priority => Some priority
       | None => p_priority p
       end;
     p_color := p_color source |}.

(** [splice(index, 0, x)] and [splice(index, 1)] on an index that
    [findIndex] has returned. *)
Definition splice_in {X : Type} (index : nat) (x : X) (l : list X) : list X :=
  take index l ++ x :: drop index l.

Definition splice_out {X : Type} (index : nat) (l : list X) : list X :=
  take index l ++ drop (S index) l.

(** The [switch] of [performUndo] and that of [performRedo]. *)
Definition undoAction (action : Action) (ps : list Participant) : list Participant :=
  match action with
  | ActionAdd participant => List.filter (otherThan (p_id participant)) ps
  | ActionRemove participant index => splice_in index participant ps
  | ActionEdit id oldParticipant _ =>
      updateFirst id (fun p => Object_assign p oldParticipant) ps
  end.

Definition redoAction (action : Action) (ps : list Participant) : list Participant :=
  match action with
  | ActionAdd participant => ps ++ [participant]
  | ActionRemove _ index => splice_out index ps
  | ActionEdit id _ newParticipant =>
      updateFirst id (fun p => Object_assign p newParticipant) ps
  end.

Definition performUndo (app : App) : App :=
  match history_undo (app_history app) with
  | (None, _) => app
  | (Some action, h) =>
      {| app_state :=
           set_participants (undoAction action (st_participants (app_state app)))
                            (app_state app);
         app_history := h |}
  end.

Definition performRedo (app : App) : App :=
  match history_redo (app_history app) with
  | (None, _) => app
  | (Some action, h) =>
      {| app_state :=
           set_participants (redoAction action (st_participants (app_state app)))
                            (app_state app);
         app_history := h |}
  end.

(** A user's command on the participants. *)
Inductive Command : Type :=
| DoAdd (id name tz startInput endInput priority : string)
| DoRemove (id : string)
| DoEdit (currentEditId name timezone start end_ priority : string)
| DoUndo
| DoRedo.

Definition perform (app : App) (c : Command) : App :=
  match c with
  | DoAdd id name tz startInput endInput priority =>
      addParticipant id name tz startInput endInput priority app
  | DoRemove id => removeParticipant id app
  | DoEdit currentEditId name timezone start end_ priority =>
      saveEdit_recorded currentEditId name timezone start end_ priority app
  | DoUndo => performUndo app
  | DoRedo => performRedo app
  end.

Definition newApp (st : State) : App :=
  {| app_state := st; app_history := {| past := []; future := [] |} |}.

(** ** Formatting of times

    [String(n)] on the numbers of the time utilities is the decimal
    numeral of an integer, or ["NaN"]. An array element that is missing
    is [undefined]: [None] below, ["undefined"] as a string and [NaN] in
    arithmetic and comparisons. *)
Definition String_ (n : option jsnum) : string :=
  match n with
  | Some (JNum z) => pretty z
  | Some JNaN => "NaN"
  | None => "undefined"
  end.

Definition toNumber (n : option jsnum) : jsnum := default JNaN n.

(** [s.padStart(n, c)] for a filler of one character. *)
Definition padStart (n : nat) (c : ascii) (s : string) : string :=
  Nat.iter (n - String.length s) (String c) s.

Definition pad (n : option jsnum) : string := padStart 2 "0" (String_ n).

(** [a % b]: the remainder has the sign of the dividend. *)
Definition js_rem (a b : jsnum) : jsnum :=
  match a, b with
  | JNum x, JNum y => if y =? 0 then JNaN else JNum (Z.rem x y)
  | _, _ => JNaN
  end.

(** [a || b] on numbers: [0] and [NaN] are falsy. *)
Definition js_or (a b : jsnum) : jsnum :=
  match a with
  | JNum 0 => b
  | JNaN => b
  | JNum _ => a
  end.

Definition formatTime (timeStr format : string) : string :=
  let parts := map Number_ (str_split ":" timeStr) in
  let h := parts !! 0%nat in
  let m := parts !! 1%nat in
  if String.eqb format "24h" then (pad h ++ ":" ++ pad m)%string
  else
    let period := if js_ge (toNumber h) (JNum 12) then "PM"%string else "AM"%string in
    let hour := js_or (js_rem (toNumber h) (JNum 12)) (JNum 12) in
    (String_ (Some hour) ++ ":" ++ pad m ++ " " ++ period)%string.

(** ** Escaping of HTML

    A string is read as its UTF-8 bytes; the five characters replaced
    are ASCII, and an ASCII byte is no part of the encoding of another
    character. *)

(** [s.replace(/c/g, r)] for a pattern that is one character. *)
Fixpoint replaceAll (c : ascii) (r : string) (s : string) : string :=
  match s with
  | EmptyString => EmptyString
  | String x rest =>
      if Ascii.eqb x c then (r ++ replaceAll c r rest)%string
      else String x (replaceAll c r rest)
  end.

Definition escapeHtml (text : string) : string :=
  if negb (nonempty text) then EmptyString
  else
    replaceAll "'" "&#039;"
      (replaceAll dquote "&quot;"
         (replaceAll ">" "&gt;"
            (replaceAll "<" "&lt;"
               (replaceAll "&" "&amp;" text)))).

(** What the five replacements make of one character, and of a text
    read once from left to right. Not in the source: [escapeHtml] is
    compared with it. *)
Definition escapeChar (x : ascii) : string :=
  if Ascii.eqb x "&" then "&amp;"
  else if Ascii.eqb x "<" then "&lt;"
  else if Ascii.eqb x ">" then "&gt;"
  else if Ascii.eqb x dquote then "&quot;"
  else if Ascii.eqb x "'" then "&#039;"
  else String x EmptyString.

Fixpoint escapeEach (s : string) : string :=
  match s with
  | EmptyString => EmptyString
  | String x rest => (escapeChar x ++ escapeEach rest)%string
  end.

(** Whether the character occurs in the string. *)
Fixpoint occurs (c : ascii) (s : string) : bool :=
  match s with
  | EmptyString => false
  | String x rest => Ascii.eqb x c || occurs c rest
  end.

(** * Time utilities *)

Lemma js_le_num (x y : Z) : js_le (JNum x) (JNum y) = true <-> x <= y.
Proof. simpl. apply Z.leb_le. Qed.

Lemma js_lt_num (x y : Z) : js_lt (JNum x) (JNum y) = true <-> x < y.
Proof. simpl. apply Z.ltb_lt. Qed.

Lemma isInRange_num (minute start end_ : Z) :
  isInRange (JNum minute) (JNum start) (JNum end_) = true <->
  (start <= end_ /\ start <= minute < end_)
  \/ (end_ < start /\ (start <= minute \/ minute < end_)).
Proof.
  unfold isInRange, js_ge. simpl.
  destruct (Z.leb_spec start end_);
    rewrite ?andb_true_iff, ?orb_true_iff, Z.leb_le, Z.ltb_lt; lia.
Qed.

(** C1. For minute-of-day integers in [0,1439], [isInRange] is true
    exactly when [start <= minute < end] if [start <= end], and exactly
    when [minute >= start] or [minute < end] if [start > end]. *)
Theorem isInRange_window (minute start end_ : Z) :
  0 <= minute <= 1439 -> 0 <= start <= 1439 -> 0 <= end_ <= 1439 ->
  (start <= end_ ->
     (isInRange (JNum minute) (JNum start) (JNum end_) = true
      <-> start <= minute < end_))
  /\ (start > end_ ->
     (isInRange (JNum minute) (JNum start) (JNum end_) = true
      <-> (minute >= start \/ minute < end_))).
Proof.
  intros _ _ _. rewrite isInRange_num. split; intros; lia.
Qed.

(** The window 22:00-06:00 holds 22:30 and not 07:00. *)
Lemma isInRange_window_witness :
  isInRange (JNum 1350) (JNum 1320) (JNum 360) = true
  /\ isInRange (JNum 420) (JNum 1320) (JNum 360) <> true.
Proof.
  split.
  - apply (isInRange_window 1350 1320 360); lia.
  - intros E. apply (isInRange_window 420 1320 360) in E; lia.
Defined.

Lemma str_split_no_colon (s : string) :
  is_digits s = true -> str_split ":" s = [s].
Proof.
  induction s as [|c s IH]; simpl; [done|].
  intros [Hc Hs]%andb_true_iff. rewrite (IH Hs).
  destruct (Ascii.eqb_spec c ":"); [subst; discriminate|done].
Qed.

Lemma str_split_digits_colon (h rest : string) :
  is_digits h = true ->
  str_split ":" (h ++ String ":" rest) = h :: str_split ":" rest.
Proof.
  induction h as [|c h IH]; simpl; [done|].
  intros [Hc Hs]%andb_true_iff. rewrite (IH Hs).
  destruct (Ascii.eqb_spec c ":"); [subst; discriminate|done].
Qed.

Lemma parseTime_fields (h m : string) :
  is_digits h = true -> is_digits m = true ->
  parseTime (h ++ ":" ++ m) = JNum (digits_value 0 h * 60 + digits_value 0 m).
Proof.
  intros Hh Hm. unfold parseTime.
  change (h ++ ":" ++ m)%string with (h ++ String ":" m)%string.
  rewrite str_split_digits_colon, str_split_no_colon by done.
  simpl. unfold Number_. by rewrite Hh, Hm.
Qed.

(** C6, the claim as stated fails: "25:00" is not a time of day, and
    [parseTime] returns 1500 for it instead of failing. *)
Lemma parseTime_25_00_not_rejected :
  parseLocalTime_spec "25:00" = InvalidFormat /\ parseTime "25:00" = JNum 1500.
Proof. split; reflexivity. Qed.

(** C6, amended. [parseTime] checks neither format nor range and has no
    failure: on a string that the specified parser accepts it returns the
    same minute of day, and on any two runs of digits around a colon it
    returns sixty times the first plus the second (runs of at most 14
    digits keep the arithmetic below [2^53], where it is exact). *)
Theorem parseTime_no_validation :
  (forall s v, parseLocalTime_spec s = Parsed v -> parseTime s = v)
  /\ (forall h m,
        is_digits h = true -> is_digits m = true ->
        (String.length h <= 14)%nat -> (String.length m <= 14)%nat ->
        parseTime (h ++ ":" ++ m)
        = JNum (digits_value 0 h * 60 + digits_value 0 m)).
Proof.
  split.
  - intros s v. unfold parseLocalTime_spec, parseTime.
    destruct (str_split ":" s) as [|h [|m [|]]]; try discriminate.
    destruct (_ && _) eqn:E; [|discriminate].
    repeat (apply andb_true_iff in E as [E ?]).
    intros [= <-]. simpl. unfold Number_.
    by repeat match goal with H : is_digits _ = true |- _ => rewrite H; clear H end.
  - intros h m Hh Hm _ _. by apply parseTime_fields.
Qed.

Lemma parseTime_no_validation_witness :
  parseTime "09:30" = JNum 570 /\ parseTime "25:00" = JNum 1500.
Proof.
  split.
  - apply (proj1 parseTime_no_validation "09:30"). reflexivity.
  - apply (proj2 parseTime_no_validation "25" "00"); simpl; (reflexivity || lia).
Defined.

(** * The slot grid *)

Section GridFacts.
Context {P : Platform}.
Implicit Types (slots : list Slot) (p : Participant) (d : JSDate).

Lemma visitSlot_alter excl d p slots i :
  visitSlot excl d p slots i
  = match availability excl d p i with
    | Some c => alter (markAvailable p c) i slots
    | None => slots
    end.
Proof.
  unfold visitSlot, availability.
  destruct (localClock _ _) as [[h m]|]; [|done].
  destruct (_ && _ && _); [done|]. by destruct (isInRange _ _ _).
Qed.

Lemma visitSlot_lookup excl d p slots i j :
  visitSlot excl d p slots i !! j
  = if decide (i = j) then (fun s => applyAvail excl d i s p) <$> slots !! j
    else slots !! j.
Proof.
  rewrite visitSlot_alter. unfold applyAvail.
  destruct (availability excl d p i) as [c|].
  - destruct (decide (i = j)) as [->|Hne].
    + by rewrite list_lookup_alter_eq.
    + by rewrite list_lookup_alter_ne.
  - destruct (decide (i = j)); [|done]. by destruct (slots !! j).
Qed.

(** The loop over the slot indices [a, a + n) changes exactly those
    slots, each once. *)
Lemma visitSlots_lookup excl d p n : forall a slots j,
  foldl (visitSlot excl d p) slots (seq a n) !! j
  = if decide (a <= j < a + n)%nat
    then (fun s => applyAvail excl d j s p) <$> slots !! j
    else slots !! j.
Proof.
  induction n as [|n IH]; intros a slots j; simpl.
  - destruct (decide _); [lia|done].
  - rewrite IH, visitSlot_lookup.
    destruct (decide (a = j)) as [->|Hne].
    + rewrite decide_False by lia. rewrite decide_True by lia. done.
    + destruct (decide (S a <= j < S a + n)%nat);
        [rewrite decide_True by lia | rewrite decide_False by lia]; done.
Qed.

Lemma visitParticipant_lookup excl d p slots j :
  (length slots <= 48)%nat ->
  visitParticipant excl d slots p !! j
  = (fun s => applyAvail excl d j s p) <$> slots !! j.
Proof.
  intros Hlen. unfold visitParticipant. rewrite visitSlots_lookup.
  destruct (decide _) as [|Hout]; [done|].
  rewrite (lookup_ge_None_2 slots j) by lia. done.
Qed.

Lemma length_visitSlot excl d p slots i :
  length (visitSlot excl d p slots i) = length slots.
Proof.
  rewrite visitSlot_alter. destruct (availability _ _ _ _); [|done].
  apply length_alter.
Qed.

Lemma length_visitParticipant excl d p slots :
  length (visitParticipant excl d slots p) = length slots.
Proof.
  unfold visitParticipant. generalize (seq 0 48). intros l.
  revert slots. induction l as [|i l IH]; intros slots; simpl; [done|].
  by rewrite IH, length_visitSlot.
Qed.

Lemma visitParticipants_spec excl d ps : forall slots j,
  (length slots <= 48)%nat ->
  length (foldl (visitParticipant excl d) slots ps) = length slots
  /\ foldl (visitParticipant excl d) slots ps !! j
     = (fun s => foldl (applyAvail excl d j) s ps) <$> slots !! j.
Proof.
  induction ps as [|p ps IH]; intros slots j Hlen; simpl.
  - split; [done|]. by destruct (slots !! j).
  - destruct (IH (visitParticipant excl d slots p) j) as [Hl Hj].
    { by rewrite length_visitParticipant. }
    rewrite Hl, Hj, length_visitParticipant, visitParticipant_lookup by done.
    split; [done|]. by destruct (slots !! j).
Qed.

Lemma length_buildSlots st d : length (buildSlots st d) = 48%nat.
Proof.
  unfold buildSlots.
  destruct (visitParticipants_spec (st_excludeLunch st) d (st_participants st)
              (replicate 48 emptySlot) 0) as [-> _];
    rewrite length_replicate; done.
Qed.

(** Each slot of a computed grid is what the participants, visited in
    order, make of the empty slot. *)
Lemma buildSlots_lookup st d j :
  (j < 48)%nat ->
  buildSlots st d !! j
  = Some (slotAt (st_excludeLunch st) d (st_participants st) j).
Proof.
  intros Hj. unfold buildSlots, slotAt.
  destruct (visitParticipants_spec (st_excludeLunch st) d (st_participants st)
              (replicate 48 emptySlot) j) as [_ ->].
  { by rewrite length_replicate. }
  by rewrite lookup_replicate_2.
Qed.

Lemma markAvailable_ok p c s : slot_ok s -> slot_ok (markAvailable p c s).
Proof.
  intros [Hc Hf]. split; simpl.
  - rewrite length_app. simpl. lia.
  - rewrite existsb_app. simpl. rewrite <- Hf.
    destruct c, (slot_hasConflict s); done.
Qed.

Lemma slotAt_ok excl d ps j : slot_ok (slotAt excl d ps j).
Proof.
  unfold slotAt. assert (Hs : slot_ok emptySlot) by done.
  revert Hs. generalize emptySlot. induction ps as [|p ps IH]; intros s Hs; simpl; [done|].
  apply IH. unfold applyAvail. destruct (availability _ _ _ _); [|done].
  by apply markAvailable_ok.
Qed.

Lemma slotAt_count_bounds excl d ps j :
  0 <= slot_count (slotAt excl d ps j) <= Z.of_nat (length ps).
Proof.
  unfold slotAt.
  assert (Hs : 0 <= slot_count emptySlot <= 0) by done.
  revert Hs. generalize emptySlot.
  enough (forall k s, 0 <= slot_count s <= k ->
            0 <= slot_count (foldl (applyAvail excl d j) s ps)
            <= k + Z.of_nat (length ps)) as H.
  { intros s Hs. apply (H 0 s Hs). }
  induction ps as [|p ps IH]; intros k s Hs; simpl; [lia|].
  assert (0 <= slot_count (applyAvail excl d j s p) <= k + 1) as Hs'.
  { unfold applyAvail. destruct (availability _ _ _ _); simpl; lia. }
  specialize (IH (k + 1) _ Hs'). lia.
Qed.

Lemma buildSlots_ok st d : grid_ok (buildSlots st d).
Proof.
  split; [apply length_buildSlots|].
  apply Forall_lookup_2. intros j s Hj.
  assert (j < 48)%nat as Hlt.
  { rewrite <- (length_buildSlots st d). eapply lookup_lt_Some, Hj. }
  rewrite buildSlots_lookup in Hj by done. injection Hj as <-.
  apply slotAt_ok.
Qed.

Lemma buildSlots_bounded st d :
  grid_bounded (length (st_participants st)) (buildSlots st d).
Proof.
  apply Forall_lookup_2. intros j s Hj.
  assert (j < 48)%nat as Hlt.
  { rewrite <- (length_buildSlots st d). eapply lookup_lt_Some, Hj. }
  rewrite buildSlots_lookup in Hj by done. injection Hj as <-.
  apply slotAt_count_bounds.
Qed.

(** ** The cache *)

Lemma calculateSlotAvailability_hit st d slots :
  st_cache st !! cacheKey d (st_participants st) = Some slots ->
  calculateSlotAvailability st d = (slots, st).
Proof. intros H. unfold calculateSlotAvailability. by rewrite H. Qed.

Lemma calculateSlotAvailability_miss st d :
  st_cache st !! cacheKey d (st_participants st) = None ->
  calculateSlotAvailability st d
  = (buildSlots st d,
     set_cache (<[cacheKey d (st_participants st) := buildSlots st d]> (st_cache st)) st).
Proof. intros H. unfold calculateSlotAvailability. by rewrite H. Qed.

(** Only the cache of the state changes. *)
Lemma calculateSlotAvailability_state st d :
  (calculateSlotAvailability st d).2
  = set_cache (st_cache (calculateSlotAvailability st d).2) st.
Proof.
  unfold calculateSlotAvailability.
  destruct (st_cache st !! _); simpl; [by destruct st|done].
Qed.

Lemma calculateSlotAvailability_wf st d :
  cache_wf (st_cache st) ->
  length (calculateSlotAvailability st d).1 = 48%nat
  /\ cache_wf (st_cache (calculateSlotAvailability st d).2).
Proof.
  intros Hwf. unfold calculateSlotAvailability.
  destruct (st_cache st !! _) as [g|] eqn:E; simpl.
  - split; [by eapply Hwf|done].
  - split; [apply length_buildSlots|].
    intros k g. destruct (decide (cacheKey d (st_participants st) = k)) as [->|Hne].
    + rewrite lookup_insert_eq. intros [= <-]. apply length_buildSlots.
    + rewrite lookup_insert_ne by done. apply Hwf.
Qed.
End GridFacts.

(** C10. Starting from a cache whose grids have 48 slots with [count]
    equal to the length of [participants] and [hasConflict] set exactly
    when an entry has [isConflict], the grid that
    [calculateSlotAvailability] returns has 48 such slots, and the cache
    it leaves keeps the property. *)
Theorem calculateSlotAvailability_slots_ok `{Platform} (st : State) (d : JSDate) :
  cache_ok (st_cache st) ->
  let '(slots, st') := calculateSlotAvailability st d in
  length slots = 48%nat
  /\ (forall i s, slots !! i = Some s ->
        slot_count s = Z.of_nat (length (slot_participants s))
        /\ (slot_hasConflict s = true
            <-> exists e, e ∈ slot_participants s /\ e_isConflict e = true))
  /\ cache_ok (st_cache st').
Proof.
  intros Hok. unfold calculateSlotAvailability.
  assert (Hslot : forall g, grid_ok g ->
            length g = 48%nat
            /\ forall i s, g !! i = Some s ->
                 slot_count s = Z.of_nat (length (slot_participants s))
                 /\ (slot_hasConflict s = true
                     <-> exists e, e ∈ slot_participants s /\ e_isConflict e = true)).
  { intros g [Hlen Hall]. split; [done|]. intros i s Hi.
    destruct (Forall_lookup_1 _ _ _ _ Hall Hi) as [Hc Hf]. split; [done|].
    rewrite Hf, existsb_exists. split.
    - intros (e & He & Hce). exists e. by rewrite list_elem_of_In.
    - intros (e & He & Hce). exists e. by rewrite <- list_elem_of_In. }
  destruct (st_cache st !! _) as [g|] eqn:E.
  - destruct (Hslot g (Hok _ _ E)) as [Hlen Hs]. done.
  - destruct (Hslot _ (buildSlots_ok st d)) as [Hlen Hs].
    split; [done|]. split; [done|]. simpl.
    intros k g. destruct (decide (cacheKey d (st_participants st) = k)) as [->|Hne].
    + rewrite lookup_insert_eq. intros [= <-]. apply buildSlots_ok.
    + rewrite lookup_insert_ne by done. apply Hok.
Qed.

Lemma calculateSlotAvailability_slots_ok_witness :
  let '(slots, st') := @calculateSlotAvailability ex_platform ex_team (@baseDate ex_platform 0) in
  length slots = 48%nat
  /\ (forall i s, slots !! i = Some s ->
        slot_count s = Z.of_nat (length (slot_participants s))
        /\ (slot_hasConflict s = true
            <-> exists e, e ∈ slot_participants s /\ e_isConflict e = true))
  /\ cache_ok (st_cache st').
Proof.
  apply (@calculateSlotAvailability_slots_ok ex_platform ex_team (@baseDate ex_platform 0)).
  intros k g Hk. simpl in Hk. by rewrite lookup_empty in Hk.
Defined.

(** * The ranker *)

Section WindowFacts.
Implicit Types (slots w : list Slot) (set : list string).

Lemma sumCounts_from (a : Z) w :
  foldl (fun sum slot => sum + slot_count slot) a w = a + sumCounts w.
Proof.
  unfold sumCounts. revert a. induction w as [|s w IH]; intros a; simpl; [lia|].
  rewrite (IH (a + slot_count s)), (IH (0 + slot_count s)). lia.
Qed.

Lemma sumCounts_cons s w : sumCounts (s :: w) = slot_count s + sumCounts w.
Proof. unfold sumCounts at 1. simpl. by rewrite sumCounts_from. Qed.

Lemma set_add_elem x y set : x ∈ set_add y set <-> x ∈ set \/ x = y.
Proof.
  unfold set_add, set_has. case_bool_decide.
  - split; [by left|]. by intros [ | -> ].
  - rewrite elem_of_app, list_elem_of_singleton. done.
Qed.

Lemma set_add_NoDup y set : NoDup set -> NoDup (set_add y set).
Proof.
  unfold set_add, set_has. intros Hnd. case_bool_decide; [done|].
  apply NoDup_app. split; [done|]. split.
  - intros x Hx ->%list_elem_of_singleton. done.
  - apply NoDup_singleton.
Qed.

Lemma namedIn_elem x s :
  namedIn x s = true <-> exists e, e ∈ slot_participants s /\ e_name e = x.
Proof.
  unfold namedIn. rewrite existsb_exists. split.
  - intros (e & He & Heq%String.eqb_eq). exists e. by rewrite list_elem_of_In.
  - intros (e & He & Heq). exists e. rewrite <- list_elem_of_In.
    split; [done|]. by apply String.eqb_eq.
Qed.

Lemma addNames_elem x (es : list SlotEntry) : forall set,
  x ∈ foldl (fun set e => set_add (e_name e) set) set es
  <-> x ∈ set \/ exists e, e ∈ es /\ e_name e = x.
Proof.
  induction es as [|e es IH]; intros set; simpl.
  - split; [by left|]. intros [|(e & He & _)]; [done|]. by apply elem_of_nil in He.
  - rewrite IH, set_add_elem. split.
    + intros [[ | -> ]|(e' & He' & Heq)].
      * by left.
      * right. exists e. split; [left|done].
      * right. exists e'. split; [by right|done].
    + intros [|(e' & [->|He']%elem_of_cons & Heq)].
      * by left; left.
      * by left; right.
      * right. by exists e'.
Qed.

Lemma addNames_NoDup (es : list SlotEntry) : forall set,
  NoDup set -> NoDup (foldl (fun set e => set_add (e_name e) set) set es).
Proof.
  induction es as [|e es IH]; intros set Hnd; simpl; [done|].
  by apply IH, set_add_NoDup.
Qed.

Lemma presentInSome_elem x w :
  presentInSome x w = true
  <-> exists s e, s ∈ w /\ e ∈ slot_participants s /\ e_name e = x.
Proof.
  unfold presentInSome. rewrite existsb_exists. split.
  - intros (s & Hs & (e & He & Heq)%namedIn_elem).
    exists s, e. by rewrite list_elem_of_In.
  - intros (s & e & Hs & He & Heq). exists s. rewrite <- list_elem_of_In.
    split; [done|]. apply namedIn_elem. by exists e.
Qed.

(** The loop over [j], once the slots are at hand: the counts are
    summed and the names united. *)
Lemma addSlots_spec w : forall (acc : Z * list string),
  (foldl addSlotToWindow acc w).1 = acc.1 + sumCounts w
  /\ (forall x, x ∈ (foldl addSlotToWindow acc w).2
                <-> x ∈ acc.2 \/ presentInSome x w = true)
  /\ (NoDup acc.2 -> NoDup (foldl addSlotToWindow acc w).2).
Proof.
  induction w as [|s w IH]; intros acc; simpl.
  - split; [unfold sumCounts; simpl; lia|]. split; [|done].
    intros x. split; [by left|]. by intros [|?].
  - destruct (IH (addSlotToWindow acc s)) as (H1 & H2 & H3).
    rewrite H1, sumCounts_cons. simpl. split; [lia|]. split.
    + intros x. rewrite H2. simpl. rewrite addNames_elem, orb_true_iff, namedIn_elem.
      tauto.
    + intros Hnd. apply H3. simpl. by apply addNames_NoDup.
Qed.

Lemma windowSteps_spec slots i n : forall a acc,
  (i + a + n <= length slots)%nat ->
  foldl (windowStep slots i) (Some acc) (seq a n)
  = Some (foldl addSlotToWindow acc (take n (drop (i + a) slots))).
Proof.
  induction n as [|n IH]; intros a acc Hlen; simpl; [done|].
  destruct (lookup_lt_is_Some_2 slots (i + a)) as [s Hs]; [lia|].
  rewrite Hs, IH by lia.
  rewrite (drop_S _ _ _ Hs). simpl. by rewrite Nat.add_succ_r.
Qed.

Lemma scanWindow_spec slots i sn :
  0 <= sn -> Z.of_nat i + sn <= Z.of_nat (length slots) ->
  scanWindow slots i sn
  = Some (foldl addSlotToWindow (0, []) (windowOf slots i sn)).
Proof.
  intros Hsn Hlen. unfold scanWindow, windowOf.
  rewrite windowSteps_spec by lia. by rewrite Nat.add_0_r.
Qed.

Lemma scanWindow_nonpositive slots i sn :
  sn <= 0 -> scanWindow slots i sn = Some (0, []).
Proof.
  intros Hsn. unfold scanWindow. by replace (Z.to_nat sn) with 0%nat by lia.
Qed.

Lemma requiredScore_count ps set :
  requiredScore ps set
  = 2 * Z.of_nat (length (List.filter
          (fun p => isRequired p && set_has (p_name p) set) ps)).
Proof.
  unfold requiredScore.
  enough (forall r, foldl (fun r p =>
            if isRequired p && set_has (p_name p) set then r + 2 else r) r ps
          = r + 2 * Z.of_nat (length (List.filter
              (fun p => isRequired p && set_has (p_name p) set) ps))) as H.
  { by rewrite H. }
  induction ps as [|p ps IH]; intros r; simpl; [lia|].
  rewrite IH. destruct (isRequired p && set_has (p_name p) set); simpl; lia.
Qed.

Lemma filter_ext_length {A} (f g : A -> bool) (l : list A) :
  (forall x, f x = g x) -> length (List.filter f l) = length (List.filter g l).
Proof.
  intros Hfg. induction l as [|x l IH]; simpl; [done|].
  rewrite Hfg. destruct (g x); simpl; by rewrite IH.
Qed.

(** What [scanWindow] returns for a window inside the grid. *)
Lemma scanWindow_score slots i sn ps score0 set :
  0 <= sn -> Z.of_nat i + sn <= Z.of_nat (length slots) ->
  scanWindow slots i sn = Some (score0, set) ->
  score0 + requiredScore ps set
    = windowScore presentInSome ps (windowOf slots i sn)
  /\ (forall x, x ∈ set <-> presentInSome x (windowOf slots i sn) = true)
  /\ NoDup set.
Proof.
  intros Hsn Hlen. rewrite scanWindow_spec by done. intros [= H].
  destruct (addSlots_spec (windowOf slots i sn) (0, [])) as (Hs & Hm & Hnd).
  rewrite H in Hs, Hm, Hnd. simpl in *.
  assert (Hmem : forall x, x ∈ set <-> presentInSome x (windowOf slots i sn) = true).
  { intros x. rewrite Hm. split; [|by right].
    intros [Hx|]; [|done]. by apply elem_of_nil in Hx. }
  split; [|split; [done|apply Hnd, NoDup_nil_2]].
  unfold windowScore. rewrite Hs, requiredScore_count. f_equal. f_equal. f_equal.
  apply filter_ext_length. intros p. f_equal.
  unfold set_has. specialize (Hmem (p_name p)).
  destruct (presentInSome _ _); case_bool_decide; intuition congruence.
Qed.
End WindowFacts.

Section SortFacts.
Context {A : Type} (neg : A -> A -> bool).

Lemma sort_insert_Permutation x l : sort_insert neg x l ≡ₚ x :: l.
Proof.
  induction l as [|y l IH]; simpl; [done|].
  destruct (neg y x); [|done]. rewrite IH. apply Permutation_swap.
Qed.

Lemma Array_sort_Permutation l : Array_sort neg l ≡ₚ l.
Proof.
  unfold Array_sort. induction l as [|x l IH]; simpl; [done|].
  by rewrite sort_insert_Permutation, IH.
Qed.

Lemma slice0_subseteq n (l : list A) : slice0 n l ⊆ l.
Proof. unfold slice0. destruct (n <? 0); apply subseteq_take. Qed.

Lemma elem_of_slice0_sort x n l : x ∈ slice0 n (Array_sort neg l) -> x ∈ l.
Proof.
  intros Hx%slice0_subseteq. by rewrite Array_sort_Permutation in Hx.
Qed.
End SortFacts.

Section RankerFacts.
Context {P : Platform}.
Implicit Types (st : State) (slots : list Slot) (results : list Suggestion).

(** The loop over [i] appends candidates of the day and cannot fail on
    a grid of 48 slots. *)
Lemma visitStarts_spec st d day slots (starts : list nat) : forall results,
  length slots = 48%nat ->
  (forall i, i ∈ starts -> slotsNeeded st <= 0 \/ Z.of_nat i + slotsNeeded st <= 48) ->
  exists new,
    foldl (visitStart st d day slots) (Some results) starts = Some (results ++ new)
    /\ forall sug, sug ∈ new -> candidateOf st d day slots sug.
Proof.
  intros results Hlen. revert results.
  induction starts as [|i starts IH]; intros results His; cbn [foldl].
  - exists []. rewrite app_nil_r. split; [done|]. by intros sug ?%elem_of_nil.
  - assert (exists new1, visitStart st d day slots (Some results) i
                          = Some (results ++ new1)
              /\ forall sug, sug ∈ new1 -> candidateOf st d day slots sug)
      as (new1 & -> & Hnew1).
    { unfold visitStart.
      destruct (His i) as [Hsn|Hi]; [left|..].
      - rewrite scanWindow_nonpositive by done.
        replace (requiredScore (st_participants st) []) with 0
          by (by rewrite requiredScore_count, (filter_ext_length _ (fun _ => false));
              [induction (st_participants st)|intros; apply andb_false_r]).
        simpl. exists []. rewrite app_nil_r. split; [done|]. by intros sug ?%elem_of_nil.
      - destruct (Z.le_gt_cases (slotsNeeded st) 0) as [Hsn|Hsn].
        + rewrite scanWindow_nonpositive by done.
          replace (requiredScore (st_participants st) []) with 0
            by (by rewrite requiredScore_count, (filter_ext_length _ (fun _ => false));
                [induction (st_participants st)|intros; apply andb_false_r]).
          simpl. exists []. rewrite app_nil_r. split; [done|]. by intros sug ?%elem_of_nil.
        + destruct (scanWindow slots i (slotsNeeded st)) as [[score0 set]|] eqn:Hw.
          2: { rewrite scanWindow_spec in Hw by lia. discriminate. }
          destruct (0 <? _) eqn:Hpos.
          * eexists [_]. split; [done|].
            intros sug ->%list_elem_of_singleton.
            exists i, score0, set. apply Z.ltb_lt in Hpos. done.
          * exists []. rewrite app_nil_r. split; [done|]. by intros sug ?%elem_of_nil. }
    destruct (IH (results ++ new1)) as (new2 & -> & Hnew2).
    { intros j Hj. apply His. by right. }
    exists (new1 ++ new2). rewrite app_assoc. split; [done|].
    intros sug [?|?]%elem_of_app; auto.
Qed.

Lemma scanDay_spec st d day slots results :
  length slots = 48%nat ->
  exists new,
    scanDay st d day slots results = Some (results ++ new)
    /\ forall sug, sug ∈ new -> candidateOf st d day slots sug.
Proof.
  intros Hlen. apply visitStarts_spec; [done|].
  intros i [_ Hi]%elem_of_seq. lia.
Qed.

Lemma stateAtDay_S st k :
  stateAtDay st (S k)
  = (calculateSlotAvailability (stateAtDay st k) (baseDate k)).2.
Proof. unfold stateAtDay. by rewrite seq_S, foldl_app. Qed.

Lemma stateAtDay_state st k :
  stateAtDay st k = set_cache (st_cache (stateAtDay st k)) st.
Proof.
  induction k as [|k IH]; [by destruct st|].
  rewrite stateAtDay_S.
  pose proof (calculateSlotAvailability_state (stateAtDay st k) (baseDate k)) as H.
  destruct (calculateSlotAvailability (stateAtDay st k) (baseDate k)) as [g st1].
  simpl in *. rewrite H. simpl. by rewrite IH.
Qed.

Lemma stateAtDay_wf st k :
  cache_wf (st_cache st) -> cache_wf (st_cache (stateAtDay st k)).
Proof.
  intros Hwf. induction k as [|k IH]; [done|].
  rewrite stateAtDay_S. by apply calculateSlotAvailability_wf.
Qed.

Lemma length_gridOfDay st day :
  cache_wf (st_cache st) -> length (gridOfDay st day) = 48%nat.
Proof.
  intros Hwf. apply calculateSlotAvailability_wf. by apply stateAtDay_wf.
Qed.

(** The loop over the days [k, k + n), entered in the state reached
    after the days before [k]. *)
Lemma scanDays_spec st n : forall k results,
  cache_wf (st_cache st) ->
  exists new,
    scanDays (stateAtDay st k) (seq k n) results
    = Some (results ++ new, stateAtDay st (k + n))
    /\ forall sug, sug ∈ new ->
         exists day, (k <= day < k + n)%nat
           /\ candidateOf st (baseDate day) day (gridOfDay st day) sug.
Proof.
  induction n as [|n IH]; intros k results Hwf; simpl.
  - exists []. rewrite app_nil_r, Nat.add_0_r. split; [done|].
    by intros sug ?%elem_of_nil.
  - destruct (calculateSlotAvailability (stateAtDay st k) (baseDate k))
      as [slots st1] eqn:Hcall.
    assert (slots = gridOfDay st k) as -> by (unfold gridOfDay; by rewrite Hcall).
    assert (st1 = stateAtDay st (S k)) as -> by (by rewrite stateAtDay_S, Hcall).
    rewrite (stateAtDay_state st k).
    change (scanDay (set_cache _ st) (baseDate k) k (gridOfDay st k) results)
      with (scanDay st (baseDate k) k (gridOfDay st k) results).
    destruct (scanDay_spec st (baseDate k) k (gridOfDay st k) results)
      as (new1 & -> & Hnew1); [by apply length_gridOfDay|].
    destruct (IH (S k) (results ++ new1) Hwf) as (new2 & -> & Hnew2).
    exists (new1 ++ new2). rewrite app_assoc, Nat.add_succ_r. split; [done|].
    intros sug [Hs|Hs]%elem_of_app.
    + exists k. split; [lia|auto].
    + destruct (Hnew2 sug Hs) as (day & Hday & Hc). exists day. split; [lia|done].
Qed.

(** On a cache whose grids have 48 slots, [calculateBestTimes] returns
    and every suggestion is a candidate of one of the scanned days. *)
Lemma calculateBestTimes_candidates st :
  cache_wf (st_cache st) ->
  exists results st',
    calculateBestTimes st = Some (results, st')
    /\ forall sug, sug ∈ results ->
         exists day, (day < Z.to_nat (st_days st))%nat
           /\ candidateOf st (baseDate day) day (gridOfDay st day) sug.
Proof.
  intros Hwf. unfold calculateBestTimes.
  destruct (scanDays_spec st (Z.to_nat (st_days st)) 0 [] Hwf) as (new & Hscan & Hnew).
  change (stateAtDay st 0) with st in Hscan. rewrite Hscan. simpl.
  eexists _, _. split; [done|].
  intros sug Hs%elem_of_slice0_sort.
  destruct (Hnew sug Hs) as (day & Hday & Hc). exists day. split; [lia|done].
Qed.

Lemma scanDay_too_long st d day slots results :
  48 < slotsNeeded st -> scanDay st d day slots results = Some results.
Proof.
  intros Hsn. unfold scanDay.
  by replace (Z.to_nat (48 - slotsNeeded st + 1)) with 0%nat by lia.
Qed.

Lemma scanDays_too_long (days : list nat) : forall st results,
  48 < slotsNeeded st ->
  exists st', scanDays st days results = Some (results, st').
Proof.
  induction days as [|day days IH]; intros st results Hsn; simpl.
  - by exists st.
  - destruct (calculateSlotAvailability st (baseDate day)) as [slots st1] eqn:Hcall.
    rewrite scanDay_too_long by done.
    apply IH.
    assert (st1 = (calculateSlotAvailability st (baseDate day)).2) as ->
      by (by rewrite Hcall).
    rewrite calculateSlotAvailability_state. done.
Qed.
End RankerFacts.

(** * Claims about the ranker *)

Lemma empty_cache_wf : cache_wf ∅.
Proof. intros k g Hk. by rewrite lookup_empty in Hk. Qed.

(** C2, the claim as stated fails. Ann is required and free from 09:00 to
    09:30 only; for a meeting of 60 minutes the first suggestion starts at
    08:30 (slot 17) and scores 3, the count 1 plus the bonus 2, although
    she is absent from the first slot of the window: the claimed score,
    with the bonus kept for those present in every slot, is 1. *)
Lemma score_bonus_for_partial_presence :
  match @calculateBestTimes ex_platform ex_halfHour with
  | Some (sug :: _, _) =>
      sug_start sug = utcInstant (@baseDate ex_platform 0) (17 * 30)
      /\ sug_score sug = 3
      /\ windowScore presentInEvery (st_participants ex_halfHour)
           (windowOf (@gridOfDay ex_platform ex_halfHour 0) 17
                     (slotsNeeded ex_halfHour)) = 1
  | _ => False
  end.
Proof. vm_compute. done. Qed.

(** C2, amended. On a cache whose grids have 48 slots the ranker returns,
    and the score of every suggestion is the sum of [count] over the
    [slotsNeeded] slots of its window plus 2 for each participant whose
    priority is ['required'] and whose name is listed in at least one
    slot of the window. *)
Theorem calculateBestTimes_score `{Platform} (st : State) :
  cache_wf (st_cache st) ->
  exists results st',
    calculateBestTimes st = Some (results, st')
    /\ forall sug, sug ∈ results ->
         exists i : nat,
           (sug_day sug < Z.to_nat (st_days st))%nat
           /\ 0 < slotsNeeded st
           /\ Z.of_nat i + slotsNeeded st <= 48
           /\ sug_start sug = utcInstant (baseDate (sug_day sug)) (Z.of_nat i * 30)
           /\ let w := windowOf (gridOfDay st (sug_day sug)) i (slotsNeeded st) in
              sug_score sug
              = sumCounts w
                + 2 * Z.of_nat (length (List.filter
                        (fun p => isRequired p && presentInSome (p_name p) w)
                        (st_participants st))).
Proof.
  intros Hwf.
  destruct (calculateBestTimes_candidates st Hwf) as (results & st' & Hres & Hall).
  exists results, st'. split; [done|].
  intros sug Hsug.
  destruct (Hall sug Hsug) as (day & Hday & i & score0 & set & Hsn & Hi & Hw & _ & ->).
  exists i. simpl. repeat (split; [done|]).
  eapply scanWindow_score in Hw as (Hscore & _ & _).
  - exact Hscore.
  - lia.
  - rewrite length_gridOfDay by done. lia.
Qed.

Lemma calculateBestTimes_score_witness :
  exists results st',
    @calculateBestTimes ex_platform ex_team = Some (results, st')
    /\ forall sug, sug ∈ results ->
         exists i : nat,
           (sug_day sug < Z.to_nat (st_days ex_team))%nat
           /\ 0 < slotsNeeded ex_team
           /\ Z.of_nat i + slotsNeeded ex_team <= 48
           /\ sug_start sug
              = utcInstant (@baseDate ex_platform (sug_day sug)) (Z.of_nat i * 30)
           /\ let w := windowOf (@gridOfDay ex_platform ex_team (sug_day sug)) i
                                (slotsNeeded ex_team) in
              sug_score sug
              = sumCounts w
                + 2 * Z.of_nat (length (List.filter
                        (fun p => isRequired p && presentInSome (p_name p) w)
                        (st_participants ex_team))).
Proof. apply (@calculateBestTimes_score ex_platform ex_team), empty_cache_wf. Defined.

(** C3, the claim as stated fails. In the same run the first suggestion
    lists Ann in [available], and she is not in every slot of its
    window. *)
Lemma available_lists_partial_presence :
  match @calculateBestTimes ex_platform ex_halfHour with
  | Some (sug :: _, _) =>
      sug_start sug = utcInstant (@baseDate ex_platform 0) (17 * 30)
      /\ sug_available sug = ["Ann"%string]
      /\ presentInEvery "Ann"
           (windowOf (@gridOfDay ex_platform ex_halfHour 0) 17
                     (slotsNeeded ex_halfHour)) = false
  | _ => False
  end.
Proof. vm_compute. done. Qed.

(** C3, amended. On a cache whose grids have 48 slots the ranker returns,
    and the [available] field of every suggestion lists, each once, the
    names that appear in at least one of the [slotsNeeded] slots of its
    window: the union of the slots' names. *)
Theorem calculateBestTimes_available `{Platform} (st : State) :
  cache_wf (st_cache st) ->
  exists results st',
    calculateBestTimes st = Some (results, st')
    /\ forall sug, sug ∈ results ->
         exists i : nat,
           (sug_day sug < Z.to_nat (st_days st))%nat
           /\ 0 < slotsNeeded st
           /\ Z.of_nat i + slotsNeeded st <= 48
           /\ sug_start sug = utcInstant (baseDate (sug_day sug)) (Z.of_nat i * 30)
           /\ NoDup (sug_available sug)
           /\ forall name,
                name ∈ sug_available sug
                <-> exists s e,
                      s ∈ windowOf (gridOfDay st (sug_day sug)) i (slotsNeeded st)
                      /\ e ∈ slot_participants s /\ e_name e = name.
Proof.
  intros Hwf.
  destruct (calculateBestTimes_candidates st Hwf) as (results & st' & Hres & Hall).
  exists results, st'. split; [done|].
  intros sug Hsug.
  destruct (Hall sug Hsug) as (day & Hday & i & score0 & set & Hsn & Hi & Hw & _ & ->).
  exists i. simpl. repeat (split; [done|]).
  eapply (scanWindow_score _ _ _ (st_participants st)) in Hw as (_ & Hmem & Hnd).
  - split; [done|]. intros name. by rewrite Hmem, presentInSome_elem.
  - lia.
  - rewrite length_gridOfDay by done. lia.
Qed.

Lemma calculateBestTimes_available_witness :
  exists results st',
    @calculateBestTimes ex_platform ex_team = Some (results, st')
    /\ forall sug, sug ∈ results ->
         exists i : nat,
           (sug_day sug < Z.to_nat (st_days ex_team))%nat
           /\ 0 < slotsNeeded ex_team
           /\ Z.of_nat i + slotsNeeded ex_team <= 48
           /\ sug_start sug
              = utcInstant (@baseDate ex_platform (sug_day sug)) (Z.of_nat i * 30)
           /\ NoDup (sug_available sug)
           /\ forall name,
                name ∈ sug_available sug
                <-> exists s e,
                      s ∈ windowOf (@gridOfDay ex_platform ex_team (sug_day sug)) i
                                   (slotsNeeded ex_team)
                      /\ e ∈ slot_participants s /\ e_name e = name.
Proof. apply (@calculateBestTimes_available ex_platform ex_team), empty_cache_wf. Defined.

(** C5. Ann has no [priority] field and is free from 09:00 to 17:00. The
    one suggestion returned for a meeting of 30 minutes starts at 09:00;
    its [localTimes] entry gives her priority ['required'] and marks her
    available, yet its score is 1, the count alone, without the bonus
    of 2. *)
Theorem absent_priority_gets_no_bonus :
  fst <$> @calculateBestTimes ex_platform ex_noPriority
  = Some [ {| sug_start := mkUTCInstant 2026 10 2 540;
              sug_score := 1;
              sug_available := ["Ann"%string];
              sug_localTimes :=
                [mkLocalTime "Ann" "09:00" true "#14b8a6" "required"];
              sug_day := 0 |} ].
Proof. vm_compute. reflexivity. Qed.

(** C7. When [slotsNeeded] exceeds 48 the ranker returns the empty list,
    without throwing, whatever the participants, the days and the
    cache. *)
Theorem calculateBestTimes_too_long `{Platform} (st : State) :
  48 < slotsNeeded st ->
  exists st', calculateBestTimes st = Some ([], st').
Proof.
  intros Hsn. unfold calculateBestTimes.
  destruct (scanDays_too_long (seq 0 (Z.to_nat (st_days st))) st [] Hsn) as [st' ->].
  exists st'. unfold slice0. simpl. destruct (_ <? _); by rewrite take_nil.
Qed.

Lemma calculateBestTimes_too_long_witness :
  48 < slotsNeeded ex_longMeeting
  /\ exists st', @calculateBestTimes ex_platform ex_longMeeting = Some ([], st').
Proof.
  assert (48 < slotsNeeded ex_longMeeting) as Hsn by (vm_compute; reflexivity).
  split; [exact Hsn|].
  exact (@calculateBestTimes_too_long ex_platform ex_longMeeting Hsn).
Defined.

(** * Claims about the cache *)

Section CacheFacts.
Context {P : Platform}.

(** The grid returned is in the cache that is left, under the key of the
    request. *)
Lemma calculateSlotAvailability_cached (st : State) (d : JSDate) :
  let '(slots, st1) := calculateSlotAvailability st d in
  st_cache st1 !! cacheKey d (st_participants st1) = Some slots.
Proof.
  unfold calculateSlotAvailability.
  destruct (st_cache st !! _) as [g|] eqn:E; [done|].
  simpl. apply lookup_insert_eq.
Qed.

(** A second request for the same day with the participants unchanged is
    served from the cache. *)
Lemma calculateSlotAvailability_again (st : State) (d : JSDate) :
  let '(slots, st1) := calculateSlotAvailability st d in
  calculateSlotAvailability st1 d = (slots, st1).
Proof.
  pose proof (calculateSlotAvailability_cached st d) as Hc.
  destruct (calculateSlotAvailability st d) as [slots st1].
  by apply calculateSlotAvailability_hit.
Qed.

Lemma updateFirst_ids (id : string) (f : Participant -> Participant)
    (ps : list Participant) :
  (forall p, p_id (f p) = p_id p) ->
  map p_id (updateFirst id f ps) = map p_id ps.
Proof.
  intros Hf. induction ps as [|p ps IH]; simpl; [done|].
  case_bool_decide; simpl; [by rewrite Hf|by rewrite IH].
Qed.

(** [saveEdit] changes neither the identifiers nor the cache, hence not
    the key under which a day is cached. *)
Lemma saveEdit_cacheKey (id name tz start end_ priority : string)
    (st : State) (d : JSDate) :
  cacheKey d (st_participants (saveEdit id name tz start end_ priority st))
  = cacheKey d (st_participants st)
  /\ st_cache (saveEdit id name tz start end_ priority st) = st_cache st.
Proof.
  unfold saveEdit. destruct (_ && _); [|done].
  simpl. unfold cacheKey. by rewrite updateFirst_ids.
Qed.

(** After a grid has been built for a day, any edit of a participant is
    followed by a cache hit that returns the grid of before the edit. *)
Lemma calculateSlotAvailability_after_edit (id name tz start end_ priority : string)
    (st : State) (d : JSDate) :
  let '(slots, st1) := calculateSlotAvailability st d in
  let st2 := saveEdit id name tz start end_ priority st1 in
  calculateSlotAvailability st2 d = (slots, st2).
Proof.
  pose proof (calculateSlotAvailability_cached st d) as Hcached.
  destruct (calculateSlotAvailability st d) as [slots st1]. simpl.
  destruct (saveEdit_cacheKey id name tz start end_ priority st1 d) as [Hk Hc].
  apply calculateSlotAvailability_hit. by rewrite Hk, Hc.
Qed.
End CacheFacts.

(** C4. Ann is free from 09:00 to 17:00 and today's grid is built: slot 18
    (09:00) counts her. Her start is then edited to 10:00 through
    [saveEdit], which keeps her id. The next request for today is served
    from the cache and returns the grid of before the edit, where slot 18
    still counts her, whereas the grid computed from the edited
    participants has nobody in slot 18. *)
Theorem edit_keeps_cached_grid :
  let d := @baseDate ex_platform 0 in
  let r := @calculateSlotAvailability ex_platform ex_solo d in
  let st2 := saveEdit "a1" "Ann" "UTC" "10:00" "17:00" "required" r.2 in
  st_participants st2
  = [mkParticipant "a1" "Ann" "UTC" "10:00" "17:00" (Some "required"%string) "#14b8a6"]
  /\ @calculateSlotAvailability ex_platform st2 d = (r.1, st2)
  /\ slot_count <$> r.1 !! 18%nat = Some 1
  /\ slot_count <$> @buildSlots ex_platform st2 d !! 18%nat = Some 0.
Proof.
  split; [reflexivity|]. split.
  - apply (@calculateSlotAvailability_after_edit ex_platform
             "a1" "Ann" "UTC" "10:00" "17:00" "required" ex_solo
             (@baseDate ex_platform 0)).
  - split; vm_compute; reflexivity.
Qed.

(** * Cache keys *)

Lemma string_app_cons (c : ascii) (s t : string) :
  (String c s ++ t)%string = String c (s ++ t)%string.
Proof. reflexivity. Qed.

Lemma string_app_nil (t : string) : (EmptyString ++ t)%string = t.
Proof. reflexivity. Qed.

Ltac string_app := rewrite ?string_app_cons, ?string_app_nil.

Lemma string_app_assoc (s1 s2 s3 : string) :
  ((s1 ++ s2) ++ s3 = s1 ++ (s2 ++ s3))%string.
Proof.
  induction s1 as [|c s1 IH]; string_app; [done|]. by rewrite IH.
Qed.

Lemma string_app_inj_length (s1 s2 t1 t2 : string) :
  String.length s1 = String.length s2 ->
  (s1 ++ t1 = s2 ++ t2)%string -> s1 = s2 /\ t1 = t2.
Proof.
  revert s2. induction s1 as [|c s1 IH]; intros [|c2 s2]; string_app;
    cbn [String.length]; try done.
  intros [= Hlen] [= -> Happ]. destruct (IH s2 Hlen Happ) as [-> ->]. done.
Qed.

Lemma unescape_front_escape (c : ascii) (rest : string) :
  unescape_front (json_escape c ++ rest) = Some (c, rest).
Proof. destruct c as [[] [] [] [] [] [] [] []]; reflexivity. Qed.

Lemma escape_string_inj (s1 : string) : forall s2 r1 r2,
  (json_escape_string s1 ++ String dquote r1
   = json_escape_string s2 ++ String dquote r2)%string ->
  s1 = s2 /\ r1 = r2.
Proof.
  induction s1 as [|c1 s1 IH]; intros [|c2 s2] r1 r2;
    cbn [json_escape_string]; string_app; rewrite ?string_app_assoc.
  - by intros [= ->].
  - intros Heq. apply (f_equal unescape_front) in Heq.
    by rewrite unescape_front_escape in Heq.
  - intros Heq. apply (f_equal unescape_front) in Heq.
    by rewrite unescape_front_escape in Heq.
  - intros Heq. apply (f_equal unescape_front) in Heq.
    rewrite !unescape_front_escape in Heq. injection Heq as -> Heq.
    by destruct (IH _ _ _ Heq) as [-> ->].
Qed.

Lemma json_quote_body_inj (s1 s2 r1 r2 : string) :
  ((json_escape_string s1 ++ String dquote EmptyString) ++ r1
   = (json_escape_string s2 ++ String dquote EmptyString) ++ r2)%string ->
  s1 = s2 /\ r1 = r2.
Proof. rewrite !string_app_assoc. string_app. apply escape_string_inj. Qed.

Lemma json_quote_inj (s1 s2 r1 r2 : string) :
  (json_quote s1 ++ r1 = json_quote s2 ++ r2)%string -> s1 = s2 /\ r1 = r2.
Proof.
  unfold json_quote. string_app. intros [= Heq]. by apply json_quote_body_inj.
Qed.

Lemma json_after_element_inj (l1 : list string) : forall l2,
  json_after_element l1 = json_after_element l2 -> l1 = l2.
Proof.
  induction l1 as [|x l1 IH]; intros [|y l2]; cbn [json_after_element]; try done.
  intros [= Heq]. apply json_quote_body_inj in Heq as [-> Heq]. by rewrite (IH _ Heq).
Qed.

Lemma json_after_bracket_inj (l1 l2 : list string) :
  json_after_bracket l1 = json_after_bracket l2 -> l1 = l2.
Proof.
  destruct l1 as [|x l1], l2 as [|y l2]; cbn [json_after_bracket];
    try done; try (unfold json_quote; string_app; discriminate).
  intros Heq. apply json_quote_inj in Heq as [-> Heq].
  by rewrite (json_after_element_inj _ _ Heq).
Qed.

Lemma join_after_element (x : string) (l : list string) :
  (join "," (map json_quote (x :: l)) ++ "]")%string
  = (json_quote x ++ json_after_element l)%string.
Proof.
  revert x. induction l as [|y l IH]; intros x; [done|].
  change (join "," (map json_quote (x :: y :: l)))
    with (json_quote x ++ "," ++ join "," (map json_quote (y :: l)))%string.
  rewrite !string_app_assoc, IH. done.
Qed.

Lemma JSON_stringify_after_bracket (l : list string) :
  JSON_stringify l = String "[" (json_after_bracket l).
Proof.
  unfold JSON_stringify. destruct l as [|x l]; [done|].
  string_app. cbn [json_after_bracket]. by rewrite join_after_element.
Qed.

(** [JSON.stringify] tells lists of ids apart. *)
Lemma JSON_stringify_inj (l1 l2 : list string) :
  JSON_stringify l1 = JSON_stringify l2 -> l1 = l2.
Proof.
  rewrite !JSON_stringify_after_bracket. intros [= Heq].
  by apply json_after_bracket_inj.
Qed.

(** Two requests share a key only for the same day string and the same
    list of ids, in the same order. *)
Lemma cacheKey_inj (d1 d2 : JSDate) (ps1 ps2 : list Participant) :
  String.length (toDateString d1) = String.length (toDateString d2) ->
  cacheKey d1 ps1 = cacheKey d2 ps2 ->
  toDateString d1 = toDateString d2 /\ map p_id ps1 = map p_id ps2.
Proof.
  intros Hlen. unfold cacheKey.
  change ("slots-" ++ toDateString d1 ++ "-" ++ JSON_stringify (map p_id ps1))%string
    with ("slots-" ++ (toDateString d1 ++ String "-" (JSON_stringify (map p_id ps1))))%string.
  change ("slots-" ++ toDateString d2 ++ "-" ++ JSON_stringify (map p_id ps2))%string
    with ("slots-" ++ (toDateString d2 ++ String "-" (JSON_stringify (map p_id ps2))))%string.
  intros Heq%(inj (String.append "slots-")).
  apply string_app_inj_length in Heq as [Hd Hj]; [|done].
  split; [done|]. apply JSON_stringify_inj. congruence.
Qed.

Lemma ex_platform_dates_uniform : @dates_uniform ex_platform.
Proof.
  intros day day'. cbn [baseDate ex_platform toDateString].
  unfold weekday.
  assert (forall d, String.length
            (nth (d mod 7) ["Mon"; "Tue"; "Wed"; "Thu"; "Fri"; "Sat"; "Sun"]%string
                 "Mon"%string) = 3%nat) as Hw.
  { intros d. pose proof (Nat.mod_upper_bound d 7 ltac:(lia)) as Hd.
    destruct (d mod 7)%nat as [|[|[|[|[|[|[|?]]]]]]]; (reflexivity || lia). }
  assert (forall s t, String.length (s ++ t)%string
                      = (String.length s + String.length t)%nat) as Happ.
  { intros s t. induction s as [|c s IH]; string_app; cbn [String.length]; [done|].
    by rewrite IH. }
  rewrite !Happ, !Hw. reflexivity.
Qed.

Section CacheSound.
Context {P : Platform}.

Lemma cache_sound_empty : cache_sound ∅.
Proof. intros day ps g Hg. by rewrite lookup_empty in Hg. Qed.

(** [cache_sound] is kept by every request for a day of the platform,
    whatever the participants of the moment. *)
Lemma calculateSlotAvailability_sound (st : State) (day : nat) :
  dates_uniform ->
  cache_sound (st_cache st) ->
  cache_sound (st_cache (calculateSlotAvailability st (baseDate day)).2).
Proof.
  intros Hdates Hsound. unfold calculateSlotAvailability.
  destruct (st_cache st !! _) as [g|] eqn:E; [done|]. simpl.
  intros day' ps g.
  destruct (decide (cacheKey (baseDate day) (st_participants st)
                    = cacheKey (baseDate day') ps)) as [Hk|Hk].
  - rewrite <- Hk, lookup_insert_eq. intros [= <-].
    apply cacheKey_inj in Hk as [_ Hids]; [|apply Hdates].
    split; [apply length_buildSlots|].
    replace (length ps) with (length (st_participants st))
      by (by rewrite <- (length_map p_id (st_participants st)), Hids, length_map).
    apply buildSlots_bounded.
  - rewrite lookup_insert_ne by done. apply Hsound.
Qed.

(** It gives what the compatibility score asks of the cache. *)
Lemma cache_sound_today (st : State) :
  cache_sound (st_cache st) ->
  forall g, st_cache st !! cacheKey (baseDate 0) (st_participants st) = Some g ->
            length g = 48%nat /\ grid_bounded (length (st_participants st)) g.
Proof. intros Hsound g. apply Hsound. Qed.
End CacheSound.

(** * Worst pairs *)

Section SortedFacts.
Context {A : Type} (neg : A -> A -> bool) (R : relation A).
Hypothesis R_trans : Transitive R.
Hypothesis neg_true : forall y x, neg y x = true -> R y x.
Hypothesis neg_false : forall y x, neg y x = false -> R x y.

Lemma sort_insert_sorted (x : A) (l : list A) :
  StronglySorted R l -> StronglySorted R (sort_insert neg x l).
Proof.
  induction 1 as [|y l Hl IH Hy]; simpl.
  - by repeat constructor.
  - destruct (neg y x) eqn:E.
    + constructor; [done|].
      rewrite sort_insert_Permutation. constructor; [|done]. by apply neg_true.
    + assert (R x y) as Hxy by (by apply neg_false).
      constructor; [by constructor|]. constructor; [done|].
      eapply Forall_impl; [exact Hy|]. intros z Hz. by transitivity y.
Qed.

Lemma Array_sort_sorted (l : list A) : StronglySorted R (Array_sort neg l).
Proof.
  unfold Array_sort. induction l as [|x l IH]; simpl; [constructor|].
  by apply sort_insert_sorted.
Qed.

Lemma slice0_sorted (n : Z) (l : list A) :
  StronglySorted R l -> StronglySorted R (slice0 n l).
Proof.
  intros Hl. unfold slice0.
  destruct (n <? 0).
  - rewrite <- (take_drop (Z.to_nat (Z.of_nat (length l) + n)) l) in Hl.
    by apply StronglySorted_app_1_l in Hl.
  - rewrite <- (take_drop (Z.to_nat n) l) in Hl.
    by apply StronglySorted_app_1_l in Hl.
Qed.
End SortedFacts.

Lemma Qc_round_of_Z (n : Z) : Qc_round (Qc_of_Z n) = Qc_of_Z n.
Proof.
  unfold Qc_round. f_equal.
  assert ((Qc_of_Z n + Q2Qc (1 # 2))%Qc == inject_Z n + (1 # 2))%Q as ->.
  { unfold Qcplus, Q2Qc. simpl. rewrite !Qred_correct. reflexivity. }
  apply Z.le_antisymm.
  - assert (Qfloor (inject_Z n + (1 # 2)) < n + 1)%Z as Hlt; [|lia].
    rewrite Zlt_Qlt. eapply Qle_lt_trans; [apply Qfloor_le|].
    rewrite inject_Z_plus. apply Qplus_lt_r. reflexivity.
  - rewrite <- (Qfloor_Z n) at 1. apply Qfloor_resp_le.
    rewrite <- (Qplus_0_r (inject_Z n)) at 1. apply Qplus_le_r. discriminate.
Qed.

(** Half-hour counts times 0.5, rounded to one decimal, are unchanged by
    the rounding. *)
Lemma overlap_hours_exact (k : Z) :
  (Qc_round ((Qc_of_Z k * Qc_half) * Qc_of_Z 10) / Qc_of_Z 10 = Qc_of_Z k * Qc_half)%Qc.
Proof.
  assert (Qc_half * Qc_of_Z 10 = Qc_of_Z 5)%Qc as H5
    by (apply Qc_is_canon; reflexivity).
  assert (Qc_of_Z 5 / Qc_of_Z 10 = Qc_half)%Qc as H10
    by (apply Qc_is_canon; reflexivity).
  rewrite <- Qcmult_assoc, H5, <- Z2Qc_inj_mul, Qc_round_of_Z, Z2Qc_inj_mul.
  unfold Qcdiv. rewrite <- Qcmult_assoc. fold (Qcdiv (Qc_of_Z 5) (Qc_of_Z 10)).
  by rewrite H10.
Qed.

Lemma Qc_sub_neg (x y : Qc) : (x - y < 0)%Qc <-> (x < y)%Qc.
Proof.
  rewrite (Qcplus_lt_mono_r x y (- y)).
  by rewrite Qcplus_opp_r.
Qed.

Section PairFacts.
Context {P : Platform}.
Implicit Types (p : Participant) (ps : list Participant) (pairs : list Pair).

Lemma overlapStep_inWindow d p1 p2 (a : Z) (i : nat) :
  overlapStep d p1 p2 a i
  = if inWindowAt d p1 i && inWindowAt d p2 i then a + 1 else a.
Proof.
  unfold overlapStep, inWindowAt.
  destruct (localClock (p_timezone p1) _) as [[h1 m1]|]; [|done].
  destruct (localClock (p_timezone p2) _) as [[h2 m2]|]; [done|].
  by rewrite andb_false_r.
Qed.

(** The counter of [calculatePairOverlap] is the number of the 48 slots
    in which both participants are inside their windows. *)
Lemma overlapSlotsOf_count p1 p2 :
  overlapSlotsOf p1 p2
  = Z.of_nat (length (List.filter
      (fun i => inWindowAt (baseDate 0) p1 i && inWindowAt (baseDate 0) p2 i)
      (seq 0 48))).
Proof.
  unfold overlapSlotsOf. generalize (seq 0 48). intros l.
  enough (forall a, foldl (overlapStep (baseDate 0) p1 p2) a l
            = a + Z.of_nat (length (List.filter
                (fun i => inWindowAt (baseDate 0) p1 i && inWindowAt (baseDate 0) p2 i)
                l))) as H by (by rewrite H).
  induction l as [|i l IH]; intros a; simpl; [lia|].
  rewrite IH, overlapStep_inWindow.
  destruct (_ && _); simpl; lia.
Qed.

Lemma pairsWith_elem p1 (rest : list Participant) : forall pairs r,
  r ∈ pairsWith p1 rest pairs ->
  r ∈ pairs
  \/ exists (j : nat) p2,
       rest !! j = Some p2
       /\ r = mkPair (p_name p1) (p_name p2) (calculatePairOverlap p1 p2)
       /\ (calculatePairOverlap p1 p2 < Qc_of_Z 3)%Qc.
Proof.
  unfold pairsWith. induction rest as [|p2 rest IH]; intros pairs r; cbn [foldl]; [by left|].
  intros [Hr|(j & p & Hj & Hp)]%IH.
  - case_bool_decide as Hlt; [|by left].
    apply elem_of_app in Hr as [Hr|Hr%list_elem_of_singleton]; [by left|].
    right. by exists 0%nat, p2.
  - right. by exists (S j), p.
Qed.

Lemma collectPairs_elem ps : forall pairs r,
  r ∈ collectPairs ps pairs ->
  r ∈ pairs
  \/ exists (i j : nat) p1 p2,
       (i < j)%nat /\ ps !! i = Some p1 /\ ps !! j = Some p2
       /\ r = mkPair (p_name p1) (p_name p2) (calculatePairOverlap p1 p2)
       /\ (calculatePairOverlap p1 p2 < Qc_of_Z 3)%Qc.
Proof.
  induction ps as [|p1 rest IH]; intros pairs r; cbn [collectPairs]; [by left|].
  intros [Hr|(i & j & pa & pb & Hij & Hi & Hj & Hp)]%IH.
  - apply pairsWith_elem in Hr as [Hr|(j & p2 & Hj & Hp)]; [by left|].
    right. exists 0%nat, (S j), p1, p2. split; [lia|done].
  - right. exists (S i), (S j), pa, pb. split; [lia|done].
Qed.

Lemma length_slice0_le (n : Z) (l : list Pair) :
  0 <= n -> (length (slice0 n l) <= Z.to_nat n)%nat.
Proof.
  intros Hn. unfold slice0. destruct (Z.ltb_spec n 0); [lia|].
  rewrite length_take. lia.
Qed.
End PairFacts.

(** C9. [findWorstTimezonePairs] returns at most 3 pairs, in ascending
    order of overlap; each is made of the names of two participants at
    positions [i < j] of the list, with an overlap below 3 hours that is
    the number of the 48 half-hour slots in which both are inside their
    own windows, times 0.5 and rounded to one decimal (which leaves it
    unchanged); the lunch setting plays no part. *)
Theorem findWorstTimezonePairs_spec `{Platform} (st : State) :
  let pairs := findWorstTimezonePairs st in
  (length pairs <= 3)%nat
  /\ StronglySorted (fun a b => (pair_overlap a <= pair_overlap b)%Qc) pairs
  /\ (forall r, r ∈ pairs ->
        exists (i j : nat) p1 p2,
          (i < j)%nat
          /\ st_participants st !! i = Some p1
          /\ st_participants st !! j = Some p2
          /\ pair_p1 r = p_name p1 /\ pair_p2 r = p_name p2
          /\ (pair_overlap r < Qc_of_Z 3)%Qc
          /\ let k := Z.of_nat (length (List.filter
                        (fun s => inWindowAt (baseDate 0) p1 s
                                  && inWindowAt (baseDate 0) p2 s)
                        (seq 0 48))) in
             (pair_overlap r
              = Qc_round ((Qc_of_Z k * Qc_half) * Qc_of_Z 10) / Qc_of_Z 10)%Qc
             /\ (pair_overlap r = Qc_of_Z k * Qc_half)%Qc)
  /\ (forall b, findWorstTimezonePairs (set_excludeLunch b st)
                = findWorstTimezonePairs st).
Proof.
  cbv zeta. unfold findWorstTimezonePairs.
  change (st_participants (set_excludeLunch _ st)) with (st_participants st).
  destruct (length (st_participants st) <? 2)%nat.
  { split; [cbn [length]; lia|]. split; [constructor|]. split; [|done].
    by intros r ?%elem_of_nil. }
  split; [apply (length_slice0_le 3); lia|]. split.
  - apply slice0_sorted, (Array_sort_sorted byOverlapAsc).
    + intros a b c. apply Qcle_trans.
    + intros y x Hyx. unfold byOverlapAsc in Hyx.
      apply bool_decide_eq_true in Hyx. apply (proj1 (Qc_sub_neg _ _)) in Hyx.
      by apply Qclt_le_weak.
    + intros y x Hyx. unfold byOverlapAsc in Hyx.
      apply bool_decide_eq_false in Hyx. rewrite Qc_sub_neg in Hyx.
      by apply Qcnot_lt_le.
  - split; [|done].
    intros r Hr%elem_of_slice0_sort.
    apply collectPairs_elem in Hr as [Hr|(i & j & p1 & p2 & Hij & Hi & Hj & -> & Hlt)];
      [by apply elem_of_nil in Hr|].
    exists i, j, p1, p2. cbn [pair_p1 pair_p2 pair_overlap]. repeat (split; [done|]).
    unfold calculatePairOverlap. rewrite overlapSlotsOf_count.
    split; [done|]. apply overlap_hours_exact.
Qed.

(** * Compatibility score *)

Lemma small_bound (z : Z) : small z <-> - 9007199254740992 <= z <= 9007199254740992.
Proof. unfold small. by change (2 ^ 53) with 9007199254740992. Qed.

Ltac small_lia := rewrite ?small_bound in *; lia.

Section ArithFacts.
Context {A : JSArith} {L : JSArithLaws A}.
Implicit Types (x y : F).

Lemma fle_refl_ofZ (a : Z) : small a -> fle (ofZ a) (ofZ a).
Proof. intros Ha. apply ofZ_mono; (done || lia). Qed.

Lemma fdiv_between x (hi c : Z) :
  0 < c -> small c -> 0 <= hi -> small (hi * c) ->
  fle (ofZ 0) x -> fle x (ofZ (hi * c)) ->
  fle (ofZ 0) (fdiv x (ofZ c)) /\ fle (fdiv x (ofZ c)) (ofZ hi).
Proof.
  intros Hc Hsc Hhi Hhic Hx1 Hx2.
  assert (small 0) as H0 by (unfold small; lia).
  split.
  - rewrite <- (fdiv_exact 0 c) at 1 by (done || lia).
    change (0 * c) with 0.
    apply (fdiv_mono _ _ c (hi * c)); try done; [nia|by apply fle_refl_ofZ].
  - rewrite <- (fdiv_exact hi c) by done.
    apply (fdiv_mono _ _ c (hi * c)); try done; [nia|by apply fle_refl_ofZ].
Qed.

Lemma fmul_between x (hi c : Z) :
  0 < c -> small c -> 0 <= hi -> small (hi * c) ->
  fle (ofZ 0) x -> fle x (ofZ hi) ->
  fle (ofZ 0) (fmul x (ofZ c)) /\ fle (fmul x (ofZ c)) (ofZ (hi * c)).
Proof.
  intros Hc Hsc Hhi Hhic Hx1 Hx2.
  assert (small 0) as H0 by (unfold small; lia).
  assert (small hi) as Hshi by (unfold small in *; nia).
  split.
  - rewrite <- (fmul_exact 0 c) at 1 by (done || lia).
    apply (fmul_mono _ _ c hi); try done. by apply fle_refl_ofZ.
  - rewrite <- (fmul_exact hi c) by (done || lia).
    apply (fmul_mono _ _ c hi); try done. by apply fle_refl_ofZ.
Qed.

Lemma fadd_between x y (b b' : Z) :
  0 <= b -> 0 <= b' -> small (b + b') ->
  fle (ofZ 0) x -> fle x (ofZ b) -> fle (ofZ 0) y -> fle y (ofZ b') ->
  fle (ofZ 0) (fadd x y) /\ fle (fadd x y) (ofZ (b + b')).
Proof.
  intros Hb Hb' Hs Hx1 Hx2 Hy1 Hy2.
  assert (small 0) as H0 by (unfold small; lia).
  assert (small b /\ small b') as [Hsb Hsb'] by (unfold small in *; lia).
  split.
  - rewrite <- (fadd_exact 0 0) at 1 by (done || lia).
    apply (fadd_mono _ _ _ _ b b'); try done; by apply fle_refl_ofZ.
  - rewrite <- (fadd_exact b b') by done.
    apply (fadd_mono _ _ _ _ b b'); try done; by apply fle_refl_ofZ.
Qed.
End ArithFacts.

Lemma sumCounts_bounds (n : nat) (g : list Slot) :
  grid_bounded n g ->
  0 <= sumCounts g <= Z.of_nat (length g) * Z.of_nat n.
Proof.
  induction 1 as [|s g Hs Hg IH].
  - unfold sumCounts. simpl. lia.
  - rewrite sumCounts_cons. cbn [length]. lia.
Qed.

Lemma length_filter_le {X : Type} (f : X -> bool) (l : list X) :
  (length (List.filter f l) <= length l)%nat.
Proof.
  induction l as [|x l IH]; simpl; [lia|]. destruct (f x); simpl; lia.
Qed.

(** The grid handed to the analyser when the cache holds, for today's
    key, nothing or a grid built for as many participants. *)
Lemma todays_grid_bounded `{Platform} (st : State) :
  (forall g, st_cache st !! cacheKey (baseDate 0) (st_participants st) = Some g ->
             length g = 48%nat /\ grid_bounded (length (st_participants st)) g) ->
  length (calculateSlotAvailability st (baseDate 0)).1 = 48%nat
  /\ grid_bounded (length (st_participants st))
       (calculateSlotAvailability st (baseDate 0)).1.
Proof.
  intros Hc. unfold calculateSlotAvailability.
  destruct (st_cache st !! _) as [g|] eqn:E; simpl.
  - by apply Hc.
  - split; [apply length_buildSlots|apply buildSlots_bounded].
Qed.

(** The score computed from a grid of 48 slots whose counts lie between
    0 and the number of participants is, as a number, an integer from 0
    to 100. *)
Lemma compatibilityOf_range `{Platform} {A : JSArith} {L : JSArithLaws A}
    (st : State) (slots : list Slot) :
  2 <= Z.of_nat (length (st_participants st)) < 2 ^ 32 ->
  length slots = 48%nat ->
  grid_bounded (length (st_participants st)) slots ->
  exists k, feq (compatibilityOf st slots) (ofZ k) /\ 0 <= k <= 100.
Proof.
  intros Hn Hlen Hb. unfold compatibilityOf, compatibilityScore.
  change (2 ^ 32) with 4294967296 in Hn.
  pose proof (sumCounts_bounds _ _ Hb) as HS. rewrite Hlen in HS |- *.
  assert (0 <= goldenSlots st slots <= 48) as HG.
  { unfold goldenSlots.
    pose proof (length_filter_le
      (fun s => fleb (goldenThreshold st) (ofZ (slot_count s))) slots). lia. }
  set (n := Z.of_nat (length (st_participants st))) in *.
  set (S := sumCounts slots) in *. set (G := goldenSlots st slots) in *.
  change (Z.of_nat 48) with 48 in *.
  destruct (fdiv_between (ofZ S) n 48) as [Ha1 Ha2];
    [lia|small_lia|lia|small_lia|apply ofZ_mono; small_lia..|].
  destruct (fdiv_between (fdiv (ofZ S) (ofZ 48)) 1 n) as [Hb1 Hb2];
    [lia|small_lia|lia|small_lia|done|by rewrite Z.mul_1_l|].
  destruct (fmul_between (fdiv (fdiv (ofZ S) (ofZ 48)) (ofZ n)) 1 60) as [Hc1 Hc2];
    [lia|small_lia|lia|small_lia|done|done|].
  destruct (fdiv_between (ofZ G) 1 48) as [Hd1 Hd2];
    [lia|small_lia|lia|small_lia|apply ofZ_mono; small_lia..|].
  destruct (fmul_between (fdiv (ofZ G) (ofZ 48)) 1 40) as [He1 He2];
    [lia|small_lia|lia|small_lia|done|done|].
  destruct (fadd_between
              (fmul (fdiv (fdiv (ofZ S) (ofZ 48)) (ofZ n)) (ofZ 60))
              (fmul (fdiv (ofZ G) (ofZ 48)) (ofZ 40))
              (1 * 60) (1 * 40)) as [Hf1 Hf2];
    [lia|lia|small_lia|done|done|done|done|].
  apply (Math_round_between _ 0 (1 * 60 + 1 * 40)); [lia|small_lia|small_lia|done|done].
Qed.

(** The value returned, in any arithmetic: 0 for fewer than 2
    participants, and else the formula on today's grid. *)
Lemma calculateTimezoneCompatibility_formula `{Platform} {A : JSArith} (st : State) :
  let n := Z.of_nat (length (st_participants st)) in
  let result := (calculateTimezoneCompatibility st).1 in
  let slots := (calculateSlotAvailability st (baseDate 0)).1 in
  (n < 2 -> result = ofZ 0)
  /\ (2 <= n -> result = compatibilityOf st slots).
Proof.
  cbv zeta. unfold calculateTimezoneCompatibility.
  destruct (Nat.ltb_spec (length (st_participants st)) 2) as [Hlt|Hge].
  - split; [done|lia].
  - split; [lia|]. intros _.
    by destruct (calculateSlotAvailability st (baseDate 0)) as [slots st'].
Qed.

(** * Rounding to the nearest double *)

Section Rounding.
Local Open Scope Q_scope.

Lemma pow2_pos k : 0 < pow2 k.
Proof. apply Qpower_0_lt. reflexivity. Qed.

Lemma pow2_add a b : pow2 (a + b) == pow2 a * pow2 b.
Proof. apply Qpower_plus. discriminate. Qed.

Lemma pow2_sub a b : pow2 (a - b) == pow2 a / pow2 b.
Proof. apply Qpower_minus. discriminate. Qed.

Lemma pow2_lt a b : (a < b)%Z -> pow2 a < pow2 b.
Proof. intros H. apply Qpower_lt_compat_l; [done|reflexivity]. Qed.

Lemma pow2_le a b : (a <= b)%Z -> pow2 a <= pow2 b.
Proof. intros H. apply Qpower_le_compat_l; [done|discriminate]. Qed.

Lemma pow2_lt_inv a b : pow2 a < pow2 b -> (a < b)%Z.
Proof. intros H. apply (Qpower_lt_compat_l_inv 2); [done|reflexivity]. Qed.

Lemma pow2_Z k : (0 <= k)%Z -> pow2 k == inject_Z (2 ^ k).
Proof. intros Hk. unfold pow2. by rewrite Zpower_Qpower. Qed.

Lemma ilog2_spec q : 0 < q -> pow2 (ilog2 q) <= q /\ q < pow2 (ilog2 q + 1).
Proof.
  intros Hq. destruct q as [a b]. unfold ilog2. cbn [Qnum Qden].
  assert (0 < a)%Z as Ha by (unfold Qlt in Hq; cbn in Hq; lia).
  pose proof (Z.log2_spec a Ha) as [Ha1 Ha2].
  pose proof (Z.log2_spec (Z.pos b) ltac:(lia)) as [Hb1 Hb2].
  pose proof (Z.log2_nonneg a) as Hla. pose proof (Z.log2_nonneg (Z.pos b)) as Hlb.
  set (la := Z.log2 a) in *. set (lb := Z.log2 (Z.pos b)) in *.
  assert (inject_Z (2 ^ la) <= inject_Z a) as Qa1 by (by rewrite <- Zle_Qle).
  assert (inject_Z a < inject_Z (2 ^ Z.succ la)) as Qa2 by (by rewrite <- Zlt_Qlt).
  assert (inject_Z (2 ^ lb) <= inject_Z (Z.pos b)) as Qb1 by (by rewrite <- Zle_Qle).
  assert (inject_Z (Z.pos b) < inject_Z (2 ^ Z.succ lb)) as Qb2 by (by rewrite <- Zlt_Qlt).
  rewrite <- !pow2_Z in Qa1, Qa2, Qb1, Qb2 by lia.
  assert (a # b == inject_Z a / inject_Z (Z.pos b)) as Hab by apply Qmake_Qdiv.
  assert (0 < inject_Z (Z.pos b)) as Hbpos by (rewrite <- (Zlt_Qlt 0); lia).
  assert (0 < inject_Z a) as Hapos by (rewrite <- (Zlt_Qlt 0); lia).
  pose proof (pow2_pos la). pose proof (pow2_pos lb).
  pose proof (pow2_pos (la - lb)) as Hk. pose proof (pow2_pos (la - lb - 1)) as Hk1.
  pose proof (pow2_pos (la - lb + 1)) as Hk2.
  assert (pow2 (la - lb - 1) * pow2 (Z.succ lb) == pow2 la) as E1
    by (rewrite <- pow2_add; f_equiv; lia).
  assert (pow2 (la - lb + 1) * pow2 lb == pow2 (Z.succ la)) as E2
    by (rewrite <- pow2_add; f_equiv; lia).
  assert (pow2 (la - lb - 1) * inject_Z (Z.pos b) < inject_Z a) as L1 by nra.
  assert (inject_Z a < pow2 (la - lb + 1) * inject_Z (Z.pos b)) as L2 by nra.
  assert (forall c, c * inject_Z (Z.pos b) < inject_Z a -> c < a # b) as D1.
  { intros c Hc. rewrite Hab. apply Qlt_shift_div_l; [done|]. exact Hc. }
  assert (forall c, inject_Z a < c * inject_Z (Z.pos b) -> a # b < c) as D2.
  { intros c Hc. rewrite Hab. apply Qlt_shift_div_r; [done|]. exact Hc. }
  destruct (Qle_bool (pow2 (la - lb)) (a # b)) eqn:E.
  - apply Qle_bool_iff in E. split; [done|]. by apply D2.
  - split.
    + apply Qlt_le_weak, D1. exact L1.
    + replace (la - lb - 1 + 1)%Z with (la - lb)%Z by lia.
      apply Qnot_le_lt. intros Hle. apply Qle_bool_iff in Hle. congruence.
Qed.

Lemma ilog2_mono q q' : 0 < q -> q <= q' -> (ilog2 q <= ilog2 q')%Z.
Proof.
  intros Hq Hle.
  destruct (ilog2_spec q Hq) as [H1 _].
  destruct (ilog2_spec q' ltac:(lra)) as [_ H2].
  assert (pow2 (ilog2 q) < pow2 (ilog2 q' + 1)) as H by lra.
  apply pow2_lt_inv in H. lia.
Qed.

Lemma rhe_bounds q :
  (Qfloor q <= round_half_even q <= Qfloor q + 1)%Z.
Proof.
  unfold round_half_even. destruct (_ ?= _); [destruct (Z.even _)| |]; lia.
Qed.

Lemma rhe_mono q q' : q <= q' -> (round_half_even q <= round_half_even q')%Z.
Proof.
  intros Hle. pose proof (Qfloor_resp_le _ _ Hle) as Hf.
  destruct (Z.eq_dec (Qfloor q) (Qfloor q')) as [Heq|Hne].
  - unfold round_half_even. rewrite <- Heq.
    destruct (q - inject_Z (Qfloor q) ?= 1 # 2) eqn:E1;
      destruct (q' - inject_Z (Qfloor q) ?= 1 # 2) eqn:E2;
      try (destruct (Z.even (Qfloor q))); try lia;
      first [apply Qeq_alt in E1 | apply Qlt_alt in E1 | apply Qgt_alt in E1];
      first [apply Qeq_alt in E2 | apply Qlt_alt in E2 | apply Qgt_alt in E2];
      lra.
  - pose proof (rhe_bounds q). pose proof (rhe_bounds q'). lia.
Qed.

Lemma rhe_int q (z : Z) : q == inject_Z z -> round_half_even q = z.
Proof.
  intros Hq. unfold round_half_even.
  rewrite (Qfloor_comp _ _ Hq), Qfloor_Z.
  destruct (q - inject_Z z ?= 1 # 2) eqn:E;
    [apply Qeq_alt in E|done|apply Qgt_alt in E]; lra.
Qed.

Lemma nearest_zero q : q == 0 -> nearest q == 0.
Proof.
  intros Hq. unfold nearest. generalize (Z.max (-1074) (ilog2 q - 52)). intros e.
  rewrite (rhe_int _ 0); [ring|].
  rewrite Hq. unfold Qdiv. ring.
Qed.

Lemma nearest_nonneg q : 0 <= q -> 0 <= nearest q.
Proof.
  intros Hq. unfold nearest.
  set (e := Z.max _ _). pose proof (pow2_pos e) as He.
  assert (0 <= q / pow2 e) as Hd.
  { apply Qle_shift_div_l; [done|]. lra. }
  pose proof (rhe_mono _ _ Hd) as Hr. rewrite (rhe_int 0 0) in Hr by reflexivity.
  rewrite Zle_Qle in Hr.
  apply Qmult_le_0_compat; [exact Hr|lra].
Qed.

Lemma nearest_mono_pos q q' : 0 < q -> q <= q' -> nearest q <= nearest q'.
Proof.
  intros Hq Hle. assert (0 < q') as Hq' by lra.
  pose proof (ilog2_mono q q' Hq Hle) as HL.
  destruct (ilog2_spec q Hq) as [L1 L2]. destruct (ilog2_spec q' Hq') as [L1' L2'].
  unfold nearest.
  set (e := Z.max (-1074) (ilog2 q - 52)). set (e' := Z.max (-1074) (ilog2 q' - 52)).
  pose proof (pow2_pos e) as He. pose proof (pow2_pos e') as He'.
  destruct (Z.eq_dec e e') as [<-|Hne].
  - assert (q / pow2 e <= q' / pow2 e) as Hd.
    { apply Qle_shift_div_l; [done|].
      assert (q / pow2 e * pow2 e == q) as -> by (field; lra). done. }
    apply rhe_mono in Hd. rewrite Zle_Qle in Hd.
    apply Qmult_le_compat_r; [done|lra].
  - assert (e < e')%Z as Hlt by lia.
    assert (e' = ilog2 q' - 52)%Z as He'eq by lia.
    (* below the boundary *)
    assert (q / pow2 e <= inject_Z (2 ^ 53)) as Hlo.
    { apply Qle_shift_div_r; [done|]. rewrite <- pow2_Z by lia. rewrite <- pow2_add.
      apply Qlt_le_weak. eapply Qlt_le_trans; [exact L2|]. apply pow2_le. lia. }
    apply rhe_mono in Hlo. rewrite (rhe_int (inject_Z (2 ^ 53)) (2 ^ 53)) in Hlo by reflexivity.
    (* above the boundary *)
    assert (inject_Z (2 ^ 52) <= q' / pow2 e') as Hhi.
    { apply Qle_shift_div_l; [done|]. rewrite <- pow2_Z by lia. rewrite <- pow2_add.
      eapply Qle_trans; [|exact L1']. apply pow2_le. lia. }
    apply rhe_mono in Hhi. rewrite (rhe_int (inject_Z (2 ^ 52)) (2 ^ 52)) in Hhi by reflexivity.
    rewrite Zle_Qle in Hlo, Hhi.
    apply Qle_trans with (pow2 (e + 53)).
    + rewrite pow2_add, (pow2_Z 53) by lia.
      rewrite (Qmult_comm (pow2 e)). apply Qmult_le_compat_r; [done|lra].
    + apply Qle_trans with (pow2 (e' + 52)); [apply pow2_le; lia|].
      rewrite pow2_add, (pow2_Z 52) by lia.
      rewrite (Qmult_comm (pow2 e')). apply Qmult_le_compat_r; [done|lra].
Qed.

Lemma nearest_mono q q' : 0 <= q -> q <= q' -> nearest q <= nearest q'.
Proof.
  intros Hq Hle. destruct (Qlt_le_dec 0 q) as [Hpos|Hz].
  - by apply nearest_mono_pos.
  - rewrite (nearest_zero q) by lra. apply nearest_nonneg. lra.
Qed.

(** A power of two from the smallest subnormal up is a double. *)
Lemma nearest_pow2 k : (-1074 <= k)%Z -> nearest (pow2 k) == pow2 k.
Proof.
  intros Hk. pose proof (pow2_pos k) as Hp.
  destruct (ilog2_spec _ Hp) as [L1 L2].
  assert (ilog2 (pow2 k) = k) as HL.
  { destruct (Z.lt_trichotomy (ilog2 (pow2 k)) k) as [H|[H|H]]; [|done|].
    - assert (pow2 (ilog2 (pow2 k) + 1) <= pow2 k) by (apply pow2_le; lia). lra.
    - pose proof (pow2_lt _ _ H). lra. }
  unfold nearest. rewrite HL.
  set (e := Z.max (-1074) (k - 52)). pose proof (pow2_pos e).
  assert (pow2 k / pow2 e == inject_Z (2 ^ (k - e))) as Hd.
  { rewrite <- pow2_sub, pow2_Z by lia. reflexivity. }
  rewrite (rhe_int _ _ Hd), <- pow2_Z by lia. rewrite <- pow2_add.
  f_equiv. lia.
Qed.

(** An integer of magnitude at most [2^53] is a double. *)
Lemma nearest_int (q : Q) (z : Z) :
  (0 <= z <= 2 ^ 53)%Z -> q == inject_Z z -> nearest q == inject_Z z.
Proof.
  intros Hz Hq. destruct (Z.eq_dec z 0) as [->|Hnz].
  { by apply nearest_zero. }
  assert (0 < q) as Hpos by (rewrite Hq, <- (Zlt_Qlt 0); lia).
  destruct (ilog2_spec q Hpos) as [L1 L2].
  assert (q <= pow2 53) as Hq53.
  { rewrite Hq, pow2_Z by lia. rewrite <- Zle_Qle. lia. }
  assert (ilog2 q <= 53)%Z as HL.
  { assert (pow2 (ilog2 q) < pow2 54) as H.
    { eapply Qle_lt_trans; [exact L1|]. eapply Qle_lt_trans; [exact Hq53|].
      by apply pow2_lt. }
    apply pow2_lt_inv in H. lia. }
  unfold nearest. set (e := Z.max (-1074) (ilog2 q - 52)).
  pose proof (pow2_pos e) as He.
  destruct (Z.le_gt_cases e 0) as [He0|He1].
  - assert (q / pow2 e == inject_Z (z * 2 ^ (- e))) as Hd.
    { rewrite inject_Z_mult, <- pow2_Z by lia. rewrite Hq.
      unfold pow2. rewrite Qpower_opp. field.
      pose proof (pow2_pos e). unfold pow2 in *. lra. }
    rewrite (rhe_int _ _ Hd), inject_Z_mult, <- pow2_Z by lia.
    rewrite <- Qmult_assoc, <- pow2_add.
    replace (- e + e)%Z with 0%Z by lia. change (pow2 0) with 1. ring.
  - assert (ilog2 q = 53)%Z as HL53 by lia.
    assert (e = 1)%Z as He1' by lia. clearbody e. subst e. rewrite HL53 in L1.
    assert (z = 2 ^ 53)%Z as ->.
    { assert (inject_Z (2 ^ 53) <= inject_Z z) as H.
      { rewrite <- pow2_Z by lia. by rewrite <- Hq. }
      rewrite <- Zle_Qle in H. lia. }
    rewrite (rhe_int _ (2 ^ 52)); [reflexivity|].
    rewrite Hq. reflexivity.
Qed.
End Rounding.

(** * The laws hold of binary64 *)

Section DoubleFacts.
Local Open Scope Q_scope.
Implicit Types (x y : double) (q : Q).

Lemma nearest_comp q q' : 0 <= q -> q == q' -> nearest q == nearest q'.
Proof.
  intros Hq Heq. apply Qle_antisym; apply nearest_mono; lra.
Qed.

Lemma Q2Qc_comp q q' : q == q' -> Q2Qc q = Q2Qc q'.
Proof. intros H. apply Qc_is_canon. cbn [this Q2Qc]. by rewrite !Qred_correct. Qed.

Lemma dval_Q2Qc q : dval (DFin (Q2Qc q)) == q.
Proof. cbn [dval this Q2Qc]. apply Qred_correct. Qed.

(** A magnitude that does not overflow is rounded to a finite double. *)
Lemma rounded_spec (neg : bool) q :
  0 <= q -> nearest q < pow2 1024 ->
  dfin (rounded neg q)
  /\ dval (rounded neg q) == (if neg then - nearest q else nearest q)
  /\ (neg = false -> rounded neg q = DFin (Q2Qc (nearest q))).
Proof.
  intros Hq Hv. unfold rounded.
  destruct (Qle_bool (pow2 1024) (nearest q)) eqn:E1.
  { apply Qle_bool_iff in E1. lra. }
  destruct (Qeq_bool (nearest q) 0) eqn:E2.
  - apply Qeq_bool_iff in E2. destruct neg; cbn [dzero dfin dval].
    + split; [done|]. split; [lra|done].
    + split; [done|]. split; [by rewrite E2|].
      intros _. f_equal. apply Q2Qc_comp. by rewrite E2.
  - split; [done|]. split; [apply dval_Q2Qc|]. by intros ->.
Qed.

Lemma dleb_fin x y : dfin x -> dfin y -> (dleb x y = true <-> dval x <= dval y).
Proof. destruct x, y; cbn; try done; intros _ _; apply Qle_bool_iff. Qed.

Lemma nearest_small (q : Q) (z : Z) :
  (0 <= z <= 2 ^ 53)%Z -> 0 <= q -> q <= inject_Z z -> nearest q <= inject_Z z.
Proof.
  intros Hz Hq Hle. rewrite <- (nearest_int (inject_Z z) z) by (done || reflexivity).
  by apply nearest_mono.
Qed.

Lemma small_no_overflow (z : Z) : (0 <= z <= 2 ^ 53)%Z -> inject_Z z < pow2 1024.
Proof.
  intros Hz. apply Qle_lt_trans with (pow2 53); [|by apply pow2_lt].
  rewrite pow2_Z by lia. rewrite <- Zle_Qle. lia.
Qed.

(** An integer of magnitude at most [2^53] is the double of its value. *)
Lemma dofZ_small (z : Z) : small z -> dofZ z = DFin (Q2Qc (inject_Z z)).
Proof.
  intros Hz. unfold small in Hz. unfold dofZ.
  assert (0 <= Z.abs z <= 2 ^ 53)%Z as Ha by lia.
  assert (0 <= inject_Z (Z.abs z)) as Hq by (rewrite <- (Zle_Qle 0); lia).
  pose proof (nearest_int (inject_Z (Z.abs z)) _ Ha ltac:(reflexivity)) as Hn.
  pose proof (small_no_overflow _ Ha) as Ho.
  destruct (rounded_spec (z <? 0)%Z _ Hq ltac:(by rewrite Hn)) as (Hf & Hv & Hp).
  destruct (Z.ltb_spec z 0) as [Hneg|Hpos].
  - unfold rounded in *. 
    destruct (Qle_bool _ _); [done|].
    destruct (Qeq_bool (nearest (inject_Z (Z.abs z))) 0) eqn:E.
    { apply Qeq_bool_iff in E. rewrite Hn in E.
      unfold Qeq in E. cbn in E. lia. }
    f_equal. apply Q2Qc_comp. rewrite Hn, <- inject_Z_opp. f_equiv. lia.
  - rewrite Hp by done. f_equal. apply Q2Qc_comp. rewrite Hn. f_equiv. lia.
Qed.

Lemma dofZ_val (z : Z) : small z -> dfin (dofZ z) /\ dval (dofZ z) == inject_Z z.
Proof. intros Hz. rewrite dofZ_small by done. split; [done|apply dval_Q2Qc]. Qed.

(** A double between two small integers is finite. *)
Lemma between_fin x (a b : Z) :
  small a -> small b -> dleb (dofZ a) x = true -> dleb x (dofZ b) = true ->
  dfin x /\ inject_Z a <= dval x <= inject_Z b.
Proof.
  intros Ha Hb. rewrite !dofZ_small by done. intros H1 H2.
  destruct x as [v| |[]|]; try done.
  - split; [done|]. apply (dleb_fin (DFin _) (DFin v)) in H1; [|done..].
    apply (dleb_fin (DFin v) (DFin _)) in H2; [|done..].
    rewrite dval_Q2Qc in H1, H2. done.
  - split; [done|]. apply (dleb_fin (DFin _) DNegZero) in H1; [|done..].
    apply (dleb_fin DNegZero (DFin _)) in H2; [|done..].
    rewrite dval_Q2Qc in H1, H2. done.
Qed.

Lemma dsign_nonneg x : dfin x -> 0 <= dval x -> dsign x = true -> dval x == 0.
Proof.
  destruct x as [v| | |]; try done. cbn [dfin dval dsign]. intros _ Hv Hs.
  apply negb_true_iff in Hs.
  assert (Qle_bool 0 v = true) by (by apply Qle_bool_iff). congruence.
Qed.

Lemma Qabs_nonneg_eq q : 0 <= q -> Qabs q == q.
Proof. apply Qabs_pos. Qed.

(** The three operations on finite doubles from 0 up, the divisor
    above 0, when the rounded result does not overflow. *)
Lemma ddiv_val x y :
  dfin x -> dfin y -> 0 <= dval x -> 0 < dval y ->
  nearest (dval x / dval y) < pow2 1024 ->
  dfin (ddiv x y) /\ dval (ddiv x y) == nearest (dval x / dval y).
Proof.
  intros Hx Hy Hvx Hvy Ho.
  assert (0 <= dval x / dval y) as Hq by (apply Qle_shift_div_l; lra).
  assert (Qabs (dval x) / Qabs (dval y) == dval x / dval y) as Habs
    by (by rewrite !Qabs_nonneg_eq by lra).
  assert (0 <= Qabs (dval x) / Qabs (dval y)) as Hq' by (by rewrite Habs).
  pose proof (nearest_comp _ _ Hq' Habs) as Hn.
  assert (ddiv x y
          = rounded (xorb (dsign x) (dsign y)) (Qabs (dval x) / Qabs (dval y))) as ->.
  { destruct y as [w| | |]; try done; try (cbn in Hvy; lra).
    assert (Qeq_bool w 0 = false) as Hz.
    { destruct (Qeq_bool w 0) eqn:E; [|done]. apply Qeq_bool_iff in E.
      cbn in Hvy. lra. }
    destruct x as [v| | |]; try done; cbn [ddiv is_zero]; by rewrite Hz. }
  assert (nearest (Qabs (dval x) / Qabs (dval y)) < pow2 1024) as Ho'
    by (eapply Qle_lt_trans; [apply Qle_lteq; right; exact Hn|exact Ho]).
  destruct (rounded_spec (xorb (dsign x) (dsign y)) _ Hq' Ho') as (Hf & Hv & _).
  split; [done|]. rewrite Hv.
  assert (dsign y = false) as ->.
  { destruct y as [w| | |]; try done; try (cbn in Hvy; lra). cbn [dsign dval] in *.
    apply negb_false_iff, Qle_bool_iff. lra. }
  rewrite xorb_false_r. destruct (dsign x) eqn:Hs; [|exact Hn].
  pose proof (dsign_nonneg x Hx Hvx Hs) as H0.
  assert (dval x / dval y == 0) as Hz by (rewrite H0; unfold Qdiv; ring).
  rewrite Hn, (nearest_zero _ Hz). reflexivity.
Qed.

Lemma dmul_val x y :
  dfin x -> dfin y -> 0 <= dval x -> 0 <= dval y ->
  nearest (dval x * dval y) < pow2 1024 ->
  dfin (dmul x y) /\ dval (dmul x y) == nearest (dval x * dval y).
Proof.
  intros Hx Hy Hvx Hvy Ho.
  assert (0 <= dval x * dval y) as Hq by (by apply Qmult_le_0_compat).
  assert (Qabs (dval x) * Qabs (dval y) == dval x * dval y) as Habs
    by (by rewrite !Qabs_nonneg_eq by lra).
  assert (0 <= Qabs (dval x) * Qabs (dval y)) as Hq' by (by rewrite Habs).
  pose proof (nearest_comp _ _ Hq' Habs) as Hn.
  assert (dmul x y
          = rounded (xorb (dsign x) (dsign y)) (Qabs (dval x) * Qabs (dval y))) as ->.
  { by destruct x as [v| | |], y as [w| | |]. }
  assert (nearest (Qabs (dval x) * Qabs (dval y)) < pow2 1024) as Ho'
    by (eapply Qle_lt_trans; [apply Qle_lteq; right; exact Hn|exact Ho]).
  destruct (rounded_spec (xorb (dsign x) (dsign y)) _ Hq' Ho') as (Hf & Hv & _).
  split; [done|]. rewrite Hv.
  destruct (xorb (dsign x) (dsign y)) eqn:Hs; [|exact Hn].
  assert (dval x * dval y == 0) as Hz.
  { destruct (dsign x) eqn:Hsx.
    - rewrite (dsign_nonneg x Hx Hvx Hsx). ring.
    - cbn in Hs. rewrite (dsign_nonneg y Hy Hvy Hs). ring. }
  rewrite Hn, (nearest_zero _ Hz). reflexivity.
Qed.

Lemma dadd_val x y :
  dfin x -> dfin y -> 0 <= dval x -> 0 <= dval y ->
  nearest (dval x + dval y) < pow2 1024 ->
  dfin (dadd x y) /\ dval (dadd x y) == nearest (dval x + dval y).
Proof.
  intros Hx Hy Hvx Hvy Ho.
  assert (0 <= dval x + dval y) as Hq by lra.
  assert (dadd x y
          = if Qeq_bool (dval x + dval y) 0 then dzero (dsign x && dsign y)
            else if Qle_bool 0 (dval x + dval y) then rounded false (dval x + dval y)
            else rounded true (- (dval x + dval y))) as ->.
  { by destruct x as [v| | |], y as [w| | |]. }
  destruct (Qeq_bool (dval x + dval y) 0) eqn:E.
  - apply Qeq_bool_iff in E. rewrite (nearest_zero _ E).
    by destruct (dsign x && dsign y).
  - assert (Qle_bool 0 (dval x + dval y) = true) as -> by (by apply Qle_bool_iff).
    destruct (rounded_spec false _ Hq Ho) as (Hf & Hv & _). done.
Qed.
End DoubleFacts.

Section DoubleLaws.
Local Open Scope Q_scope.
Implicit Types (x y : double) (q : Q).

Lemma dleb_trans x y z : dleb x y = true -> dleb y z = true -> dleb x z = true.
Proof.
  destruct x as [u| |[]|], y as [v| |[]|], z as [w| |[]|]; cbn; try done;
    rewrite !Qle_bool_iff; lra.
Qed.

Lemma inject_Z_nonneg (z : Z) : (0 <= z)%Z -> 0 <= inject_Z z.
Proof. intros Hz. rewrite <- (Zle_Qle 0). done. Qed.

Lemma inject_Z_pos (z : Z) : (0 < z)%Z -> 0 < inject_Z z.
Proof. intros Hz. rewrite <- (Zlt_Qlt 0). done. Qed.

(** A finite double from 0 to a small integer, divided by an integer
    from 1 up, multiplied by one or added to another such double. *)
Lemma ddiv_bounded x (c b : Z) :
  (0 < c)%Z -> small c -> (0 <= b)%Z -> small b ->
  dfin x -> 0 <= dval x <= inject_Z b ->
  dfin (ddiv x (dofZ c))
  /\ dval (ddiv x (dofZ c)) == nearest (dval x / inject_Z c).
Proof.
  intros Hc Hsc Hb Hsb Hx Hv. unfold small in Hsb.
  destruct (dofZ_val c Hsc) as [Hfc Hvc].
  pose proof (inject_Z_pos c Hc) as Hcq.
  assert (1 <= inject_Z c) as Hc1 by (rewrite <- (Zle_Qle 1); lia).
  assert (0 <= dval x / dval (dofZ c)) as Hq
    by (apply Qle_shift_div_l; [rewrite Hvc|]; lra).
  assert (dval x / dval (dofZ c) == dval x / inject_Z c) as Heq by (by rewrite Hvc).
  pose proof (nearest_comp _ _ Hq Heq) as Hn.
  assert (dval x / inject_Z c <= inject_Z b) as Hle.
  { apply Qle_shift_div_r; [done|]. nra. }
  assert (nearest (dval x / dval (dofZ c)) < pow2 1024) as Ho.
  { eapply Qle_lt_trans; [apply Qle_lteq; right; exact Hn|].
    eapply Qle_lt_trans; [|apply (small_no_overflow b); lia].
    apply nearest_small; [lia|by rewrite <- Heq|done]. }
  destruct (ddiv_val x (dofZ c) Hx Hfc ltac:(lra) ltac:(rewrite Hvc; lra) Ho)
    as [Hf Hval].
  split; [done|]. by rewrite Hval.
Qed.

Lemma dmul_bounded x (c b : Z) :
  (0 < c)%Z -> small c -> (0 <= b)%Z -> small (b * c) ->
  dfin x -> 0 <= dval x <= inject_Z b ->
  dfin (dmul x (dofZ c))
  /\ dval (dmul x (dofZ c)) == nearest (dval x * inject_Z c).
Proof.
  intros Hc Hsc Hb Hsb Hx Hv. unfold small in Hsb.
  destruct (dofZ_val c Hsc) as [Hfc Hvc].
  pose proof (inject_Z_pos c Hc) as Hcq.
  assert (0 <= dval x * dval (dofZ c)) as Hq
    by (apply Qmult_le_0_compat; [|rewrite Hvc]; lra).
  assert (dval x * dval (dofZ c) == dval x * inject_Z c) as Heq by (by rewrite Hvc).
  pose proof (nearest_comp _ _ Hq Heq) as Hn.
  assert (dval x * inject_Z c <= inject_Z (b * c)) as Hle.
  { rewrite inject_Z_mult. nra. }
  assert (nearest (dval x * dval (dofZ c)) < pow2 1024) as Ho.
  { eapply Qle_lt_trans; [apply Qle_lteq; right; exact Hn|].
    eapply Qle_lt_trans; [|apply (small_no_overflow (b * c)); nia].
    apply nearest_small; [nia|by rewrite <- Heq|done]. }
  destruct (dmul_val x (dofZ c) Hx Hfc ltac:(lra) ltac:(rewrite Hvc; lra) Ho)
    as [Hf Hval].
  split; [done|]. by rewrite Hval.
Qed.

Lemma dadd_bounded x y (b b' : Z) :
  (0 <= b)%Z -> (0 <= b')%Z -> small (b + b') ->
  dfin x -> 0 <= dval x <= inject_Z b ->
  dfin y -> 0 <= dval y <= inject_Z b' ->
  dfin (dadd x y) /\ dval (dadd x y) == nearest (dval x + dval y).
Proof.
  intros Hb Hb' Hs Hx Hvx Hy Hvy. unfold small in Hs.
  assert (dval x + dval y <= inject_Z (b + b')) as Hle
    by (rewrite inject_Z_plus; lra).
  apply dadd_val; try done; try lra.
  eapply Qle_lt_trans; [|apply (small_no_overflow (b + b')); lia].
  apply nearest_small; [lia|lra|done].
Qed.

(** With the sign bits clear the results are [DFin]. *)
Lemma rounded_false q :
  0 <= q -> nearest q < pow2 1024 -> rounded false q = DFin (Q2Qc (nearest q)).
Proof. intros Hq Ho. by apply (rounded_spec false q Hq Ho). Qed.

Lemma DFin_small (v : Qc) (z : Z) : v == inject_Z z -> DFin v = DFin (Q2Qc (inject_Z z)).
Proof.
  intros Hv. f_equal. apply Qc_is_canon. cbn [this Q2Qc]. by rewrite Qred_correct.
Qed.

Lemma Qle_bool_nonneg (z : Z) : (0 <= z)%Z -> Qle_bool 0 (Q2Qc (inject_Z z)) = true.
Proof.
  intros Hz. apply Qle_bool_iff. cbn [this Q2Qc]. rewrite Qred_correct.
  by apply inject_Z_nonneg.
Qed.

Lemma Qeq_bool_pos (z : Z) : (0 < z)%Z -> Qeq_bool (Q2Qc (inject_Z z)) 0 = false.
Proof.
  intros Hz. destruct (Qeq_bool _ _) eqn:E; [|done].
  apply Qeq_bool_iff in E. cbn [this Q2Qc] in E. rewrite Qred_correct in E.
  pose proof (inject_Z_pos z Hz). lra.
Qed.

Lemma Qabs_small (z : Z) : (0 <= z)%Z -> Qabs (Q2Qc (inject_Z z)) == inject_Z z.
Proof.
  intros Hz. rewrite Qabs_pos; cbn [this Q2Qc]; rewrite Qred_correct;
    [done|by apply inject_Z_nonneg].
Qed.

Lemma ddiv_exact (a c : Z) :
  (0 <= a)%Z -> (0 < c)%Z -> small c -> small (a * c) ->
  ddiv (dofZ (a * c)) (dofZ c) = dofZ a.
Proof.
  intros Ha Hc Hsc Hsac.
  assert (small a) as Hsa by (unfold small in *; nia).
  rewrite !dofZ_small by done. cbn [ddiv is_zero dsign dval].
  rewrite Qeq_bool_pos, !Qle_bool_nonneg by (lia || nia). cbn [negb xorb].
  assert (Qabs (Q2Qc (inject_Z (a * c))) / Qabs (Q2Qc (inject_Z c)) == inject_Z a) as Hq.
  { rewrite !Qabs_small by (lia || nia). rewrite inject_Z_mult. field.
    pose proof (inject_Z_pos c Hc). lra. }
  pose proof (inject_Z_nonneg a Ha) as Ha0.
  pose proof (nearest_int _ a ltac:(unfold small in Hsa; lia) Hq) as Hn.
  rewrite rounded_false.
  - f_equal. apply Q2Qc_comp. exact Hn.
  - by rewrite Hq.
  - eapply Qle_lt_trans; [apply Qle_lteq; right; exact Hn|].
    apply small_no_overflow. unfold small in Hsa. lia.
Qed.

Lemma dmul_exact (a b : Z) :
  (0 <= a)%Z -> (0 <= b)%Z -> small a -> small b -> small (a * b) ->
  dmul (dofZ a) (dofZ b) = dofZ (a * b).
Proof.
  intros Ha Hb Hsa Hsb Hs.
  rewrite !dofZ_small by done. cbn [dmul dsign dval].
  rewrite !Qle_bool_nonneg by (lia || nia). cbn [negb xorb].
  assert (Qabs (Q2Qc (inject_Z a)) * Qabs (Q2Qc (inject_Z b)) == inject_Z (a * b)) as Hq.
  { rewrite !Qabs_small by lia. by rewrite inject_Z_mult. }
  pose proof (inject_Z_nonneg (a * b) ltac:(nia)) as H0.
  pose proof (nearest_int _ (a * b) ltac:(unfold small in Hs; nia) Hq) as Hn.
  rewrite rounded_false.
  - f_equal. apply Q2Qc_comp. exact Hn.
  - by rewrite Hq.
  - eapply Qle_lt_trans; [apply Qle_lteq; right; exact Hn|].
    apply small_no_overflow. unfold small in Hs. nia.
Qed.

Lemma dadd_exact (a b : Z) :
  (0 <= a)%Z -> (0 <= b)%Z -> small (a + b) ->
  dadd (dofZ a) (dofZ b) = dofZ (a + b).
Proof.
  intros Ha Hb Hs.
  assert (small a /\ small b) as [Hsa Hsb] by (unfold small in *; lia).
  rewrite !dofZ_small by done. cbn [dadd dsign dval].
  set (v := (Q2Qc (inject_Z a) + Q2Qc (inject_Z b))%Q).
  assert (v == inject_Z (a + b)) as Hv.
  { unfold v. cbn [this Q2Qc]. by rewrite !Qred_correct, inject_Z_plus. }
  pose proof (inject_Z_nonneg (a + b) ltac:(lia)) as H0.
  pose proof (nearest_int _ (a + b) ltac:(unfold small in Hs; lia) Hv) as Hn.
  destruct (Qeq_bool v 0) eqn:E.
  - apply Qeq_bool_iff in E. rewrite !Qle_bool_nonneg by lia. cbn [negb andb dzero].
    apply DFin_small. cbn [this Q2Qc]. rewrite Qred_correct. by rewrite <- Hv, E.
  - assert (Qle_bool 0 v = true) as -> by (apply Qle_bool_iff; by rewrite Hv).
    rewrite rounded_false.
    + f_equal. apply Q2Qc_comp. exact Hn.
    + by rewrite Hv.
    + eapply Qle_lt_trans; [apply Qle_lteq; right; exact Hn|].
      apply small_no_overflow. unfold small in Hs. lia.
Qed.

(** [Math.round] of a double between two small integers from 0 up. *)
Lemma dround_between x (a b : Z) :
  (0 <= a)%Z -> small a -> small b ->
  dleb (dofZ a) x = true -> dleb x (dofZ b) = true ->
  exists k : Z,
    (dleb (dround x) (dofZ k) = true /\ dleb (dofZ k) (dround x) = true)
    /\ (a <= k <= b)%Z.
Proof.
  intros Ha Hsa Hsb H1 H2.
  destruct (between_fin x a b Hsa Hsb H1 H2) as [Hf [Hlo Hhi]].
  assert (forall z : Z, Qfloor (inject_Z z + (1 # 2)) = z) as Hfl.
  { intros z. unfold Qfloor, Qplus, inject_Z. cbn [Qnum Qden].
    change (Z.pos (1 * 2)) with 2%Z. symmetry.
    apply (Z.div_unique _ 2 z 1); lia. }
  destruct x as [v| | |]; try done.
  - set (z := Qfloor (v + (1 # 2))).
    assert (a <= z <= b)%Z as Hz.
    { split.
      - rewrite <- (Hfl a). apply Qfloor_resp_le. cbn [dval] in Hlo. lra.
      - rewrite <- (Hfl b). apply Qfloor_resp_le. cbn [dval] in Hhi. lra. }
    assert (small z) as Hsz by (unfold small in *; lia).
    exists z. split; [|done]. unfold dround. cbn [dinteger]. fold z.
    rewrite (dofZ_small z Hsz).
    destruct (Z.eqb_spec z 0) as [Hz0|Hz0].
    + rewrite Hz0. by destruct (dsign (DFin v)).
    + split; apply (dleb_fin (DFin _) (DFin _)); try done; apply Qle_refl.
  - exists 0%Z. cbn [dval] in Hlo, Hhi.
    assert (a = 0)%Z as -> by (pose proof (inject_Z_nonneg a Ha);
      assert (inject_Z a == 0) as E by lra; unfold Qeq in E; cbn in E; lia).
    split; [done|]. split; [lia|]. rewrite (Zle_Qle 0). done.
Qed.

Lemma ieee754_laws : JSArithLaws ieee754.
Proof.
  split; unfold fle, feq, fle; cbn [F ofZ fadd fmul fdiv Math_round fleb ieee754].
  - apply dleb_trans.
  - intros a b Ha Hb Hab. rewrite !dofZ_small by done.
    apply (dleb_fin (DFin _) (DFin _)); [done..|]. rewrite !dval_Q2Qc.
    by rewrite <- Zle_Qle.
  - apply ddiv_exact.
  - intros x y c b Hc Hsc Hb Hsb H0 Hxy Hyb.
    assert (small 0) as Hs0 by (unfold small; lia).
    destruct (between_fin x 0 b Hs0 Hsb H0 (dleb_trans _ _ _ Hxy Hyb)) as [Hfx Hvx].
    destruct (between_fin y 0 b Hs0 Hsb (dleb_trans _ _ _ H0 Hxy) Hyb) as [Hfy Hvy].
    destruct (ddiv_bounded x c b Hc Hsc Hb Hsb Hfx Hvx) as [Hf1 Hv1].
    destruct (ddiv_bounded y c b Hc Hsc Hb Hsb Hfy Hvy) as [Hf2 Hv2].
    apply dleb_fin; [done..|]. rewrite Hv1, Hv2.
    apply (proj1 (dleb_fin x y Hfx Hfy)) in Hxy.
    pose proof (inject_Z_pos c Hc) as Hcq.
    change (inject_Z 0) with 0 in *.
    apply nearest_mono.
    + apply Qle_shift_div_l; lra.
    + apply Qle_shift_div_l; [done|].
      assert (dval x / inject_Z c * inject_Z c == dval x) as -> by (field; lra).
      done.
  - apply dmul_exact.
  - intros x y c b Hc Hsc Hb Hsb H0 Hxy Hyb.
    assert (small 0) as Hs0 by (unfold small; lia).
    assert (small b) as Hsb' by (unfold small in *; nia).
    destruct (between_fin x 0 b Hs0 Hsb' H0 (dleb_trans _ _ _ Hxy Hyb)) as [Hfx Hvx].
    destruct (between_fin y 0 b Hs0 Hsb' (dleb_trans _ _ _ H0 Hxy) Hyb) as [Hfy Hvy].
    destruct (dmul_bounded x c b Hc Hsc Hb Hsb Hfx Hvx) as [Hf1 Hv1].
    destruct (dmul_bounded y c b Hc Hsc Hb Hsb Hfy Hvy) as [Hf2 Hv2].
    apply dleb_fin; [done..|]. rewrite Hv1, Hv2.
    apply (proj1 (dleb_fin x y Hfx Hfy)) in Hxy.
    pose proof (inject_Z_pos c Hc) as Hcq.
    change (inject_Z 0) with 0 in *.
    apply nearest_mono; [apply Qmult_le_0_compat; lra|].
    apply Qmult_le_compat_r; lra.
  - apply dadd_exact.
  - intros x y x' y' b b' Hb Hb' Hs H0 Hxy Hyb H0' Hxy' Hyb'.
    assert (small 0) as Hs0 by (unfold small; lia).
    assert (small b /\ small b') as [Hsb Hsb'] by (unfold small in *; lia).
    destruct (between_fin x 0 b Hs0 Hsb H0 (dleb_trans _ _ _ Hxy Hyb)) as [Hfx Hvx].
    destruct (between_fin y 0 b Hs0 Hsb (dleb_trans _ _ _ H0 Hxy) Hyb) as [Hfy Hvy].
    destruct (between_fin x' 0 b' Hs0 Hsb' H0' (dleb_trans _ _ _ Hxy' Hyb'))
      as [Hfx' Hvx'].
    destruct (between_fin y' 0 b' Hs0 Hsb' (dleb_trans _ _ _ H0' Hxy') Hyb')
      as [Hfy' Hvy'].
    destruct (dadd_bounded x x' b b' Hb Hb' Hs Hfx Hvx Hfx' Hvx') as [Hf1 Hv1].
    destruct (dadd_bounded y y' b b' Hb Hb' Hs Hfy Hvy Hfy' Hvy') as [Hf2 Hv2].
    apply dleb_fin; [done..|]. rewrite Hv1, Hv2.
    apply (proj1 (dleb_fin x y Hfx Hfy)) in Hxy.
    apply (proj1 (dleb_fin x' y' Hfx' Hfy')) in Hxy'.
    change (inject_Z 0) with 0 in *.
    apply nearest_mono; lra.
  - apply dround_between.
Qed.
End DoubleLaws.

(** Exact rational arithmetic obeys the laws. *)
Lemma Qc_of_Z_pos (c : Z) : 0 < c -> (0 < Qc_of_Z c)%Qc.
Proof. intros Hc. rewrite <- Z2Qc_inj_0. by apply (proj1 (Z2Qc_inj_lt 0 c)). Qed.

Lemma Qc_round_mono (x y : Qc) :
  (x <= y)%Qc -> Qfloor (x + Q2Qc (1 # 2))%Qc <= Qfloor (y + Q2Qc (1 # 2))%Qc.
Proof.
  intros Hxy. apply Qfloor_resp_le.
  by apply (proj1 (Qcplus_le_mono_r x y (Q2Qc (1 # 2)))).
Qed.

Lemma Qc_round_floor (a : Z) : Qfloor (Qc_of_Z a + Q2Qc (1 # 2))%Qc = a.
Proof. apply Z2Qc_inj. apply (Qc_round_of_Z a). Qed.

Lemma exactArith_laws : JSArithLaws exactArith.
Proof.
  split; unfold feq, fle; cbn [F ofZ fadd fmul fdiv Math_round fleb exactArith].
  - intros x y z Hxy%bool_decide_eq_true Hyz%bool_decide_eq_true.
    apply bool_decide_eq_true. by apply Qcle_trans with y.
  - intros a b _ _ Hab. apply bool_decide_eq_true. by apply (proj1 (Z2Qc_inj_le a b)).
  - intros a c _ Hc _ _. rewrite Z2Qc_inj_mul. unfold Qcdiv.
    rewrite <- Qcmult_assoc, Qcmult_inv_r, Qcmult_1_r; [done|].
    intros H0. apply Qc_of_Z_pos in Hc. rewrite H0 in Hc.
    by apply Qclt_not_eq in Hc.
  - intros x y c b Hc _ _ _ _ Hxy%bool_decide_eq_true _. apply bool_decide_eq_true.
    unfold Qcdiv. apply Qcmult_le_mono_nonneg_r; [|done].
    by apply Qclt_le_weak, Qcinv_pos, Qc_of_Z_pos.
  - intros a b _ _ _ _ _. by rewrite Z2Qc_inj_mul.
  - intros x y c b Hc _ _ _ _ Hxy%bool_decide_eq_true _. apply bool_decide_eq_true.
    apply Qcmult_le_mono_nonneg_r; [|done].
    by apply Qclt_le_weak, Qc_of_Z_pos.
  - intros a b _ _ _. by rewrite Z2Qc_inj_add.
  - intros x y x' y' b b' _ _ _ _ Hxy%bool_decide_eq_true _
      _ Hxy'%bool_decide_eq_true _.
    apply bool_decide_eq_true. by apply Qcplus_le_compat.
  - intros x a b _ _ _ Hax%bool_decide_eq_true Hxb%bool_decide_eq_true.
    exists (Qfloor (x + Q2Qc (1 # 2))%Qc).
    split; [split; apply bool_decide_eq_true; apply Qcle_refl|].
    split.
    + rewrite <- (Qc_round_floor a) at 1. by apply Qc_round_mono.
    + rewrite <- (Qc_round_floor b) at 1. by apply Qc_round_mono.
Qed.

Section DoubleSign.
Local Open Scope Q_scope.
Implicit Types (x y : double) (q : Q).

Lemma dnn_val x : dnn x -> 0 <= dval x.
Proof.
  destruct x as [v| | |]; cbn; try done; try lra.
  intros H%negb_false_iff. by apply Qle_bool_iff.
Qed.

Lemma dnn_Q2Qc q : 0 <= q -> dnn (DFin (Q2Qc q)).
Proof.
  intros Hq. unfold dnn. cbn [dsign]. apply negb_false_iff, Qle_bool_iff.
  cbn [this Q2Qc]. by rewrite Qred_correct.
Qed.

Lemma dnn_rounded q : 0 <= q -> dnn (rounded false q).
Proof.
  intros Hq. unfold rounded.
  destruct (Qle_bool _ _); [done|]. destruct (Qeq_bool _ _); [done|].
  apply dnn_Q2Qc. by apply nearest_nonneg.
Qed.

Lemma dnn_dofZ (z : Z) : (0 <= z)%Z -> dnn (dofZ z).
Proof.
  intros Hz. unfold dofZ. rewrite (proj2 (Z.ltb_ge z 0)) by done.
  apply dnn_rounded. rewrite <- (Zle_Qle 0). lia.
Qed.

Lemma dnn_ddiv x y : dnn x -> dnn y -> dnn (ddiv x y).
Proof.
  intros Hx Hy. pose proof (Qabs_nonneg (dval x)). pose proof (Qabs_nonneg (dval y)).
  assert (0 <= Qabs (dval x) / Qabs (dval y)) as Hq.
  { unfold Qdiv. apply Qmult_le_0_compat; [done|]. by apply Qinv_le_0_compat. }
  unfold dnn in *.
  destruct x as [v| |[]|], y as [w| |[]|]; try done; cbn [ddiv is_zero];
    rewrite ?Hx, ?Hy; cbn [xorb dzero];
    repeat (destruct (Qeq_bool _ _)); try done; by apply dnn_rounded.
Qed.

Lemma dnn_dmul x y : dnn x -> dnn y -> dnn (dmul x y).
Proof.
  intros Hx Hy. pose proof (Qabs_nonneg (dval x)). pose proof (Qabs_nonneg (dval y)).
  assert (0 <= Qabs (dval x) * Qabs (dval y)) as Hq by (by apply Qmult_le_0_compat).
  unfold dnn in *.
  destruct x as [v| |[]|], y as [w| |[]|]; try done; cbn [dmul is_zero];
    rewrite ?Hx, ?Hy; cbn [xorb dzero];
    repeat (destruct (Qeq_bool _ _)); try done; by apply dnn_rounded.
Qed.

Lemma dnn_dadd x y : dnn x -> dnn y -> dnn (dadd x y).
Proof.
  intros Hx Hy. pose proof (dnn_val x Hx). pose proof (dnn_val y Hy).
  unfold dnn in *.
  destruct x as [v| |[]|], y as [w| |[]|]; try done; cbn [dadd].
  rewrite Hx, Hy. cbn [andb dzero]. destruct (Qeq_bool _ _); [done|].
  assert (Qle_bool 0 (dval (DFin v) + dval (DFin w)) = true) as ->
    by (apply Qle_bool_iff; lra).
  apply dnn_rounded. lra.
Qed.

Lemma dnn_dround x : dnn x -> dnn (dround x).
Proof.
  intros Hx. pose proof (dnn_val x Hx) as Hv. unfold dround.
  destruct x as [v| | |]; try done. cbn [dinteger dval] in *.
  destruct (Z.eqb_spec (Qfloor (v + (1 # 2))) 0) as [_|_].
  - unfold dnn in Hx. by rewrite Hx.
  - apply dnn_Q2Qc. rewrite <- (Zle_Qle 0).
    rewrite <- (Qfloor_Z 0). apply Qfloor_resp_le.
    change (inject_Z 0) with 0. lra.
Qed.

(** The score has its sign bit clear. *)
Lemma dnn_compatibilityScore (n len S G : Z) :
  (0 <= n)%Z -> (0 <= len)%Z -> (0 <= S)%Z -> (0 <= G)%Z ->
  dnn (@compatibilityScore ieee754 n len S G).
Proof.
  intros Hn Hlen HS HG. unfold compatibilityScore.
  cbn [F ofZ fadd fmul fdiv Math_round ieee754].
  apply dnn_dround, dnn_dadd; apply dnn_dmul;
    repeat first [apply dnn_ddiv | apply dnn_dofZ]; (done || lia).
Qed.

(** A double with its sign bit clear that equals a small integer as a
    number is that integer. *)
Lemma dnn_feq x (k : Z) :
  small k -> dnn x -> dleb x (dofZ k) = true -> dleb (dofZ k) x = true ->
  x = dofZ k.
Proof.
  intros Hk Hx H1 H2.
  destruct (between_fin x k k Hk Hk H2 H1) as [Hf Hv].
  rewrite dofZ_small by done.
  destruct x as [v| | |]; try done.
  apply DFin_small. cbn [dval] in Hv. lra.
Qed.
End DoubleSign.

Lemma double_eqb_eq (x y : double) : double_eqb x y = true -> x = y.
Proof.
  destruct x as [v| |s|], y as [w| |s'|]; cbn; try done.
  - intros H%Qeq_bool_iff. f_equal. by apply Qc_is_canon.
  - intros H. f_equal. by apply Bool.eqb_prop.
Qed.

Lemma ofZ_ieee754 (z : Z) : @ofZ ieee754 z = dofZ z.
Proof. reflexivity. Qed.

Lemma feq_ieee754 (x : double) (k : Z) :
  small k -> dnn x -> @feq ieee754 x (@ofZ ieee754 k) -> x = @ofZ ieee754 k.
Proof. intros Hk Hx [H1 H2]. exact (dnn_feq x k Hk Hx H1 H2). Qed.

(** C8, amended. In binary64, the arithmetic of the code, with each
    division, multiplication and addition rounded to the nearest
    double: with fewer than 2 participants the score is 0; with
    [n >= 2] it is [Math.round] of [(mean of the 48 counts / n) * 60 +
    (goldenSlots / 48) * 40], the operations in the order written, where
    [goldenSlots] counts the slots of today's grid whose count is at
    least [Math.ceil(n * 0.8)]; in both cases it is an integer from 0 to
    100, for a JavaScript array, of fewer than [2^32] elements. The
    cache holds for today's key nothing, or a grid of 48 slots built
    for [n] participants. *)
Theorem calculateTimezoneCompatibility_spec `{Platform} (st : State) :
  let n := Z.of_nat (length (st_participants st)) in
  (forall g, st_cache st !! cacheKey (baseDate 0) (st_participants st) = Some g ->
             length g = 48%nat /\ grid_bounded (length (st_participants st)) g) ->
  let result := (@calculateTimezoneCompatibility _ ieee754 st).1 in
  (n < 2 -> result = dofZ 0)
  /\ (2 <= n ->
      let slots := (calculateSlotAvailability st (baseDate 0)).1 in
      let golden :=
        Z.of_nat (length (List.filter
          (fun s => dleb (dceil (dmul (dofZ n) (rounded false (4 # 5))))
                         (dofZ (slot_count s)))
          slots)) in
      length slots = 48%nat
      /\ result
         = dround
             (dadd (dmul (ddiv (ddiv (dofZ (sumCounts slots)) (dofZ 48)) (dofZ n))
                         (dofZ 60))
                   (dmul (ddiv (dofZ golden) (dofZ 48)) (dofZ 40))))
  /\ (n < 2 ^ 32 -> exists k, result = dofZ k /\ 0 <= k <= 100).
Proof.
  intros n Hcache result. subst result.
  destruct (todays_grid_bounded st Hcache) as [Hlen Hb].
  destruct (@calculateTimezoneCompatibility_formula _ ieee754 st) as [Hfew Hmany].
  fold n in Hfew, Hmany.
  split; [exact Hfew|]. split.
  - intros Hn. cbv zeta. split; [done|]. rewrite (Hmany Hn).
    unfold compatibilityOf, compatibilityScore, goldenSlots, goldenThreshold.
    by rewrite Hlen.
  - intros Hn32. destruct (Z.lt_ge_cases n 2) as [Hlt|Hge].
    + exists 0. split; [|lia]. rewrite (Hfew Hlt). apply ofZ_ieee754.
    + rewrite (Hmany Hge).
      destruct (@compatibilityOf_range _ ieee754 ieee754_laws st _
                  ltac:(fold n; lia) Hlen Hb) as (k & Hfeq & Hk).
      exists k. split; [|done]. rewrite <- ofZ_ieee754.
      apply feq_ieee754; [unfold small; lia| |exact Hfeq].
      unfold compatibilityOf. apply dnn_compatibilityScore.
      * lia.
      * lia.
      * apply (sumCounts_bounds _ _ Hb).
      * unfold goldenSlots. lia.
Qed.

Lemma calculateTimezoneCompatibility_spec_witness :
  exists k,
    (@calculateTimezoneCompatibility ex_platform ieee754 ex_tie).1 = dofZ k
    /\ 0 <= k <= 100.
Proof.
  refine (proj2 (proj2
    (@calculateTimezoneCompatibility_spec ex_platform ex_tie _)) _).
  - intros g Hg. simpl in Hg. by rewrite lookup_empty in Hg.
  - reflexivity.
Defined.

(** * The score on doubles *)

(** C8, the claim as stated fails when its formula is read in exact
    arithmetic. Ann and Bo are free all day and Cy for two slots: the
    counts sum to 98 and 2 slots are golden, so that the formula is worth
    (98/48/3)*60 + (2/48)*40 = 42.5, which rounds to 43. The doubles of
    the code make the sum 42.49999999999999 and [Math.round] returns
    42, in binary64 as defined and on the doubles of the kernel. *)
Lemma compatibility_tie_rounds_down :
  (@calculateTimezoneCompatibility ex_platform ieee754 ex_tie).1 = dofZ 42
  /\ (@calculateTimezoneCompatibility ex_platform binary64 ex_tie).1 = float_of_Z 42
  /\ (@calculateTimezoneCompatibility ex_platform exactArith ex_tie).1 = Qc_of_Z 43.
Proof.
  split; [apply double_eqb_eq; vm_compute; reflexivity|].
  split; [vm_compute; reflexivity|].
  apply Qc_is_canon. vm_compute. reflexivity.
Qed.

(** The rounding of the definition is that of the kernel's doubles: on
    every pair of the sample the product, the quotient, the sum and the
    comparison agree, as do [Math.round] and [Math.ceil] on every
    element, and the literal [0.8]. *)
Lemma ieee754_agrees_with_kernel :
  agree2 PrimFloat.mul dmul = true
  /\ agree2 PrimFloat.div ddiv = true
  /\ agree2 PrimFloat.add dadd = true
  /\ agree_leb = true
  /\ agree1 (float_to_integer round_half_up) dround = true
  /\ agree1 (float_to_integer ceiling) dceil = true
  /\ double_eqb (double_of_float (@f0_8 binary64)) (@f0_8 ieee754) = true.
Proof.
  split; [vm_compute; reflexivity|].
  split; [vm_compute; reflexivity|].
  split; [vm_compute; reflexivity|].
  split; [vm_compute; reflexivity|].
  split; [vm_compute; reflexivity|].
  split; vm_compute; reflexivity.
Qed.

(** The two give the same score for two and for three participants,
    whatever the sum of the counts, when no slot is golden, when two are
    and when all are. *)
Lemma ieee754_scores_agree_with_kernel :
  scores_agree 2 [0; 48] = true /\ scores_agree 3 [0; 2; 48] = true.
Proof. split; vm_compute; reflexivity. Qed.

(** The arithmetic of [calculatePairOverlap] is exact on doubles: for
    each of the 49 possible counts, [Math.round((k * 0.5) * 10) / 10] is
    the double [k * 0.5]. *)
Lemma pair_overlap_exact_in_binary64 :
  forallb (fun k =>
    let half := PrimFloat.div (float_of_Z 1) (float_of_Z 2) in
    let hours := PrimFloat.mul (float_of_Z k) half in
    PrimFloat.eqb
      (PrimFloat.div
         (float_to_integer round_half_up (PrimFloat.mul hours (float_of_Z 10)))
         (float_of_Z 10))
      hours)
    (seqZ 0 49) = true.
Proof. vm_compute. reflexivity. Qed.

(** * Further properties of the grid *)

Section GridExtra.
Context {P : Platform}.

Lemma slotAt_participants (excl : bool) (d : JSDate) (j : nat) (ps : list Participant) :
  forall s,
    slot_participants (foldl (applyAvail excl d j) s ps)
    = slot_participants s ++ omap (entryAt excl d j) ps.
Proof.
  induction ps as [|p ps IH]; intros s; cbn [foldl omap list_omap];
    [by rewrite app_nil_r|].
  rewrite IH. unfold applyAvail, entryAt.
  fold (omap (M := list) (entryAt excl d j) ps).
  destruct (availability excl d p j) as [c|]; cbn [fmap option_fmap option_map];
    [|done].
  cbn [markAvailable slot_participants]. by rewrite <- app_assoc.
Qed.

Lemma length_omap_le {X Y : Type} (f : X -> option Y) (l : list X) :
  (length (omap f l) <= length l)%nat.
Proof.
  induction l as [|x l IH]; cbn [omap list_omap length]; [lia|].
  fold (omap (M := list) f l). destruct (f x); cbn [length]; lia.
Qed.

Lemma availability_lunch (d : JSDate) (p : Participant) (j : nat) :
  availability true d p j
  = if atLunch d j p then None else availability false d p j.
Proof.
  unfold availability, atLunch.
  destruct (localClock _ _) as [[h m]|]; [|done].
  cbn [andb]. by destruct (_ && _).
Qed.

Lemma omap_entry_lunch (d : JSDate) (j : nat) (ps : list Participant) :
  omap (entryAt true d j) ps
  = omap (entryAt false d j) (List.filter (fun p => negb (atLunch d j p)) ps).
Proof.
  induction ps as [|p ps IH]; [done|].
  cbn [omap list_omap List.filter].
  fold (omap (M := list) (entryAt true d j) ps). rewrite IH.
  unfold entryAt at 1. rewrite availability_lunch.
  destruct (atLunch d j p); cbn [negb]; [done|].
  cbn [omap list_omap]. done.
Qed.
Lemma slot_of_buildSlots (st : State) (d : JSDate) (j : nat) (s : Slot) :
  buildSlots st d !! j = Some s ->
  slot_participants s
  = omap (entryAt (st_excludeLunch st) d j) (st_participants st)
  /\ slot_count s = Z.of_nat (length (slot_participants s)).
Proof.
  intros Hj.
  assert (j < 48)%nat as Hlt.
  { rewrite <- (length_buildSlots st d). eapply lookup_lt_Some, Hj. }
  rewrite buildSlots_lookup in Hj by done. injection Hj as <-.
  split.
  - unfold slotAt. by rewrite slotAt_participants.
  - by destruct (slotAt_ok (st_excludeLunch st) d (st_participants st) j).
Qed.
End GridExtra.

(** X1. Slot [j] of a grid that is computed lists, in the order of
    [state.participants], one entry for each participant who is
    available at [j], and no other; its count is the number of these
    entries, hence between 0 and the number of participants. *)
Theorem buildSlots_slot_contents `{Platform} (st : State) (d : JSDate)
    (j : nat) (s : Slot) :
  buildSlots st d !! j = Some s ->
  slot_participants s
  = omap (entryAt (st_excludeLunch st) d j) (st_participants st)
  /\ slot_count s = Z.of_nat (length (slot_participants s))
  /\ 0 <= slot_count s <= Z.of_nat (length (st_participants st)).
Proof.
  intros Hj. destruct (slot_of_buildSlots st d j s Hj) as [Hps Hc].
  split; [done|]. split; [done|].
  rewrite Hc, Hps.
  pose proof (length_omap_le (entryAt (st_excludeLunch st) d j) (st_participants st)).
  lia.
Qed.

Lemma buildSlots_slot_contents_witness :
  let s := mkSlot 1 [mkSlotEntry "Ann" "#14b8a6" false] false in
  slot_participants s
  = omap (@entryAt ex_platform (st_excludeLunch ex_team) (@baseDate ex_platform 0) 18)
         (st_participants ex_team)
  /\ slot_count s = Z.of_nat (length (slot_participants s))
  /\ 0 <= slot_count s <= Z.of_nat (length (st_participants ex_team)).
Proof.
  apply (@buildSlots_slot_contents ex_platform ex_team (@baseDate ex_platform 0) 18).
  vm_compute. reflexivity.
Defined.

(** X2. The grid computed with the lunch exclusion is the grid computed
    without it from the participants who are not at lunch (local 12:00
    to 12:59) at the slot: the exclusion removes entries, never adds or
    changes one, and no count grows. *)
Theorem excludeLunch_only_removes `{Platform} (st : State) (d : JSDate)
    (j : nat) (s s' : Slot) :
  buildSlots (set_excludeLunch true st) d !! j = Some s ->
  buildSlots (set_excludeLunch false st) d !! j = Some s' ->
  slot_participants s
  = omap (entryAt false d j)
         (List.filter (fun p => negb (atLunch d j p)) (st_participants st))
  /\ slot_participants s `sublist_of` slot_participants s'
  /\ slot_count s <= slot_count s'.
Proof.
  intros Hs Hs'.
  apply slot_of_buildSlots in Hs as (Hps & Hc).
  apply slot_of_buildSlots in Hs' as (Hps' & Hc').
  cbn [set_excludeLunch st_excludeLunch st_participants] in Hps, Hps'.
  rewrite omap_entry_lunch in Hps.
  assert (slot_participants s `sublist_of` slot_participants s') as Hsub.
  { rewrite Hps, Hps'. clear.
    induction (st_participants st) as [|p ps IH]; [done|].
    cbn [List.filter omap list_omap].
    fold (omap (M := list) (entryAt false d j) ps).
    destruct (atLunch d j p); cbn [negb].
    - destruct (entryAt false d j p); [by apply sublist_cons|done].
    - cbn [omap list_omap].
      fold (omap (M := list) (entryAt false d j)
              (List.filter (fun p => negb (atLunch d j p)) ps)).
      destruct (entryAt false d j p); [by apply sublist_skip|done]. }
  split; [done|]. split; [done|].
  rewrite Hc, Hc'. apply sublist_length in Hsub. lia.
Qed.

Lemma excludeLunch_only_removes_witness :
  let s := mkSlot 0 [] false in
  let s' := mkSlot 1 [mkSlotEntry "Ann" "#14b8a6" false] false in
  slot_participants s
  = omap (@entryAt ex_platform false (@baseDate ex_platform 0) 24)
         (List.filter (fun p => negb (@atLunch ex_platform (@baseDate ex_platform 0) 24 p))
                      (st_participants ex_team))
  /\ slot_participants s `sublist_of` slot_participants s'
  /\ slot_count s <= slot_count s'.
Proof.
  apply (@excludeLunch_only_removes ex_platform ex_team (@baseDate ex_platform 0) 24);
    vm_compute; reflexivity.
Defined.

(** X3. A request keeps every entry of the cache as it is, touches no
    key but its own, leaves the rest of the state alone, and ends with
    the grid it returns stored under its key. *)
Theorem calculateSlotAvailability_cache_effect `{Platform} (st : State) (d : JSDate) :
  let slots := (calculateSlotAvailability st d).1 in
  let st' := (calculateSlotAvailability st d).2 in
  st' = set_cache (st_cache st') st
  /\ (forall k g, st_cache st !! k = Some g -> st_cache st' !! k = Some g)
  /\ (forall k, k <> cacheKey d (st_participants st) ->
        st_cache st' !! k = st_cache st !! k)
  /\ st_cache st' !! cacheKey d (st_participants st) = Some slots.
Proof.
  cbv zeta. split; [apply calculateSlotAvailability_state|].
  unfold calculateSlotAvailability.
  destruct (st_cache st !! cacheKey d (st_participants st)) as [g0|] eqn:E;
    cbn [fst snd set_cache st_cache].
  - done.
  - split; [|split].
    + intros k g Hk. rewrite lookup_insert_ne; [done|]. intros <-. congruence.
    + intros k Hk. by rewrite lookup_insert_ne.
    + apply lookup_insert_eq.
Qed.

(** X4. A request repeated on the state that the first one left, for
    the same day and with the participants untouched, returns the same
    grid and changes nothing. *)
Theorem calculateSlotAvailability_repeat `{Platform} (st : State) (d : JSDate) :
  calculateSlotAvailability (calculateSlotAvailability st d).2 d
  = calculateSlotAvailability st d.
Proof.
  pose proof (calculateSlotAvailability_again st d) as Hagain.
  by destruct (calculateSlotAvailability st d) as [slots st1].
Qed.

(** X5. On a platform whose day strings have one length, two requests
    share a cache key exactly when they are for the same day string and
    the same ids in the same order. *)
Theorem cacheKey_separates `{Platform} (day1 day2 : nat) (ps1 ps2 : list Participant) :
  dates_uniform ->
  cacheKey (baseDate day1) ps1 = cacheKey (baseDate day2) ps2
  <-> toDateString (baseDate day1) = toDateString (baseDate day2)
      /\ map p_id ps1 = map p_id ps2.
Proof.
  intros Hdates. split.
  - apply cacheKey_inj, Hdates.
  - intros [Hd Hids]. unfold cacheKey. by rewrite Hd, Hids.
Qed.

Lemma cacheKey_separates_witness :
  cacheKey (@baseDate ex_platform 0) (st_participants ex_team)
  = cacheKey (@baseDate ex_platform 1) (st_participants ex_solo)
  <-> toDateString (@baseDate ex_platform 0) = toDateString (@baseDate ex_platform 1)
      /\ map p_id (st_participants ex_team) = map p_id (st_participants ex_solo).
Proof.
  apply (@cacheKey_separates ex_platform 0 1), ex_platform_dates_uniform.
Defined.

(** * Further properties of the ranker *)

Section RankerExtra.
Context {P : Platform}.

Lemma calculateBestTimes_unfold (st : State) :
  cache_wf (st_cache st) ->
  exists raw,
    calculateBestTimes st
    = Some (slice0 (st_maxSuggestions st) (Array_sort byScoreDesc raw),
            stateAtDay st (Z.to_nat (st_days st)))
    /\ forall sug, sug ∈ raw ->
         exists day, (day < Z.to_nat (st_days st))%nat
           /\ candidateOf st (baseDate day) day (gridOfDay st day) sug.
Proof.
  intros Hwf. unfold calculateBestTimes.
  destruct (scanDays_spec st (Z.to_nat (st_days st)) 0 [] Hwf) as (new & Hscan & Hnew).
  change (stateAtDay st 0) with st in Hscan. rewrite Hscan.
  exists new. split; [done|].
  intros sug Hs. destruct (Hnew sug Hs) as (day & Hday & Hc).
  exists day. split; [lia|done].
Qed.

Lemma length_slice0_bound {A : Type} (n : Z) (l : list A) :
  0 <= n -> Z.of_nat (length (slice0 n l)) <= n.
Proof.
  intros Hn. unfold slice0. destruct (Z.ltb_spec n 0); [lia|].
  rewrite length_take. lia.
Qed.

Lemma byScoreDesc_true (a b : Suggestion) :
  byScoreDesc a b = true -> sug_score b <= sug_score a.
Proof. unfold byScoreDesc. intros H%Z.ltb_lt. lia. Qed.

Lemma byScoreDesc_false (a b : Suggestion) :
  byScoreDesc a b = false -> sug_score a <= sug_score b.
Proof. unfold byScoreDesc. intros H%Z.ltb_ge. lia. Qed.

Lemma stateAtDay_sound (st : State) (k : nat) :
  dates_uniform -> cache_sound (st_cache st) ->
  cache_sound (st_cache (stateAtDay st k)).
Proof.
  intros Hd Hs. induction k as [|k IH]; [done|].
  rewrite stateAtDay_S. by apply calculateSlotAvailability_sound.
Qed.

Lemma stateAtDay_keeps (st : State) (k : nat) (key : string) (g : list Slot) :
  st_cache st !! key = Some g -> st_cache (stateAtDay st k) !! key = Some g.
Proof.
  intros Hg. induction k as [|k IH]; [done|].
  rewrite stateAtDay_S. unfold calculateSlotAvailability.
  destruct (st_cache (stateAtDay st k) !! cacheKey _ _) eqn:E;
    cbn [snd set_cache st_cache]; [done|].
  rewrite lookup_insert_ne; [done|]. intros <-. congruence.
Qed.

Lemma gridOfDay_bounded (st : State) (day : nat) :
  dates_uniform -> cache_sound (st_cache st) ->
  length (gridOfDay st day) = 48%nat
  /\ grid_bounded (length (st_participants st)) (gridOfDay st day).
Proof.
  intros Hd Hs. unfold gridOfDay, calculateSlotAvailability.
  pose proof (stateAtDay_sound st day Hd Hs) as Hsound.
  assert (st_participants (stateAtDay st day) = st_participants st) as Hps
    by (by rewrite stateAtDay_state).
  destruct (st_cache (stateAtDay st day) !! _) as [g|] eqn:E; cbn [fst].
  - rewrite <- Hps. by eapply Hsound.
  - split; [apply length_buildSlots|].
    rewrite <- Hps. apply buildSlots_bounded.
Qed.

Lemma windowOf_bounded (n : nat) (g : list Slot) (i : nat) (sn : Z) :
  grid_bounded n g -> grid_bounded n (windowOf g i sn).
Proof.
  unfold grid_bounded, windowOf. intros Hg.
  by apply Forall_take, Forall_drop.
Qed.

Lemma sumCounts_zero (g : list Slot) :
  grid_bounded 0 g -> sumCounts g = 0.
Proof.
  intros Hg. pose proof (sumCounts_bounds 0 g Hg). lia.
Qed.

Lemma length_filter_andb {X : Type} (f g : X -> bool) (l : list X) :
  (length (List.filter (fun x => f x && g x) l) <= length (List.filter f l))%nat.
Proof.
  induction l as [|x l IH]; cbn [List.filter length]; [lia|].
  destruct (f x), (g x); cbn [andb length]; lia.
Qed.

Lemma map_localTimeOf_name (st : State) (t : UTCInstant) (set : list string)
    (ps : list Participant) :
  map lt_name (map (localTimeOf st t set) ps) = map p_name ps
  /\ map lt_color (map (localTimeOf st t set) ps) = map p_color ps
  /\ map lt_priority (map (localTimeOf st t set) ps)
     = map (fun p => priorityOrRequired (p_priority p)) ps.
Proof.
  rewrite !map_map. repeat split; apply map_ext; intros p; unfold localTimeOf;
    by destruct (toLocaleString _ _ _).
Qed.
Lemma requiredScore_nil (ps : list Participant) : requiredScore ps [] = 0.
Proof.
  rewrite requiredScore_count.
  induction ps as [|p ps IH]; [done|].
  cbn [List.filter]. unfold set_has at 1.
  rewrite bool_decide_eq_false_2 by apply not_elem_of_nil.
  rewrite andb_false_r. exact IH.
Qed.

Lemma visitStarts_no_duration (st : State) (d : JSDate) (day : nat)
    (slots : list Slot) (starts : list nat) (results : list Suggestion) :
  slotsNeeded st <= 0 ->
  foldl (visitStart st d day slots) (Some results) starts = Some results.
Proof.
  intros Hsn. induction starts as [|i starts IH]; [done|].
  cbn [foldl]. unfold visitStart at 2.
  rewrite scanWindow_nonpositive, requiredScore_nil by done. exact IH.
Qed.
End RankerExtra.

(** X6. The suggestions come in descending order of score, and there
    are at most [state.maxSuggestions] of them when that number is not
    negative. *)
Theorem calculateBestTimes_ranked `{Platform} (st : State) :
  cache_wf (st_cache st) ->
  exists results st',
    calculateBestTimes st = Some (results, st')
    /\ StronglySorted (fun a b => sug_score b <= sug_score a) results
    /\ (0 <= st_maxSuggestions st ->
        Z.of_nat (length results) <= st_maxSuggestions st).
Proof.
  intros Hwf. destruct (calculateBestTimes_unfold st Hwf) as (raw & Hres & _).
  eexists _, _. split; [exact Hres|]. split.
  - apply slice0_sorted.
    apply (Array_sort_sorted byScoreDesc (fun a b => sug_score b <= sug_score a)).
    + intros a b c Hab Hbc. lia.
    + apply byScoreDesc_true.
    + intros y x Hf%byScoreDesc_false. lia.
  - apply length_slice0_bound.
Qed.

Lemma calculateBestTimes_ranked_witness :
  exists results st',
    @calculateBestTimes ex_platform ex_team = Some (results, st')
    /\ StronglySorted (fun a b => sug_score b <= sug_score a) results
    /\ (0 <= st_maxSuggestions ex_team ->
        Z.of_nat (length results) <= st_maxSuggestions ex_team).
Proof. apply (@calculateBestTimes_ranked ex_platform ex_team), empty_cache_wf. Defined.

(** X7. Every suggestion has a positive score, a list [available]
    without repetition, and in [localTimes] one entry per participant,
    in the order of [state.participants], with the participant's name
    and colour and the priority defaulted to ['required']; an entry is
    marked available only if its name is in [available]. *)
Theorem calculateBestTimes_entries `{Platform} (st : State) :
  cache_wf (st_cache st) ->
  exists results st',
    calculateBestTimes st = Some (results, st')
    /\ forall sug, sug ∈ results ->
         0 < sug_score sug
         /\ NoDup (sug_available sug)
         /\ map lt_name (sug_localTimes sug) = map p_name (st_participants st)
         /\ map lt_color (sug_localTimes sug) = map p_color (st_participants st)
         /\ map lt_priority (sug_localTimes sug)
            = map (fun p => priorityOrRequired (p_priority p)) (st_participants st)
         /\ forall e, e ∈ sug_localTimes sug -> lt_available e = true ->
                      lt_name e ∈ sug_available sug.
Proof.
  intros Hwf.
  destruct (calculateBestTimes_candidates st Hwf) as (results & st' & Hres & Hall).
  exists results, st'. split; [done|].
  intros sug Hsug.
  destruct (Hall sug Hsug) as (day & Hday & i & score0 & set & Hsn & Hi & Hw & Hpos & ->).
  cbn [suggestionAt sug_score sug_available sug_localTimes].
  split; [done|].
  eapply (scanWindow_score _ _ _ (st_participants st)) in Hw as (_ & _ & Hnd);
    [|lia|rewrite length_gridOfDay by done; lia].
  split; [done|].
  destruct (map_localTimeOf_name st (utcInstant (baseDate day) (Z.of_nat i * 30))
              set (st_participants st)) as (Hn & Hc & Hp).
  repeat (split; [done|]).
  intros e (p & -> & Hp')%list_elem_of_fmap. unfold localTimeOf.
  destruct (toLocaleString _ _ _); cbn [lt_available lt_name]; [|done].
  unfold set_has. by intros ?%bool_decide_eq_true.
Qed.

Lemma calculateBestTimes_entries_witness :
  exists results st',
    @calculateBestTimes ex_platform ex_team = Some (results, st')
    /\ forall sug, sug ∈ results ->
         0 < sug_score sug
         /\ NoDup (sug_available sug)
         /\ map lt_name (sug_localTimes sug) = map p_name (st_participants ex_team)
         /\ map lt_color (sug_localTimes sug) = map p_color (st_participants ex_team)
         /\ map lt_priority (sug_localTimes sug)
            = map (fun p => priorityOrRequired (p_priority p)) (st_participants ex_team)
         /\ forall e, e ∈ sug_localTimes sug -> lt_available e = true ->
                      lt_name e ∈ sug_available sug.
Proof. apply (@calculateBestTimes_entries ex_platform ex_team), empty_cache_wf. Defined.

(** X8. When the cached grids are grids of their participants, no score
    exceeds [maxScore], the bound that the suggestion cards divide by:
    [slotsNeeded * participants.length + 2 * totalRequired]. *)
Theorem calculateBestTimes_maxScore `{Platform} (st : State) :
  dates_uniform ->
  cache_wf (st_cache st) ->
  cache_sound (st_cache st) ->
  exists results st',
    calculateBestTimes st = Some (results, st')
    /\ forall sug, sug ∈ results -> 0 < sug_score sug <= maxScore st.
Proof.
  intros Hd Hwf Hsound.
  destruct (calculateBestTimes_candidates st Hwf) as (results & st' & Hres & Hall).
  exists results, st'. split; [done|].
  intros sug Hsug.
  destruct (Hall sug Hsug) as (day & Hday & i & score0 & set & Hsn & Hi & Hw & Hpos & ->).
  cbn [suggestionAt sug_score]. split; [done|].
  destruct (gridOfDay_bounded st day Hd Hsound) as [Hlen Hb].
  eapply (scanWindow_score _ _ _ (st_participants st)) in Hw as (-> & _ & _);
    [|lia|rewrite Hlen; lia].
  unfold windowScore, maxScore.
  pose proof (sumCounts_bounds _ _
    (windowOf_bounded _ _ i (slotsNeeded st) Hb)) as Hsum.
  assert (length (windowOf (gridOfDay st day) i (slotsNeeded st))
          = Z.to_nat (slotsNeeded st)) as Hwlen.
  { unfold windowOf. rewrite length_take, length_drop, Hlen. lia. }
  rewrite Hwlen in Hsum.
  pose proof (length_filter_andb isRequired
    (fun p => presentInSome (p_name p)
                (windowOf (gridOfDay st day) i (slotsNeeded st)))
    (st_participants st)) as Hreq.
  rewrite Z2Nat.id in Hsum by lia.
  lia.
Qed.

Lemma calculateBestTimes_maxScore_witness :
  exists results st',
    @calculateBestTimes ex_platform ex_team = Some (results, st')
    /\ forall sug, sug ∈ results -> 0 < sug_score sug <= maxScore ex_team.
Proof.
  apply (@calculateBestTimes_maxScore ex_platform ex_team).
  - apply ex_platform_dates_uniform.
  - apply empty_cache_wf.
  - apply cache_sound_empty.
Defined.

(** X9. With no participant, and cached grids that are grids of their
    participants, there is no suggestion. *)
Theorem calculateBestTimes_nobody `{Platform} (st : State) :
  dates_uniform ->
  cache_wf (st_cache st) ->
  cache_sound (st_cache st) ->
  st_participants st = [] ->
  exists st', calculateBestTimes st = Some ([], st').
Proof.
  intros Hd Hwf Hsound Hps.
  destruct (calculateBestTimes_candidates st Hwf) as (results & st' & Hres & Hall).
  exists st'. rewrite Hres. do 2 f_equal.
  destruct results as [|sug results]; [done|]. exfalso.
  destruct (Hall sug ltac:(left)) as (day & Hday & i & score0 & set & Hsn & Hi & Hw & Hpos & _).
  destruct (gridOfDay_bounded st day Hd Hsound) as [Hlen Hb].
  eapply (scanWindow_score _ _ _ (st_participants st)) in Hw as (Hs & _ & _);
    [|lia|rewrite Hlen; lia].
  rewrite Hs in Hpos. unfold windowScore in Hpos.
  rewrite Hps in Hpos, Hb. cbn [List.filter length] in Hpos, Hb.
  rewrite (sumCounts_zero _ (windowOf_bounded _ _ i (slotsNeeded st) Hb)) in Hpos.
  lia.
Qed.

Lemma calculateBestTimes_nobody_witness :
  exists st',
    @calculateBestTimes ex_platform (set_participants [] ex_team) = Some ([], st').
Proof.
  apply (@calculateBestTimes_nobody ex_platform (set_participants [] ex_team)).
  - apply ex_platform_dates_uniform.
  - apply empty_cache_wf.
  - apply cache_sound_empty.
  - reflexivity.
Defined.

(** X10. A duration of zero or less needs no slot: every window is
    empty, scores 0, and there is no suggestion, whatever the cache
    holds. *)
Theorem calculateBestTimes_no_duration `{Platform} (st : State) :
  st_duration st <= 0 ->
  exists st', calculateBestTimes st = Some ([], st').
Proof.
  intros Hdur.
  assert (slotsNeeded st <= 0) as Hsn.
  { unfold slotsNeeded.
    pose proof (Z.div_pos (- st_duration st) 30 ltac:(lia) ltac:(lia)). lia. }
  assert (forall days s results,
            slotsNeeded s <= 0 ->
            exists st', scanDays s days results = Some (results, st')) as Hdays.
  { induction days as [|day days IH]; intros s results Hs; [by eexists|].
    cbn [scanDays].
    pose proof (calculateSlotAvailability_state s (baseDate day)) as Hst.
    destruct (calculateSlotAvailability s (baseDate day)) as [slots s1] eqn:E.
    cbn [snd] in Hst.
    unfold scanDay. rewrite visitStarts_no_duration by done.
    apply IH. by rewrite Hst. }
  unfold calculateBestTimes.
  destruct (Hdays (seq 0 (Z.to_nat (st_days st))) st [] Hsn) as [st' ->].
  exists st'. unfold slice0, Array_sort. cbn [foldr].
  by destruct (_ <? _); rewrite take_nil.
Qed.

Lemma calculateBestTimes_no_duration_witness :
  exists st',
    @calculateBestTimes ex_platform
      {| st_participants := st_participants ex_team; st_duration := 0;
         st_days := 7; st_maxSuggestions := 5; st_excludeLunch := false;
         st_cache := ∅; st_timeFormat := "24h" |} = Some ([], st').
Proof.
  apply (@calculateBestTimes_no_duration ex_platform). cbn [st_duration]. lia.
Defined.

(** X11. The ranker changes nothing of the state but the cache, in
    which it keeps every entry that was there. *)
Theorem calculateBestTimes_state `{Platform} (st : State) :
  cache_wf (st_cache st) ->
  exists results st',
    calculateBestTimes st = Some (results, st')
    /\ st' = set_cache (st_cache st') st
    /\ forall k g, st_cache st !! k = Some g -> st_cache st' !! k = Some g.
Proof.
  intros Hwf. destruct (calculateBestTimes_unfold st Hwf) as (raw & Hres & _).
  eexists _, _. split; [exact Hres|]. split.
  - apply stateAtDay_state.
  - intros k g. apply stateAtDay_keeps.
Qed.

Lemma calculateBestTimes_state_witness :
  exists results st',
    @calculateBestTimes ex_platform ex_team = Some (results, st')
    /\ st' = set_cache (st_cache st') ex_team
    /\ forall k g, st_cache ex_team !! k = Some g -> st_cache st' !! k = Some g.
Proof. apply (@calculateBestTimes_state ex_platform ex_team), empty_cache_wf. Defined.

(** * Further properties of the pair overlap *)

Section PairExtra.
Context {P : Platform}.

Lemma inWindowAt_availability (d : JSDate) (p : Participant) (i : nat) :
  inWindowAt d p i = bool_decide (is_Some (availability false d p i)).
Proof.
  unfold inWindowAt, availability.
  destruct (localClock _ _) as [[h m]|].
  - cbn [andb]. destruct (isInRange _ _ _).
    + symmetry. by apply bool_decide_eq_true.
    + symmetry. apply bool_decide_eq_false. by intros [? ?].
  - symmetry. apply bool_decide_eq_false. by intros [? ?].
Qed.

Lemma buildSlots_map (st : State) (d : JSDate) :
  buildSlots st d
  = map (slotAt (st_excludeLunch st) d (st_participants st)) (seq 0 48).
Proof.
  apply list_eq. intros j. rewrite list_lookup_fmap.
  destruct (decide (j < 48)%nat) as [Hj|Hj].
  - rewrite buildSlots_lookup by done.
    by rewrite lookup_seq_lt.
  - rewrite lookup_ge_None_2 by (rewrite length_buildSlots; lia).
    by rewrite lookup_seq_ge by lia.
Qed.

Lemma length_filter_map {X Y : Type} (f : X -> Y) (g : Y -> bool) (l : list X) :
  length (List.filter g (map f l)) = length (List.filter (fun x => g (f x)) l).
Proof.
  induction l as [|x l IH]; [done|]. cbn [map List.filter].
  destruct (g (f x)); cbn [length]; by rewrite IH.
Qed.

Lemma overlap_half_bounds (k : Z) :
  0 <= k <= 48 ->
  (Qc_of_Z 0 <= Qc_of_Z k * Qc_half)%Qc /\ (Qc_of_Z k * Qc_half <= Qc_of_Z 24)%Qc.
Proof.
  intros Hk.
  assert (Qc_of_Z 0 = Qc_of_Z 0 * Qc_half)%Qc as H0 by (apply Qc_is_canon; reflexivity).
  assert (Qc_of_Z 24 = Qc_of_Z 48 * Qc_half)%Qc as H24 by (apply Qc_is_canon; reflexivity).
  assert (0 <= Qc_half)%Qc as Hh by done.
  split.
  - rewrite H0 at 1. apply Qcmult_le_mono_nonneg_r; [done|].
    apply (proj1 (Z2Qc_inj_le 0 k)). lia.
  - rewrite H24. apply Qcmult_le_mono_nonneg_r; [done|].
    apply (proj1 (Z2Qc_inj_le k 48)). lia.
Qed.
End PairExtra.

(** X12. The overlap of a pair does not depend on the order of the two
    participants; it is half the number [k] of the 48 half-hours of
    today, counted from the base date, at which both are inside their
    windows, each on their own clock; hence a multiple of one half from
    0 to 24, and at most the overlap of either participant with
    themselves. *)
Theorem calculatePairOverlap_symmetric `{Platform} (p1 p2 : Participant) :
  let k :=
    Z.of_nat (length (List.filter
      (fun i => inWindowAt (baseDate 0) p1 i && inWindowAt (baseDate 0) p2 i)
      (seq 0 48))) in
  calculatePairOverlap p1 p2 = calculatePairOverlap p2 p1
  /\ 0 <= k <= 48
  /\ (calculatePairOverlap p1 p2 = Qc_of_Z k * Qc_half)%Qc
  /\ (Qc_of_Z 0 <= calculatePairOverlap p1 p2)%Qc
  /\ (calculatePairOverlap p1 p2 <= Qc_of_Z 24)%Qc
  /\ (calculatePairOverlap p1 p2 <= calculatePairOverlap p1 p1)%Qc
  /\ (calculatePairOverlap p1 p2 <= calculatePairOverlap p2 p2)%Qc.
Proof.
  assert (forall a b, 0 <= overlapSlotsOf a b <= 48) as Hk.
  { intros a b. rewrite overlapSlotsOf_count.
    pose proof (length_filter_le
      (fun i => inWindowAt (baseDate 0) a i && inWindowAt (baseDate 0) b i)
      (seq 0 48)) as Hle.
    rewrite length_seq in Hle. lia. }
  assert (forall a b, overlapSlotsOf a b = overlapSlotsOf b a) as Hsym.
  { intros a b. rewrite !overlapSlotsOf_count. apply (f_equal Z.of_nat).
    apply filter_ext_length. intros i. apply andb_comm. }
  assert (forall a b, overlapSlotsOf a b <= overlapSlotsOf a a) as Hself.
  { intros a b. rewrite !overlapSlotsOf_count.
    apply inj_le.
    induction (seq 0 48) as [|i l IH]; [done|]. cbn [List.filter].
    destruct (inWindowAt (baseDate 0) a i), (inWindowAt (baseDate 0) b i);
      cbn [andb length]; lia. }
  assert (forall a b, calculatePairOverlap a b
                      = (Qc_of_Z (overlapSlotsOf a b) * Qc_half)%Qc) as Hval.
  { intros a b. unfold calculatePairOverlap. apply overlap_hours_exact. }
  assert (forall j k, j <= k -> (Qc_of_Z j * Qc_half <= Qc_of_Z k * Qc_half)%Qc)
    as Hmono.
  { intros j k Hjk. apply Qcmult_le_mono_nonneg_r; [done|].
    by apply (proj1 (Z2Qc_inj_le j k)). }
  intros k. subst k. rewrite <- overlapSlotsOf_count.
  split; [by rewrite !Hval, Hsym|].
  split; [apply Hk|].
  split; [apply Hval|].
  rewrite !Hval.
  destruct (overlap_half_bounds _ (Hk p1 p2)) as [H0 H24].
  repeat split; [done|done|by apply Hmono|].
  rewrite (Hsym p1 p2). by apply Hmono.
Qed.

(** X13. For a team of two and with the lunch exclusion off, the
    counter of [calculatePairOverlap] is the number of slots of today's
    grid in which both are counted. *)
Theorem overlapSlotsOf_grid `{Platform} (st : State) (p1 p2 : Participant) :
  st_participants st = [p1; p2] ->
  st_excludeLunch st = false ->
  overlapSlotsOf p1 p2
  = Z.of_nat (length (List.filter (fun s => slot_count s =? 2)
                                  (buildSlots st (baseDate 0)))).
Proof.
  intros Hps Hex. rewrite overlapSlotsOf_count, buildSlots_map, length_filter_map.
  rewrite Hps, Hex. apply (f_equal Z.of_nat), filter_ext_length. intros i.
  rewrite !inWindowAt_availability.
  unfold slotAt. cbn [foldl]. unfold applyAvail.
  destruct (availability false (baseDate 0) p1 i),
           (availability false (baseDate 0) p2 i);
    cbn [markAvailable emptySlot slot_count];
    repeat match goal with
    | |- context [bool_decide (is_Some (Some ?x))] =>
        rewrite (bool_decide_eq_true_2 (is_Some (Some x))) by done
    | |- context [bool_decide (is_Some (@None ?X))] =>
        rewrite (bool_decide_eq_false_2 (is_Some (@None X))) by (by intros [? ?])
    end; reflexivity.
Qed.

Lemma overlapSlotsOf_grid_witness :
  @overlapSlotsOf ex_platform
    (mkParticipant "a1" "Ann" "UTC" "09:00" "17:00" (Some "required"%string) "#14b8a6")
    (mkParticipant "b2" "Bo" "Asia/Tokyo" "09:00" "18:00" (Some "optional"%string) "#06b6d4")
  = Z.of_nat (length (List.filter (fun s => slot_count s =? 2)
                        (@buildSlots ex_platform ex_team (@baseDate ex_platform 0)))).
Proof.
  apply (@overlapSlotsOf_grid ex_platform ex_team); reflexivity.
Defined.

(** * The history object *)

Section HistoryFacts.
Context {A : Type}.
Implicit Types (h : History A) (l : list A) (a : A).

Lemma Array_pop_snoc l a : Array_pop (l ++ [a]) = Some (a, l).
Proof.
  unfold Array_pop. rewrite last_snoc, length_app. cbn [length].
  replace (length l + 1 - 1)%nat with (length l) by lia.
  by rewrite take_app_length.
Qed.

Lemma Array_pop_Some l a r : Array_pop l = Some (a, r) -> l = r ++ [a].
Proof.
  destruct l as [|x l _] using rev_ind; [done|].
  rewrite Array_pop_snoc. by intros [= -> ->].
Qed.

Lemma Array_pop_None l : Array_pop l = None -> l = [].
Proof.
  destruct l as [|x l _] using rev_ind; [done|]. by rewrite Array_pop_snoc.
Qed.

(** What [push] leaves in [past]: the action on top of the former
    actions, less the oldest one when there were [maxSize] or more. *)
Lemma history_push_past a h :
  past (history_push a h)
  = (if (maxSize <=? length (past h))%nat then drop 1 (past h) else past h) ++ [a].
Proof.
  unfold history_push. cbn [past]. rewrite length_app. cbn [length].
  destruct (Nat.leb_spec maxSize (length (past h))) as [Hfull|Hroom].
  - rewrite (proj2 (Nat.ltb_lt _ _)) by lia.
    destruct (past h) as [|x l]; [cbv in Hfull; lia|]. done.
  - by rewrite (proj2 (Nat.ltb_ge _ _)) by lia.
Qed.

Lemma history_call_bounded h (c : HistoryCall A) :
  (length (past h) + length (future h) <= maxSize)%nat ->
  (length (past (history_call h c)) + length (future (history_call h c))
   <= maxSize)%nat.
Proof.
  intros Hb. destruct c as [a| | ]; cbn [history_call].
  - rewrite history_push_past. cbn [history_push future length].
    rewrite length_app. cbn [length].
    destruct (Nat.leb_spec maxSize (length (past h))); [rewrite length_drop|];
      unfold maxSize in *; lia.
  - unfold history_undo. destruct (Array_pop (past h)) as [[a r]|] eqn:E; [|done].
    apply Array_pop_Some in E. cbn [snd past future].
    rewrite E, length_app in Hb. rewrite length_app. cbn [length] in *. lia.
  - unfold history_redo. destruct (Array_pop (future h)) as [[a r]|] eqn:E; [|done].
    apply Array_pop_Some in E. cbn [snd past future].
    rewrite E, length_app in Hb. rewrite length_app. cbn [length] in *. lia.
Qed.

Lemma history_push_undo_redo a h :
  let h1 := history_push a h in
  exists past1,
    past h1 = past1 ++ [a]
    /\ history_undo h1 = (Some a, {| past := past1; future := [a] |})
    /\ history_redo {| past := past1; future := [a] |} = (Some a, h1).
Proof.
  cbv zeta.
  exists (if (maxSize <=? length (past h))%nat then drop 1 (past h) else past h).
  split; [apply history_push_past|]. split.
  - unfold history_undo. rewrite history_push_past, Array_pop_snoc. done.
  - unfold history_redo. cbn [future past].
    change [a] with ([] ++ [a]) at 1. rewrite Array_pop_snoc.
    f_equal. rewrite <- history_push_past. done.
Qed.
End HistoryFacts.

(** X14. Whatever the calls of [push], [undo] and [redo] made on the
    empty history, [past] and [future] hold at most [maxSize] = 50
    actions together. *)
Theorem history_bounded {A : Type} (calls : list (HistoryCall A)) :
  let h := foldl history_call {| past := []; future := [] |} calls in
  (length (past h) + length (future h) <= 50)%nat.
Proof.
  cbv zeta.
  assert (forall h : History A,
            (length (past h) + length (future h) <= maxSize)%nat ->
            (length (past (foldl history_call h calls))
             + length (future (foldl history_call h calls)) <= maxSize)%nat) as Hinv.
  { induction calls as [|c calls IH]; intros h Hh; [done|].
    cbn [foldl]. by apply IH, history_call_bounded. }
  apply Hinv. cbn [past future length]. unfold maxSize. lia.
Qed.

(** X15. [redo] right after an [undo] that returned an action returns
    the same action and puts the history back. *)
Theorem history_undo_redo {A : Type} (h h' : History A) (a : A) :
  history_undo h = (Some a, h') ->
  history_redo h' = (Some a, h).
Proof.
  unfold history_undo. destruct (Array_pop (past h)) as [[x r]|] eqn:E; [|done].
  intros [= -> <-]. apply Array_pop_Some in E.
  unfold history_redo. cbn [future past]. rewrite Array_pop_snoc, <- E.
  by destruct h.
Qed.

Lemma history_undo_redo_witness :
  history_redo {| past := [1%nat]; future := [3%nat; 2%nat] |}
  = (Some 2%nat, {| past := [1%nat; 2%nat]; future := [3%nat] |}).
Proof.
  apply (history_undo_redo {| past := [1%nat; 2%nat]; future := [3%nat] |}).
  reflexivity.
Defined.

(** X16. [undo] right after a [redo] that returned an action returns
    the same action and puts the history back. *)
Theorem history_redo_undo {A : Type} (h h' : History A) (a : A) :
  history_redo h = (Some a, h') ->
  history_undo h' = (Some a, h).
Proof.
  unfold history_redo. destruct (Array_pop (future h)) as [[x r]|] eqn:E; [|done].
  intros [= -> <-]. apply Array_pop_Some in E.
  unfold history_undo. cbn [future past]. rewrite Array_pop_snoc, <- E.
  by destruct h.
Qed.

Lemma history_redo_undo_witness :
  history_undo {| past := [1%nat; 2%nat]; future := [3%nat] |}
  = (Some 2%nat, {| past := [1%nat]; future := [3%nat; 2%nat] |}).
Proof.
  apply (history_redo_undo {| past := [1%nat]; future := [3%nat; 2%nat] |}).
  reflexivity.
Defined.

(** X17. [push] empties [future] and keeps at most [maxSize] actions:
    the former ones and the new one on top, less the oldest when there
    were [maxSize] or more. An [undo] right after it returns the action
    pushed, and a [redo] after that gives back the history that [push]
    left. *)
Theorem history_push_spec {A : Type} (a : A) (h : History A) :
  let h1 := history_push a h in
  future h1 = []
  /\ past h1
     = (if (50 <=? length (past h))%nat then drop 1 (past h) else past h) ++ [a]
  /\ ((length (past h) <= 50)%nat -> (length (past h1) <= 50)%nat)
  /\ (history_undo h1).1 = Some a
  /\ history_redo (history_undo h1).2 = (Some a, h1).
Proof.
  cbv zeta. split; [done|]. split; [apply history_push_past|]. split.
  - intros Hlen. rewrite history_push_past, length_app. cbn [length].
    change maxSize with 50%nat.
    destruct (Nat.leb_spec 50 (length (past h))); [rewrite length_drop|]; lia.
  - destruct (history_push_undo_redo a h) as (past1 & _ & -> & Hredo). done.
Qed.

(** * Adding, removing and editing participants, and undoing it *)

Section ParticipantFacts.
Implicit Types (p q : Participant) (ps : list Participant) (id : string).

Lemma otherThan_true id p : otherThan id p = true <-> p_id p <> id.
Proof.
  unfold otherThan. rewrite negb_true_iff. apply bool_decide_eq_false.
Qed.

Lemma otherThan_false id p : otherThan id p = false <-> p_id p = id.
Proof.
  unfold otherThan. rewrite negb_false_iff. apply bool_decide_eq_true.
Qed.

Lemma filter_all {X : Type} (f : X -> bool) (l : list X) :
  List.filter f l = l <-> Forall (fun x => f x = true) l.
Proof.
  induction l as [|x l IH]; [by split; [constructor|]|].
  cbn [List.filter]. destruct (f x) eqn:E.
  - split.
    + intros [= H]. constructor; [done|by apply IH].
    + intros [_ H]%Forall_cons. f_equal. by apply IH.
  - split.
    + intros H. pose proof (length_filter_le f l) as Hle.
      rewrite H in Hle. cbn [length] in Hle. lia.
    + intros [H _]%Forall_cons. congruence.
Qed.

(** The list around the first participant with the id. *)
Lemma filter_first id ps (i : nat) p :
  list_find (fun q => p_id q = id) ps = Some (i, p) ->
  ps = take i ps ++ p :: drop (S i) ps
  /\ length (take i ps) = i
  /\ List.filter (otherThan id) ps
     = take i ps ++ List.filter (otherThan id) (drop (S i) ps).
Proof.
  intros (Hi & Hp & Hfirst)%list_find_Some.
  split; [by rewrite take_drop_middle|].
  split; [apply length_take_le, Nat.lt_le_incl, (lookup_lt_Some _ _ _ Hi)|].
  rewrite <- (take_drop_middle ps i p Hi) at 1.
  assert (forall (l1 l2 : list Participant),
            List.filter (otherThan id) (l1 ++ l2)
            = List.filter (otherThan id) l1 ++ List.filter (otherThan id) l2) as Happ.
  { intros l1 l2. induction l1 as [|x l1 IH]; [done|]. cbn [Datatypes.app List.filter].
    destruct (otherThan id x); [cbn [app]|]; by rewrite IH. }
  rewrite Happ. cbn [List.filter].
  rewrite (proj2 (otherThan_false id p) Hp). f_equal.
  apply filter_all, Forall_forall. intros q Hq.
  apply list_elem_of_lookup in Hq as [j Hj].
  apply otherThan_true. apply lookup_take_Some in Hj as [Hj Hlt].
  by apply (Hfirst j).
Qed.

Lemma updateFirst_insert id (f : Participant -> Participant) ps (i : nat) p :
  list_find (fun q => p_id q = id) ps = Some (i, p) ->
  updateFirst id f ps = <[i := f p]> ps.
Proof.
  intros (Hi & Hp & Hfirst)%list_find_Some.
  revert i Hi Hfirst. induction ps as [|q ps IH]; intros i Hi Hfirst; [done|].
  cbn [updateFirst]. destruct i as [|i].
  - injection Hi as ->. by rewrite bool_decide_eq_true_2.
  - rewrite bool_decide_eq_false_2 by (apply (Hfirst 0%nat); [done|lia]).
    cbn [insert list_insert]. f_equal. apply IH; [done|].
    intros j y Hj Hlt. apply (Hfirst (S j)); [done|lia].
Qed.

Lemma updateFirst_absent id (f : Participant -> Participant) ps :
  list_find (fun q => p_id q = id) ps = None -> updateFirst id f ps = ps.
Proof.
  intros H%list_find_None. induction H as [|q ps Hq _ IH]; [done|].
  cbn [updateFirst]. by rewrite bool_decide_eq_false_2, IH.
Qed.

Lemma splice_out_in {X : Type} (i : nat) (x : X) (l : list X) :
  (i <= length l)%nat -> splice_out i (splice_in i x l) = l.
Proof.
  intros Hi. unfold splice_out, splice_in.
  assert (length (take i l) = i) as Hlen by (rewrite length_take; lia).
  rewrite take_app_length' by done.
  rewrite drop_app_ge by lia. rewrite Hlen.
  replace (S i - i)%nat with 1%nat by lia. cbn [drop].
  by rewrite drop_0, take_drop.
Qed.

Lemma Object_assign_edited (name timezone start end_ priority : string) p :
  Object_assign
    (Object_assign (editFields name timezone start end_ priority p) p)
    (editFields name timezone start end_ priority p)
  = editFields name timezone start end_ priority p.
Proof. done. Qed.

Lemma validateParticipant_true (name timezone start end_ : string) :
  validateParticipant name timezone start end_ = true ->
  blank name = false /\ (js_length name <= 50)%nat /\ timezone ∈ TIMEZONES
  /\ nonempty start = true /\ nonempty end_ = true
  /\ js_strict_eq (parseTime start) (parseTime end_) = false.
Proof.
  unfold validateParticipant. rewrite !andb_true_iff, !negb_true_iff.
  intros [[[[[[[_ Hb] Hl] _] Htz] Hs] He] Hne].
  split; [done|]. split; [by apply Nat.leb_le|].
  split; [by apply bool_decide_eq_true in Htz|done].
Qed.

(** The length of a name is counted in UTF-16 units and not in bytes or
    in characters: 50 accented letters pass and 51 do not, 25 globes
    pass and 26 do not; a name of spaces only does not pass. *)
Lemma validateParticipant_name_length :
  String.length (acutes 50) = 100%nat
  /\ validateParticipant (acutes 50) "UTC" "09:00" "17:00" = true
  /\ validateParticipant (acutes 51) "UTC" "09:00" "17:00" = false
  /\ validateParticipant (globes 25) "UTC" "09:00" "17:00" = true
  /\ validateParticipant (globes 26) "UTC" "09:00" "17:00" = false
  /\ validateParticipant "   " "UTC" "09:00" "17:00" = false.
Proof. repeat split; vm_compute; reflexivity. Qed.

Lemma Object_assign_restore p q :
  is_Some (p_priority p) -> Object_assign q p = p.
Proof. intros [x Hx]. destruct p. cbn in *. by subst. Qed.
End ParticipantFacts.

(** X18. After [removeParticipant(id)] the participants are the former
    ones without those that have the id, in their order, so that none
    has it; if none had it, nothing changes; otherwise the action pushed
    holds the first participant with the id and its position. *)
Theorem removeParticipant_spec (id : string) (app : App) :
  let ps := st_participants (app_state app) in
  let app' := removeParticipant id app in
  st_participants (app_state app') = List.filter (otherThan id) ps
  /\ (forall p, p ∈ st_participants (app_state app') -> p_id p <> id)
  /\ ((forall p, p ∈ ps -> p_id p <> id) -> app' = app)
  /\ (forall (i : nat) p,
        ps !! i = Some p -> p_id p = id ->
        (forall (j : nat) q, ps !! j = Some q -> (j < i)%nat -> p_id q <> id) ->
        app_history app'
        = history_push (ActionRemove p i) (app_history app)).
Proof.
  cbv zeta. unfold removeParticipant.
  destruct (list_find _ _) as [[i0 p0]|] eqn:E.
  - cbn [app_state app_history set_participants st_participants].
    split; [done|]. split; [|split].
    + intros p [_ Hp]%list_elem_of_In%filter_In. by apply otherThan_true.
    + intros Hnone. apply list_find_Some in E as (Hi & Hp & _).
      destruct (Hnone p0); [|done]. by eapply list_elem_of_lookup_2.
    + intros i p Hi Hp Hfirst.
      assert (list_find (fun q => p_id q = id) (st_participants (app_state app))
              = Some (i, p)) as E' by (by apply list_find_Some).
      rewrite E in E'. by injection E' as -> ->.
  - apply list_find_None in E.
    assert (List.filter (otherThan id) (st_participants (app_state app))
            = st_participants (app_state app)) as Hsame.
    { apply filter_all. eapply Forall_impl; [exact E|].
      intros p Hp. by apply otherThan_true. }
    split; [done|]. split; [|split].
    + intros p Hp. by apply (proj1 (Forall_forall _ _) E).
    + done.
    + intros i p Hi Hp _. destruct (proj1 (Forall_forall _ _) E p); [|done].
      by eapply list_elem_of_lookup_2.
Qed.

(** X19. [performUndo] right after [removeParticipant(id)] puts the
    first participant with the id back at its position; the participants
    are the former ones exactly when no other participant had the id,
    since the removal takes all of them. A [performRedo] after that
    gives back the participants and the history that the removal
    left. *)
Theorem removeParticipant_undo (id : string) (app : App) (i : nat) (p : Participant) :
  let ps := st_participants (app_state app) in
  list_find (fun q => p_id q = id) ps = Some (i, p) ->
  let removed := removeParticipant id app in
  let undone := performUndo removed in
  st_participants (app_state undone)
  = take i ps ++ p :: List.filter (otherThan id) (drop (S i) ps)
  /\ (st_participants (app_state undone) = ps
      <-> forall (j : nat) q, ps !! j = Some q -> p_id q = id -> j = i)
  /\ st_participants (app_state (performRedo undone))
     = st_participants (app_state removed)
  /\ app_history (performRedo undone) = app_history removed.
Proof.
  cbv zeta. intros Hfind.
  destruct (filter_first id _ i p Hfind) as (Hps & Hlen & Hfilter).
  pose proof (proj1 (list_find_Some _ _ _ _) Hfind) as (Hi & Hp & Hfirst).
  unfold removeParticipant. rewrite Hfind.
  destruct (history_push_undo_redo (ActionRemove p i) (app_history app))
    as (past1 & _ & Hundo & Hredo).
  unfold performUndo. cbn [app_history app_state]. rewrite Hundo.
  cbn [app_state app_history set_participants st_participants undoAction].
  assert (splice_in i p (List.filter (otherThan id) (st_participants (app_state app)))
          = take i (st_participants (app_state app))
            ++ p :: List.filter (otherThan id)
                      (drop (S i) (st_participants (app_state app)))) as Hsplice.
  { rewrite Hfilter. unfold splice_in.
    rewrite take_app_length', drop_app_length' by done. done. }
  split; [exact Hsplice|]. split.
  - rewrite Hsplice. split.
    + intros Hsame j q Hj Hq.
      assert (List.filter (otherThan id) (drop (S i) (st_participants (app_state app)))
              = drop (S i) (st_participants (app_state app))) as Hrest.
      { pose proof (eq_trans Hsame Hps) as Heq.
        by apply app_inv_head in Heq as [= ?]. }
      apply filter_all in Hrest.
      destruct (Nat.lt_trichotomy j i) as [Hlt|[->|Hgt]]; [|done|].
      * by destruct (Hfirst j q Hj Hlt).
      * assert (q ∈ drop (S i) (st_participants (app_state app))) as Hin.
        { apply list_elem_of_lookup. exists (j - S i)%nat.
          rewrite lookup_drop. by replace (S i + (j - S i))%nat with j by lia. }
        apply (proj1 (Forall_forall _ _) Hrest), otherThan_true in Hin. done.
    + intros Huniq.
      assert (List.filter (otherThan id) (drop (S i) (st_participants (app_state app)))
              = drop (S i) (st_participants (app_state app))) as ->.
      { apply filter_all, Forall_forall. intros q Hq.
        apply list_elem_of_lookup in Hq as [j Hj]. rewrite lookup_drop in Hj.
        apply otherThan_true. intros Hid.
        pose proof (Huniq _ _ Hj Hid). lia. }
      by rewrite <- Hps.
  - unfold performRedo. cbn [app_history app_state]. rewrite Hredo.
    cbn [app_state app_history set_participants st_participants redoAction].
    rewrite splice_out_in; [done|].
    rewrite Hfilter, length_app, Hlen. lia.
Qed.

Lemma removeParticipant_undo_witness :
  let app := newApp ex_team in
  let ps := st_participants (app_state app) in
  let p := mkParticipant "a1" "Ann" "UTC" "09:00" "17:00" (Some "required"%string) "#14b8a6" in
  let removed := removeParticipant "a1" app in
  let undone := performUndo removed in
  st_participants (app_state undone)
  = take 0 ps ++ p :: List.filter (otherThan "a1") (drop 1 ps)
  /\ (st_participants (app_state undone) = ps
      <-> forall (j : nat) q, ps !! j = Some q -> p_id q = "a1"%string -> j = 0%nat)
  /\ st_participants (app_state (performRedo undone))
     = st_participants (app_state removed)
  /\ app_history (performRedo undone) = app_history removed.
Proof.
  apply (removeParticipant_undo "a1" (newApp ex_team) 0). reflexivity.
Defined.

Section EditFacts.
Implicit Types (p q : Participant) (ps : list Participant) (id : string).

Lemma list_find_insert id ps (i : nat) p q :
  list_find (fun x => p_id x = id) ps = Some (i, p) ->
  p_id q = id ->
  list_find (fun x => p_id x = id) (<[i := q]> ps) = Some (i, q).
Proof.
  intros (Hi & Hp & Hfirst)%list_find_Some Hq. apply list_find_Some.
  split; [|split; [done|]].
  - apply list_lookup_insert_eq, (lookup_lt_Some _ _ _ Hi).
  - intros j y Hj Hlt. rewrite list_lookup_insert_ne in Hj by lia.
    by apply (Hfirst j).
Qed.

(** The history of a command is that of at most one call of [push],
    [undo] or [redo]. *)
Lemma perform_history (app : App) (c : Command) :
  app_history (perform app c) = app_history app
  \/ exists call, app_history (perform app c) = history_call (app_history app) call.
Proof.
  destruct c as [id name tz s e pr|id|id name tz s e pr| | ]; cbn [perform].
  - unfold addParticipant. destruct (negb _); [by left|].
    destruct (20 <=? _)%nat; [by left|]. right. by eexists (CallPush _).
  - unfold removeParticipant. destruct (list_find _ _) as [[i p]|]; [|by left].
    right. by eexists (CallPush _).
  - unfold saveEdit_recorded. destruct (negb (nonempty id)); [by left|].
    destruct (list_find _ _) as [[i p]|]; [|by left].
    destruct (negb _); [by left|]. right. by eexists (CallPush _).
  - unfold performUndo.
    destruct (history_undo (app_history app)) as [[a|] h] eqn:E; [|by left].
    right. exists CallUndo. cbn [history_call]. by rewrite E.
  - unfold performRedo.
    destruct (history_redo (app_history app)) as [[a|] h] eqn:E; [|by left].
    right. exists CallRedo. cbn [history_call]. by rewrite E.
Qed.

Lemma perform_settings (app : App) (c : Command) :
  app_state (perform app c)
  = set_participants (st_participants (app_state (perform app c))) (app_state app).
Proof.
  destruct c as [id name tz s e pr|id|id name tz s e pr| | ]; cbn [perform].
  - unfold addParticipant. destruct (negb _); [by destruct (app_state app)|].
    by destruct (20 <=? _)%nat; [destruct (app_state app)|].
  - unfold removeParticipant.
    by destruct (list_find _ _) as [[i p]|]; [|destruct (app_state app)].
  - unfold saveEdit_recorded. destruct (negb (nonempty id)); [by destruct (app_state app)|].
    destruct (list_find _ _) as [[i p]|]; [|by destruct (app_state app)].
    by destruct (negb _); [destruct (app_state app)|].
  - unfold performUndo.
    by destruct (history_undo (app_history app)) as [[a|] h];
      [|destruct (app_state app)].
  - unfold performRedo.
    by destruct (history_redo (app_history app)) as [[a|] h];
      [|destruct (app_state app)].
Qed.
End EditFacts.

(** X20. [performUndo] right after an [addParticipant] that passed the
    checks removes the new participant and, with it, every participant
    that had the same id; when the id is new the participants are the
    former ones, and a [performRedo] after that gives back the
    participants and the history that the addition left. *)
Theorem addParticipant_undo (id name tz startInput endInput priority : string)
    (app : App) :
  let ps := st_participants (app_state app) in
  validateParticipant name tz (orDefault startInput "09:00")
                      (orDefault endInput "17:00") = true ->
  (length ps < 20)%nat ->
  let added := addParticipant id name tz startInput endInput priority app in
  let undone := performUndo added in
  length (st_participants (app_state added)) = S (length ps)
  /\ st_participants (app_state undone) = List.filter (otherThan id) ps
  /\ ((forall p, p ∈ ps -> p_id p <> id) ->
      st_participants (app_state undone) = ps
      /\ st_participants (app_state (performRedo undone))
         = st_participants (app_state added)
      /\ app_history (performRedo undone) = app_history added).
Proof.
  cbv zeta. intros Hvalid Hroom. unfold addParticipant.
  rewrite Hvalid. cbn [negb].
  rewrite (proj2 (Nat.leb_gt _ _)) by done.
  set (p := {| p_id := id; p_name := name; p_timezone := tz;
               p_start := orDefault startInput "09:00";
               p_end := orDefault endInput "17:00";
               p_priority := Some priority;
               p_color := generateColor (length (st_participants (app_state app))) |}).
  destruct (history_push_undo_redo (ActionAdd p) (app_history app))
    as (past1 & _ & Hundo & Hredo).
  cbn [app_state set_participants st_participants].
  split; [rewrite length_app; cbn [length]; lia|].
  unfold performUndo. cbn [app_history app_state]. rewrite Hundo.
  cbn [app_state app_history set_participants st_participants undoAction].
  assert (List.filter (otherThan (p_id p)) (st_participants (app_state app) ++ [p])
          = List.filter (otherThan id) (st_participants (app_state app))) as Hfilter.
  { assert (p_id p = id) as Hpid by done.
    rewrite Hpid. clearbody p. generalize (st_participants (app_state app)).
    intros l. induction l as [|q l IH].
    - cbn [Datatypes.app List.filter]. by rewrite (proj2 (otherThan_false id p) Hpid).
    - cbn [Datatypes.app List.filter]. by rewrite IH. }
  split; [exact Hfilter|].
  intros Hfresh.
  assert (List.filter (otherThan id) (st_participants (app_state app))
          = st_participants (app_state app)) as Hsame.
  { apply filter_all, Forall_forall. intros q Hq. by apply otherThan_true, Hfresh. }
  rewrite Hfilter, Hsame. split; [done|].
  unfold performRedo. cbn [app_history app_state]. rewrite Hredo.
  by cbn [app_state app_history set_participants st_participants redoAction].
Qed.

Lemma addParticipant_undo_witness :
  let app := newApp ex_team in
  let ps := st_participants (app_state app) in
  let added := addParticipant "c3" (acutes 30) "Europe/Paris" "" "18:30" "optional" app in
  let undone := performUndo added in
  length (st_participants (app_state added)) = S (length ps)
  /\ st_participants (app_state undone) = List.filter (otherThan "c3") ps
  /\ ((forall p, p ∈ ps -> p_id p <> "c3"%string) ->
      st_participants (app_state undone) = ps
      /\ st_participants (app_state (performRedo undone))
         = st_participants (app_state added)
      /\ app_history (performRedo undone) = app_history added).
Proof.
  apply (addParticipant_undo "c3" (acutes 30) "Europe/Paris" "" "18:30" "optional"
           (newApp ex_team)).
  - reflexivity.
  - cbn. lia.
Defined.

(** X21. [addParticipant] leaves the application as it is when the
    validation fails or 20 participants are there; it never makes the
    list longer than 20, and a participant it adds comes last, passes
    the validation, so that its name is not blank and has at most 50
    UTF-16 units and its timezone is one of the list, has a priority
    and the colour of its position. *)
Theorem addParticipant_spec (id name tz startInput endInput priority : string)
    (app : App) :
  let ps := st_participants (app_state app) in
  let app' := addParticipant id name tz startInput endInput priority app in
  let ps' := st_participants (app_state app') in
  (validateParticipant name tz (orDefault startInput "09:00")
                       (orDefault endInput "17:00") = false -> app' = app)
  /\ ((20 <= length ps)%nat -> app' = app)
  /\ (length ps' <= Nat.max 20 (length ps))%nat
  /\ (app' = app
      \/ exists p,
           ps' = ps ++ [p]
           /\ p_id p = id /\ p_name p = name
           /\ validateParticipant (p_name p) (p_timezone p) (p_start p) (p_end p) = true
           /\ blank (p_name p) = false
           /\ (js_length (p_name p) <= 50)%nat
           /\ p_timezone p ∈ TIMEZONES
           /\ p_priority p = Some priority
           /\ p_color p = generateColor (length ps)).
Proof.
  cbv zeta. unfold addParticipant.
  destruct (validateParticipant _ _ _ _) eqn:Hvalid; cbn [negb].
  - destruct (Nat.leb_spec 20 (length (st_participants (app_state app)))) as [Hfull|Hroom].
    + split; [done|]. split; [done|]. split; [lia|by left].
    + cbn [app_state set_participants st_participants].
      split; [done|]. split; [lia|]. split.
      * rewrite length_app. cbn [length]. lia.
      * destruct (validateParticipant_true _ _ _ _ Hvalid) as (Hb & Hl & Htz & _).
        right. eexists. split; [done|]. by cbn.
  - split; [done|]. split; [done|]. split; [lia|by left].
Qed.

(** X22. [saveEdit] on a participant that is found, with values that
    pass the validation, changes the state as the model of claim C4
    has it. [performUndo] right after it restores the participant,
    except for a priority that was absent, which keeps the edited
    value; a [performRedo] after that gives back the participants and
    the history that the edit left. *)
Theorem saveEdit_undo (id name timezone start end_ priority : string)
    (app : App) (i : nat) (p : Participant) :
  let ps := st_participants (app_state app) in
  list_find (fun q => p_id q = id) ps = Some (i, p) ->
  nonempty id = true ->
  validateParticipant name timezone start end_ = true ->
  let edited := saveEdit_recorded id name timezone start end_ priority app in
  let undone := performUndo edited in
  app_state edited = saveEdit id name timezone start end_ priority (app_state app)
  /\ st_participants (app_state undone)
     = <[i := Object_assign (editFields name timezone start end_ priority p) p]> ps
  /\ (is_Some (p_priority p) -> st_participants (app_state undone) = ps)
  /\ (p_priority p = None ->
      p_priority <$> st_participants (app_state undone) !! i = Some (Some priority))
  /\ st_participants (app_state (performRedo undone))
     = st_participants (app_state edited)
  /\ app_history (performRedo undone) = app_history edited.
Proof.
  cbv zeta. intros Hfind Hid Hvalid.
  pose proof (proj1 (list_find_Some _ _ _ _) Hfind) as (Hi & Hp & Hfirst).
  unfold saveEdit_recorded, saveEdit. rewrite Hfind, Hid, Hvalid. cbn [negb andb].
  set (e := editFields name timezone start end_ priority p).
  destruct (history_push_undo_redo (ActionEdit id p e) (app_history app))
    as (past1 & _ & Hundo & Hredo).
  cbn [app_state]. split; [done|].
  unfold performUndo. cbn [app_history app_state]. rewrite Hundo.
  cbn [app_state app_history set_participants st_participants undoAction].
  rewrite (updateFirst_insert id _ _ i p Hfind).
  fold e.
  assert (p_id e = id) as He by done.
  rewrite (updateFirst_insert id _ _ i e (list_find_insert id _ i p e Hfind He)).
  rewrite list_insert_insert_eq. cbv beta.
  split; [done|]. split; [|split].
  - intros Hsome. rewrite Object_assign_restore by done.
    by rewrite list_insert_id.
  - intros Hnone. rewrite list_lookup_insert_eq by (by eapply lookup_lt_Some).
    cbn [fmap option_fmap option_map Object_assign p_priority]. by rewrite Hnone.
  - unfold performRedo. cbn [app_history app_state]. rewrite Hredo.
    cbn [app_state app_history set_participants st_participants redoAction].
    assert (p_id (Object_assign e p) = id) as Ha by done.
    rewrite (updateFirst_insert id _ _ i _ (list_find_insert id _ i p _ Hfind Ha)).
    rewrite list_insert_insert_eq. cbv beta. unfold e. rewrite Object_assign_edited.
    done.
Qed.

Lemma saveEdit_undo_witness :
  let app := newApp ex_noPriority in
  let ps := st_participants (app_state app) in
  match ps with
  | [] => True
  | p :: _ =>
      let edited := saveEdit_recorded (p_id p) "Ann" "UTC" "10:00" "18:00" "optional" app in
      let undone := performUndo edited in
      app_state edited
      = saveEdit (p_id p) "Ann" "UTC" "10:00" "18:00" "optional" (app_state app)
      /\ st_participants (app_state undone)
         = <[0%nat := Object_assign (editFields "Ann" "UTC" "10:00" "18:00" "optional" p) p]> ps
      /\ (is_Some (p_priority p) -> st_participants (app_state undone) = ps)
      /\ (p_priority p = None ->
          p_priority <$> st_participants (app_state undone) !! 0%nat
          = Some (Some "optional"%string))
      /\ st_participants (app_state (performRedo undone))
         = st_participants (app_state edited)
      /\ app_history (performRedo undone) = app_history edited
  end.
Proof.
  cbv zeta. cbn [newApp app_state ex_noPriority st_participants].
  eapply (saveEdit_undo _ "Ann" "UTC" "10:00" "18:00" "optional"
            (newApp ex_noPriority) 0); reflexivity.
Defined.

(** X23. None of the additions, removals, edits, undos and redos
    touches the settings or the cache of the state: a command changes
    the participants only, so the grids cached before it stay. Along
    any sequence of commands from an empty history, the history holds
    at most 50 actions. *)
Theorem perform_frame (app : App) (c : Command) (st : State) (commands : list Command) :
  app_state (perform app c)
  = set_participants (st_participants (app_state (perform app c))) (app_state app)
  /\ st_cache (app_state (perform app c)) = st_cache (app_state app)
  /\ let app' := foldl perform (newApp st) commands in
     (length (past (app_history app')) + length (future (app_history app')) <= 50)%nat.
Proof.
  split; [apply perform_settings|]. split; [by rewrite perform_settings|].
  cbv zeta.
  assert (forall a : App,
            (length (past (app_history a)) + length (future (app_history a))
             <= maxSize)%nat ->
            let a' := foldl perform a commands in
            (length (past (app_history a')) + length (future (app_history a'))
             <= maxSize)%nat) as Hinv.
  { induction commands as [|c' commands IH]; intros a Hh; [done|].
    cbn [foldl]. apply IH.
    destruct (perform_history a c') as [->|[call ->]]; [done|].
    by apply history_call_bounded. }
  apply (Hinv (newApp st)). cbn. unfold maxSize. lia.
Qed.

(** X24. [generateColor] returns one of the ten colours; two positions
    get the same colour exactly when they differ by a multiple of 10,
    so that neighbours in the list never share one. *)
Theorem generateColor_spec (i j : nat) :
  generateColor i ∈ colors
  /\ (generateColor i = generateColor j <-> (i mod 10 = j mod 10)%nat)
  /\ generateColor i <> generateColor (S i).
Proof.
  assert (NoDup colors) as Hnd by (apply (bool_decide_unpack _); vm_compute; exact I).
  assert (forall k, colors !! (k mod 10)%nat = Some (generateColor k)) as Hlook.
  { intros k. unfold generateColor. change (length colors) with 10%nat.
    destruct (lookup_lt_is_Some_2 colors (k mod 10)%nat) as [x Hx].
    { change (length colors) with 10%nat. apply Nat.mod_upper_bound. lia. }
    by rewrite nth_lookup, Hx. }
  assert (generateColor i = generateColor j <-> (i mod 10 = j mod 10)%nat) as Hiff.
  { split.
    - intros Heq. eapply (NoDup_lookup colors); [done|apply Hlook|].
      rewrite Heq. apply Hlook.
    - intros Heq. pose proof (Hlook i) as Hi. rewrite Heq, Hlook in Hi. congruence. }
  split; [eapply list_elem_of_lookup_2, Hlook|]. split; [exact Hiff|].
  intros Heq.
  assert (colors !! (S i mod 10)%nat = Some (generateColor i)) as HS
    by (rewrite Heq; apply Hlook).
  pose proof (NoDup_lookup colors _ _ _ Hnd (Hlook i) HS) as Hmod.
  pose proof (Nat.div_mod_eq i 10). pose proof (Nat.div_mod_eq (S i) 10).
  pose proof (Nat.mod_upper_bound i 10). pose proof (Nat.mod_upper_bound (S i) 10).
  lia.
Qed.

(** * Further properties of the time utilities *)

(** X25. A window whose start and end are the same minute is empty;
    swapping start and end of any other window gives its complement; a
    minute that is [NaN] is in no window. *)
Theorem isInRange_swap (minute start end_ : Z) :
  isInRange (JNum minute) (JNum start) (JNum start) = false
  /\ (start <> end_ ->
      isInRange (JNum minute) (JNum end_) (JNum start)
      = negb (isInRange (JNum minute) (JNum start) (JNum end_)))
  /\ (forall s e, isInRange JNaN s e = false).
Proof.
  split; [|split].
  - unfold isInRange, js_ge, js_le, js_lt. rewrite Z.leb_refl.
    destruct (Z.leb_spec start minute), (Z.ltb_spec minute start); (done || lia).
  - intros Hne. unfold isInRange, js_ge, js_le, js_lt.
    destruct (Z.leb_spec start end_), (Z.leb_spec end_ start),
      (Z.leb_spec start minute), (Z.leb_spec end_ minute),
      (Z.ltb_spec minute start), (Z.ltb_spec minute end_);
      cbn [andb orb negb]; (done || lia).
  - intros s e. unfold isInRange, js_ge, js_le, js_lt.
    by destruct s, e; cbn; repeat case_match.
Qed.

Section Numerals.

Lemma digits_value_acc (s : string) : forall acc,
  digits_value acc s = acc * 10 ^ Z.of_nat (String.length s) + digits_value 0 s.
Proof.
  induction s as [|c s IH]; intros acc; cbn [digits_value String.length].
  - change (Z.of_nat 0) with 0. lia.
  - rewrite IH, (IH (10 * 0 + digit_value c)).
    rewrite Nat2Z.inj_succ, Z.pow_succ_r by lia. lia.
Qed.

Lemma pretty_N_char_digit (x : N) :
  (x < 10)%N ->
  is_digit (pretty_N_char x) = true /\ digit_value (pretty_N_char x) = Z.of_N x.
Proof.
  intros Hx.
  assert (x = 0 \/ x = 1 \/ x = 2 \/ x = 3 \/ x = 4 \/ x = 5 \/ x = 6 \/ x = 7
          \/ x = 8 \/ x = 9)%N as Hcases by lia.
  by repeat (destruct Hcases as [->|Hcases]; [done|]); subst.
Qed.

Lemma pretty_N_go_digits (x : N) : forall s,
  is_digits s = true ->
  is_digits (pretty_N_go x s) = true
  /\ digits_value 0 (pretty_N_go x s)
     = Z.of_N x * 10 ^ Z.of_nat (String.length s) + digits_value 0 s.
Proof.
  induction (N.lt_wf_0 x) as [x _ IH]. intros s Hs.
  destruct (decide (x = 0)%N) as [->|Hx].
  - rewrite pretty_N_go_0. split; [done|]. change (Z.of_N 0) with 0. lia.
  - rewrite pretty_N_go_step by lia.
    destruct (pretty_N_char_digit (x `mod` 10)) as [Hd Hv];
      [apply N.mod_lt; lia|].
    destruct (IH (x `div` 10)%N ltac:(apply N.div_lt; lia)
                 (String (pretty_N_char (x `mod` 10)) s)) as [Hdig Hval].
    { cbn [is_digits]. by rewrite Hd, Hs. }
    split; [done|]. rewrite Hval. cbn [digits_value String.length].
    rewrite (digits_value_acc s (10 * 0 + _)), Hv.
    rewrite Nat2Z.inj_succ, Z.pow_succ_r by lia.
    rewrite (N.div_mod x 10) at 3 by lia.
    rewrite N2Z.inj_add, N2Z.inj_mul. change (Z.of_N 10) with 10. lia.
Qed.

(** The numeral of a natural number is a run of digits with that value. *)
Lemma pretty_digits (z : Z) :
  0 <= z ->
  is_digits (pretty z) = true /\ digits_value 0 (pretty z) = z.
Proof.
  intros Hz. destruct z as [|p|p]; [done| |lia].
  unfold pretty, pretty_Z, pretty, pretty_positive, pretty, pretty_N.
  rewrite decide_False by done.
  destruct (pretty_N_go_digits (N.pos p) "" eq_refl) as [Hd Hv].
  split; [done|]. rewrite Hv. cbn [String.length digits_value].
  change (Z.of_N (N.pos p)) with (Z.pos p). lia.
Qed.

Lemma padStart_digits (n : nat) (s : string) :
  is_digits s = true ->
  is_digits (padStart n "0" s) = true
  /\ digits_value 0 (padStart n "0" s) = digits_value 0 s.
Proof.
  intros Hs. unfold padStart.
  induction (n - String.length s)%nat as [|k [IHd IHv]]; [done|].
  change (Nat.iter (S k) (String "0") s)
    with (String "0" (Nat.iter k (String "0") s)). split.
  - cbn [is_digits]. by rewrite IHd.
  - cbn [digits_value]. exact IHv.
Qed.

Lemma Number_pad (z : Z) : 0 <= z -> Number_ (pad (Some (JNum z))) = JNum z.
Proof.
  intros Hz. destruct (pretty_digits z Hz) as [Hd Hv].
  destruct (padStart_digits 2 (pretty z) Hd) as [Hpd Hpv].
  unfold Number_, pad, String_. by rewrite Hpd, Hpv, Hv.
Qed.

Lemma is_digits_pad (z : Z) : 0 <= z -> is_digits (pad (Some (JNum z))) = true.
Proof.
  intros Hz. destruct (pretty_digits z Hz) as [Hd _].
  by destruct (padStart_digits 2 (pretty z) Hd).
Qed.

Lemma digits_value_nonneg (s : string) : forall acc,
  is_digits s = true -> 0 <= acc -> 0 <= digits_value acc s.
Proof.
  induction s as [|c s IH]; intros acc Hs Hacc; [done|].
  cbn [is_digits] in Hs. apply andb_true_iff in Hs as [Hc Hs].
  cbn [digits_value]. apply IH; [done|].
  unfold is_digit in Hc. apply andb_true_iff in Hc as [Hlo _].
  apply Nat.leb_le in Hlo. unfold digit_value. lia.
Qed.

(** The parts that [formatTime] and [parseTime] read of two runs of
    digits around a colon. *)
Lemma time_fields (h m : string) :
  is_digits h = true -> is_digits m = true ->
  map Number_ (str_split ":" (h ++ ":" ++ m))
  = [JNum (digits_value 0 h); JNum (digits_value 0 m)].
Proof.
  intros Hh Hm.
  change (h ++ ":" ++ m)%string with (h ++ String ":" m)%string.
  rewrite str_split_digits_colon, str_split_no_colon by done.
  cbn [map]. unfold Number_. by rewrite Hh, Hm.
Qed.

(** Two runs of digits, each followed by a character that is no digit,
    are told apart at that character. *)
Lemma digits_then_inj (a a' : string) (c c' : ascii) (r r' : string) :
  is_digits a = true -> is_digits a' = true ->
  is_digit c = false -> is_digit c' = false ->
  (a ++ String c r = a' ++ String c' r')%string ->
  a = a' /\ c = c' /\ r = r'.
Proof.
  intros Ha Ha' Hc Hc'. revert a' Ha'.
  induction a as [|x a IH]; intros [|x' a'] Ha'; string_app.
  - by intros [= -> ->].
  - intros [= -> _]. cbn [is_digits] in Ha'. by rewrite Hc in Ha'.
  - intros [= -> _]. cbn [is_digits] in Ha. by rewrite Hc' in Ha.
  - intros [= -> Heq]. cbn [is_digits] in Ha, Ha'.
    apply andb_true_iff in Ha as [_ Ha]. apply andb_true_iff in Ha' as [_ Ha'].
    destruct (IH Ha a' Ha' Heq) as (-> & -> & ->). done.
Qed.
End Numerals.

(** X26. On two runs of at most 14 digits around a colon,
    [formatTime(t, '24h')] writes the same time: [parseTime] reads from
    it the minutes it reads from [t], and formatting it again changes
    nothing. *)
Theorem formatTime_24h_parseTime (h m : string) :
  is_digits h = true -> is_digits m = true ->
  (String.length h <= 14)%nat -> (String.length m <= 14)%nat ->
  let t := (h ++ ":" ++ m)%string in
  formatTime t "24h"
  = (pad (Some (JNum (digits_value 0 h))) ++ ":" ++ pad (Some (JNum (digits_value 0 m))))%string
  /\ parseTime (formatTime t "24h") = parseTime t
  /\ formatTime (formatTime t "24h") "24h" = formatTime t "24h".
Proof.
  intros Hh Hm _ _. cbv zeta.
  pose proof (digits_value_nonneg h 0 Hh ltac:(lia)) as Hh0.
  pose proof (digits_value_nonneg m 0 Hm ltac:(lia)) as Hm0.
  assert (formatTime (h ++ ":" ++ m) "24h"
          = (pad (Some (JNum (digits_value 0 h))) ++ ":" ++ pad (Some (JNum (digits_value 0 m))))%string)
    as Hfmt.
  { unfold formatTime. by rewrite time_fields. }
  assert (map Number_ (str_split ":" (formatTime (h ++ ":" ++ m) "24h"))
          = [JNum (digits_value 0 h); JNum (digits_value 0 m)]) as Hparts.
  { rewrite Hfmt, time_fields by (by apply is_digits_pad).
    pose proof (Number_pad _ Hh0) as Hnh. pose proof (Number_pad _ Hm0) as Hnm.
    unfold Number_ in Hnh, Hnm.
    rewrite is_digits_pad in Hnh, Hnm by done.
    by injection Hnh as ->; injection Hnm as ->. }
  split; [exact Hfmt|]. split.
  - unfold parseTime. by rewrite Hparts, time_fields.
  - rewrite Hfmt at 2. unfold formatTime at 1. by rewrite Hparts.
Qed.

Lemma formatTime_24h_parseTime_witness :
  formatTime "9:5" "24h" = (pad (Some (JNum 9)) ++ ":" ++ pad (Some (JNum 5)))%string
  /\ parseTime (formatTime "9:5" "24h") = parseTime "9:5"
  /\ formatTime (formatTime "9:5" "24h") "24h" = formatTime "9:5" "24h".
Proof.
  apply (formatTime_24h_parseTime "9" "5"); (reflexivity || (cbn; lia)).
Defined.

(** X27. The 12-hour display tells the times of a day apart: two runs
    of at most 14 digits around a colon, with hours up to 23, that [formatTime]
    shows the same in the 12-hour format are the same minute of the
    day; the hour shown is from 1 to 12. *)
Theorem formatTime_12h_unambiguous (h m h' m' : string) :
  is_digits h = true -> is_digits m = true ->
  is_digits h' = true -> is_digits m' = true ->
  (String.length h <= 14)%nat -> (String.length m <= 14)%nat ->
  (String.length h' <= 14)%nat -> (String.length m' <= 14)%nat ->
  digits_value 0 h <= 23 -> digits_value 0 h' <= 23 ->
  (exists hour : Z,
     1 <= hour <= 12
     /\ formatTime (h ++ ":" ++ m) "12h"
        = (pretty hour ++ ":" ++ pad (Some (JNum (digits_value 0 m))) ++ " "
           ++ (if (12 <=? digits_value 0 h)%Z then "PM" else "AM"))%string)
  /\ (formatTime (h ++ ":" ++ m) "12h" = formatTime (h' ++ ":" ++ m') "12h" ->
      parseTime (h ++ ":" ++ m) = parseTime (h' ++ ":" ++ m')).
Proof.
  intros Hh Hm Hh' Hm' _ _ _ _ H23 H23'.
  pose proof (digits_value_nonneg h 0 Hh ltac:(lia)) as Hh0.
  pose proof (digits_value_nonneg m 0 Hm ltac:(lia)) as Hm0.
  pose proof (digits_value_nonneg h' 0 Hh' ltac:(lia)) as Hh0'.
  pose proof (digits_value_nonneg m' 0 Hm' ltac:(lia)) as Hm0'.
  set (hour12 := fun H : Z => if Z.rem H 12 =? 0 then 12 else Z.rem H 12).
  assert (forall a b, is_digits a = true -> is_digits b = true ->
            formatTime (a ++ ":" ++ b) "12h"
            = (pretty (hour12 (digits_value 0 a))
               ++ String ":" (pad (Some (JNum (digits_value 0 b)))
               ++ String " " (if (12 <=? digits_value 0 a)%Z then "PM" else "AM")))%string)
    as Hfmt.
  { intros a b Ha Hb. unfold formatTime. rewrite time_fields by done.
    cbn [String.eqb Ascii.eqb Bool.eqb lookup list_lookup toNumber default
         js_ge js_le js_rem Z.eqb id].
    unfold hour12.
    destruct (Z.rem (digits_value 0 a) 12) as [|r|r] eqn:Er; cbn [js_or Z.eqb String_];
      by destruct (12 <=? digits_value 0 a). }
  assert (forall H, 0 <= H -> 1 <= hour12 H <= 12) as Hrange.
  { intros H HH. unfold hour12. pose proof (Z.rem_bound_pos H 12 HH ltac:(lia)).
    destruct (Z.eqb_spec (Z.rem H 12) 0); lia. }
  split.
  - exists (hour12 (digits_value 0 h)). split; [by apply Hrange|by rewrite Hfmt].
  - rewrite !Hfmt by done. intros Heq.
    apply digits_then_inj in Heq as (Hhour & _ & Heq);
      [|apply pretty_digits; pose proof (Hrange _ Hh0); lia
       |apply pretty_digits; pose proof (Hrange _ Hh0'); lia|done|done].
    apply digits_then_inj in Heq as (Hmin & _ & Hperiod);
      [|by apply is_digits_pad|by apply is_digits_pad|done|done].
    apply (inj pretty) in Hhour.
    assert (digits_value 0 m = digits_value 0 m') as HM.
    { pose proof (Number_pad _ Hm0) as Hn. rewrite Hmin, Number_pad in Hn by done.
      by injection Hn. }
    assert (digits_value 0 h = digits_value 0 h') as HH.
    { unfold hour12 in Hhour.
      rewrite !Z.rem_mod_nonneg in Hhour by lia.
      pose proof (Z.div_mod (digits_value 0 h) 12 ltac:(lia)).
      pose proof (Z.div_mod (digits_value 0 h') 12 ltac:(lia)).
      pose proof (Z.mod_pos_bound (digits_value 0 h) 12 ltac:(lia)).
      pose proof (Z.mod_pos_bound (digits_value 0 h') 12 ltac:(lia)).
      destruct (Z.leb_spec 12 (digits_value 0 h)), (Z.leb_spec 12 (digits_value 0 h'));
        try discriminate Hperiod;
        destruct (Z.eqb_spec (digits_value 0 h `mod` 12) 0),
                 (Z.eqb_spec (digits_value 0 h' `mod` 12) 0); lia. }
    rewrite !parseTime_fields by done. by rewrite HH, HM.
Qed.

Lemma formatTime_12h_unambiguous_witness :
  (exists hour : Z,
     1 <= hour <= 12
     /\ formatTime "13:05" "12h"
        = (pretty hour ++ ":" ++ pad (Some (JNum 5)) ++ " " ++ "PM")%string)
  /\ (formatTime "13:05" "12h" = formatTime "13:5" "12h" ->
      parseTime "13:05" = parseTime "13:5").
Proof.
  apply (formatTime_12h_unambiguous "13" "05" "13" "5");
    first [reflexivity | cbn; lia | by vm_compute].
Defined.

(** * Escaping of HTML *)

Section EscapeFacts.
Implicit Types (s t r : string) (c x : ascii).

Lemma replaceAll_app c r s t :
  replaceAll c r (s ++ t) = (replaceAll c r s ++ replaceAll c r t)%string.
Proof.
  induction s as [|x s IH]; string_app; [done|]. cbn [replaceAll].
  destruct (Ascii.eqb x c); rewrite IH; [by rewrite string_app_assoc|].
  by string_app.
Qed.

(** The five replacements in a row, on the text of one character. *)
Lemma escapeChar_passes x :
  replaceAll "'" "&#039;"
    (replaceAll dquote "&quot;"
       (replaceAll ">" "&gt;"
          (replaceAll "<" "&lt;"
             (replaceAll "&" "&amp;" (String x EmptyString)))))
  = escapeChar x.
Proof. by destruct x as [[] [] [] [] [] [] [] []]. Qed.

Lemma escapeEach_passes s :
  replaceAll "'" "&#039;"
    (replaceAll dquote "&quot;"
       (replaceAll ">" "&gt;"
          (replaceAll "<" "&lt;"
             (replaceAll "&" "&amp;" s))))
  = escapeEach s.
Proof.
  induction s as [|x s IH]; [done|].
  change (String x s) with (String x EmptyString ++ s)%string.
  rewrite !replaceAll_app, IH, escapeChar_passes. done.
Qed.

Lemma occurs_app c s t : occurs c (s ++ t) = occurs c s || occurs c t.
Proof.
  induction s as [|x s IH]; string_app; [done|]. cbn [occurs].
  by rewrite IH, orb_assoc.
Qed.

Lemma escapeChar_safe x :
  occurs "<" (escapeChar x) = false /\ occurs ">" (escapeChar x) = false
  /\ occurs dquote (escapeChar x) = false /\ occurs "'" (escapeChar x) = false.
Proof. by destruct x as [[] [] [] [] [] [] [] []]. Qed.

(** The escapes form a prefix code: what one character is written as
    is no beginning of what another is written as. *)
Lemma escapeChar_prefix_free x y s t :
  (escapeChar x ++ s = escapeChar y ++ t)%string -> x = y /\ s = t.
Proof.
  unfold escapeChar.
  destruct (Ascii.eqb_spec x "&") as [->|Hx1];
    [|destruct (Ascii.eqb_spec x "<") as [->|Hx2];
      [|destruct (Ascii.eqb_spec x ">") as [->|Hx3];
        [|destruct (Ascii.eqb_spec x dquote) as [->|Hx4];
          [|destruct (Ascii.eqb_spec x "'") as [->|Hx5]]]]];
  (destruct (Ascii.eqb_spec y "&") as [->|Hy1];
    [|destruct (Ascii.eqb_spec y "<") as [->|Hy2];
      [|destruct (Ascii.eqb_spec y ">") as [->|Hy3];
        [|destruct (Ascii.eqb_spec y dquote) as [->|Hy4];
          [|destruct (Ascii.eqb_spec y "'") as [->|Hy5]]]]]);
  repeat string_app; intros Heq; try discriminate Heq;
    try (by injection Heq as ->);
    try (injection Heq as Hc _; congruence).
Qed.

Lemma escapeHtml_each s : escapeHtml s = escapeEach s.
Proof.
  unfold escapeHtml. destruct s as [|x s]; [done|].
  cbn [nonempty negb]. apply escapeEach_passes.
Qed.

Lemma escapeChar_nonempty x : nonempty (escapeChar x) = true.
Proof. unfold escapeChar. by repeat case_match. Qed.
End EscapeFacts.

(** X28. [escapeHtml] writes each character once: the five
    replacements in a row give what one reading of the text gives that
    writes [&], [<], [>], the double quote and the apostrophe as their
    entities and every other character as itself; the ampersand of an
    entity is not escaped again. No [<], [>], double quote or apostrophe
    is left in the result. *)
Theorem escapeHtml_once (text : string) :
  escapeHtml text = escapeEach text
  /\ occurs "<" (escapeHtml text) = false
  /\ occurs ">" (escapeHtml text) = false
  /\ occurs dquote (escapeHtml text) = false
  /\ occurs "'" (escapeHtml text) = false.
Proof.
  rewrite escapeHtml_each. split; [done|].
  induction text as [|x s (IH1 & IH2 & IH3 & IH4)]; [done|].
  cbn [escapeEach]. rewrite !occurs_app, IH1, IH2, IH3, IH4.
  destruct (escapeChar_safe x) as (-> & -> & -> & ->). done.
Qed.

(** X29. [escapeHtml] loses nothing: two texts have the same escape
    exactly when they are the same text. *)
Theorem escapeHtml_inj (text text' : string) :
  escapeHtml text = escapeHtml text' <-> text = text'.
Proof.
  split; [|by intros ->].
  rewrite !escapeHtml_each. revert text'.
  induction text as [|x s IH]; intros [|y t]; cbn [escapeEach].
  - done.
  - intros Heq. pose proof (escapeChar_nonempty y) as Hy.
    destruct (escapeChar y); [done|]. by rewrite string_app_cons in Heq.
  - intros Heq. pose proof (escapeChar_nonempty x) as Hx.
    destruct (escapeChar x); [done|]. by rewrite string_app_cons in Heq.
  - intros [-> Heq]%escapeChar_prefix_free. by rewrite (IH t Heq).
Qed.
